(** * brig: the directory node of the content-addressed tree (store/directory.go)

    A shallow embedding of [store.Directory] and of the functions around it:
    the wire codec ([ToProto], [FromProto]), tree movement ([VisitChildren],
    [Up], [Walk], [Lookup]) and the two state altering methods ([Add],
    [RemoveChild]).

    Go objects live in a heap.  A [*Hash] is an address into the table of
    hash objects (or nil), a [*Directory] an address into the table of
    directories: [Hash.Xor] updates a hash object in place, and the children
    map of a directory and the [parent] field of its children hold pointers to
    hash objects that other directories own, so the sharing is part of the
    model. *)

From Stdlib Require Import ZArith Lia Ascii String.
From stdpp Require Import base option numbers list strings gmap fin_maps.

Set Default Proof Using "Type".
Local Open Scope Z_scope.

(** ** Values *)

(** A digest is the byte string of a multihash. *)
Definition digest := list N.

(** [uint64] arithmetic wraps around. *)
Definition wrap64 (z : Z) : Z := z mod 2 ^ 64.

Definition haddr := nat.
Definition daddr := nat.
Definition faddr := nat.

(** A Go [*Hash]: [None] is the nil pointer. *)
Definition hashptr := option haddr.

(** [time.Time] is kept abstract: an instant, compared by equality. *)
Definition Time := Z.

(** The zero [time.Time{}]. *)
Definition zeroTime : Time := 0.

Inductive Error :=
  | NoSuchFile (name : string)
  | MalformedInput (name : string)
  | ErrBadNode
  | ErrXorLength
  | ErrTime
  | ErrNotFound
  | ErrTypeMismatch
  | ErrOther (code : nat).

(** The result of running a piece of Go code: a value, a returned [error], a
    run-time panic (nil dereference, write to a nil map, index out of range),
    or the bounded unrolling of a loop used up. *)
Inductive outcome (A : Type) :=
  | Ok (a : A)
  | Err (e : Error)
  | Panic
  | OutOfFuel.
Arguments Ok {A} a.
Arguments Err {A} e.
Arguments Panic {A}.
Arguments OutOfFuel {A}.

(** The struct of store/directory.go.  The [fs] field is the one ambient
    store and is not kept per object. *)
Record Directory := mkDirectory {
  name : string;
  size : Z;
  modTime : Time;
  parent : hashptr;
  hash : hashptr;
  children : option (gmap string hashptr);
  id : Z
}.

(** Modelled from the spec: the File variant of a node (store/file.go is not
    among the sources): an opaque leaf whose size and digest are supplied
    externally, with the capability set of every node. *)
Record File := mkFile {
  fname : string;
  fsize : Z;
  fparent : hashptr;
  fhash : hashptr
}.

(** A non-nil value of the [Node] interface. *)
Inductive Node :=
  | NDir (d : daddr)
  | NFile (f : faddr).

Inductive NodeType := NodeTypeFile | NodeTypeDirectory.

(** The heap, and [visited]: the nodes a visit callback was applied to,
    oldest first (bookkeeping of the model, the code has no such field). *)
Record Heap := mkHeap {
  hashes : gmap haddr digest;
  dirs : gmap daddr Directory;
  files : gmap faddr File;
  visited : list Node
}.

(** The global [EmptyHash] is one shared hash object. *)
Definition EmptyHash : haddr := 0%nat.

(** ** The state monad of the embedding *)

Definition M (A : Type) := Heap → Heap * outcome A.

Definition ret {A} (a : A) : M A := λ σ, (σ, Ok a).
Definition fail {A} (e : Error) : M A := λ σ, (σ, Err e).
Definition panic {A} : M A := λ σ, (σ, Panic).
Definition diverge {A} : M A := λ σ, (σ, OutOfFuel).

Definition bind {A B} (m : M A) (k : A → M B) : M B :=
  λ σ, match m σ with
       | (σ', Ok a) => k a σ'
       | (σ', Err e) => (σ', Err e)
       | (σ', Panic) => (σ', Panic)
       | (σ', OutOfFuel) => (σ', OutOfFuel)
       end.

Declare Scope go_scope.
Delimit Scope go_scope with go.
Notation "'let!' x ':=' m 'in' k" := (bind m (λ x, k))
  (at level 10, x name, m at level 100, k at level 200) : go_scope.
Local Open Scope go_scope.

Definition lift {A} (o : outcome A) : M A := λ σ, (σ, o).
Definition get : M Heap := λ σ, (σ, Ok σ).

(** ** Heap access *)

Definition getDir (d : daddr) : M Directory :=
  λ σ, match dirs σ !! d with
       | Some dir => (σ, Ok dir)
       | None => (σ, Panic)
       end.

Definition putDir (d : daddr) (dir : Directory) : M unit :=
  λ σ, (mkHeap (hashes σ) (<[d := dir]> (dirs σ)) (files σ) (visited σ), Ok tt).

Definition getFile (f : faddr) : M File :=
  λ σ, match files σ !! f with
       | Some fl => (σ, Ok fl)
       | None => (σ, Panic)
       end.

Definition putFile (f : faddr) (fl : File) : M unit :=
  λ σ, (mkHeap (hashes σ) (dirs σ) (<[f := fl]> (files σ)) (visited σ), Ok tt).

(** Dereferencing a [*Hash]: nil panics. *)
Definition getHash (p : hashptr) : M digest :=
  λ σ, match p with
       | Some a => match hashes σ !! a with
                   | Some bs => (σ, Ok bs)
                   | None => (σ, Panic)
                   end
       | None => (σ, Panic)
       end.

Definition putHash (a : haddr) (bs : digest) : M unit :=
  λ σ, (mkHeap (<[a := bs]> (hashes σ)) (dirs σ) (files σ) (visited σ), Ok tt).

(** [&Hash{bs}]: a new hash object. *)
Definition newHash (bs : digest) : M haddr :=
  λ σ, let a := fresh (dom (hashes σ)) in
       (mkHeap (<[a := bs]> (hashes σ)) (dirs σ) (files σ) (visited σ), Ok a).

Definition logVisit (nd : Node) : M unit :=
  λ σ, (mkHeap (hashes σ) (dirs σ) (files σ) (visited σ ++ [nd]), Ok tt).

(** Field setters, as assignments through the pointer. *)
Definition setSize (d : daddr) (z : Z) : M unit :=
  let! dir := getDir d in
  putDir d (mkDirectory (name dir) z (modTime dir) (parent dir) (hash dir)
                        (children dir) (id dir)).

Definition setParentField (d : daddr) (p : hashptr) : M unit :=
  let! dir := getDir d in
  putDir d (mkDirectory (name dir) (size dir) (modTime dir) p (hash dir)
                        (children dir) (id dir)).

Definition setChildren (d : daddr) (m : option (gmap string hashptr)) : M unit :=
  let! dir := getDir d in
  putDir d (mkDirectory (name dir) (size dir) (modTime dir) (parent dir)
                        (hash dir) m (id dir)).

(** ** The hash object *)

(** Modelled from the spec: [Hash.Xor] (store/hash.go is not among the
    sources), the combination operator of content addresses: a pure function
    of the two digest values, commutative, associative and self-inverse, here
    the bytewise exclusive or, stored in the receiver.  It returns an error
    instead when the two digests have different lengths. *)
Definition xorBytes (a b : digest) : digest := zip_with N.lxor a b.

Definition Xor (p q : hashptr) : M unit :=
  let! a := getHash p in
  let! b := getHash q in
  if decide (length a = length b) then
    match p with
    | Some pa => putHash pa (xorBytes a b)
    | None => panic
    end
  else fail ErrXorLength.

(** ** The node interface *)

Definition nodeName (nd : Node) : M string :=
  match nd with
  | NDir d => let! dir := getDir d in ret (name dir)
  | NFile f => let! fl := getFile f in ret (fname fl)
  end.

Definition nodeHash (nd : Node) : M hashptr :=
  match nd with
  | NDir d => let! dir := getDir d in ret (hash dir)
  | NFile f => let! fl := getFile f in ret (fhash fl)
  end.

Definition nodeSize (nd : Node) : M Z :=
  match nd with
  | NDir d => let! dir := getDir d in ret (size dir)
  | NFile f => let! fl := getFile f in ret (fsize fl)
  end.

Definition GetType (nd : Node) : NodeType :=
  match nd with
  | NDir _ => NodeTypeDirectory
  | NFile _ => NodeTypeFile
  end.

(** [nd.SetParent(par)]: nil becomes the shared [EmptyHash], any other node
    gives the pointer its [Hash()] returns. *)
Definition SetParent (nd : Node) (par : option Node) : M unit :=
  let! p := match par with
            | None => ret (Some EmptyHash)
            | Some n => nodeHash n
            end in
  match nd with
  | NDir d => setParentField d p
  | NFile f =>
      let! fl := getFile f in
      putFile f (mkFile (fname fl) (fsize fl) p (fhash fl))
  end.

(** ** Reading the heap *)

Definition dirSize (σ : Heap) (d : daddr) : option Z :=
  size <$> dirs σ !! d.

(** The digest a directory currently has: the bytes behind its [hash]. *)
Definition dirDigest (σ : Heap) (d : daddr) : option digest :=
  dirs σ !! d ≫= λ dir, hash dir ≫= λ a, hashes σ !! a.

Definition dirChildren (σ : Heap) (d : daddr) : option (gmap string hashptr) :=
  dirs σ !! d ≫= children.

(** What [Name()], [Size()] and [Hash()] of a node return. *)
Definition nodeInfo (σ : Heap) (nd : Node) : option (string * Z * hashptr) :=
  match nd with
  | NDir e => (λ dir, (name dir, size dir, hash dir)) <$> dirs σ !! e
  | NFile f => (λ fl, (fname fl, fsize fl, fhash fl)) <$> files σ !! f
  end.

(** ** The wire message *)

(** The fields of the generated protobuf message that [ToProto] fills and
    [FromProto] reads through its nil-safe getters. *)
Module wire.

Record Directory := mkDirectory {
  Links : list digest;
  Names : list string
}.

Record Node := mkNode {
  ID : Z;
  Type' : NodeType;
  ModTime : list N;
  NodeSize : Z;
  Hash : digest;
  Name : string;
  Parent : digest;
  Directory' : option Directory
}.

Definition GetLinks (pbd : option Directory) : list digest :=
  match pbd with
  | Some m => Links m
  | None => []
  end.

Definition GetNames (pbd : option Directory) : list string :=
  match pbd with
  | Some m => Names m
  | None => []
  end.

End wire.

(** [strings.Split(s, "/")]: the pieces between the slashes, one more than
    there are slashes. *)
Fixpoint splitSlash (s : string) : list string :=
  match s with
  | EmptyString => [EmptyString]
  | String c rest =>
      if Ascii.eqb c "/"%char then EmptyString :: splitSlash rest
      else match splitSlash rest with
           | [] => [String c EmptyString]
           | x :: xs => String c x :: xs
           end
  end.

(** One mutation of the children of a directory: [Add] or [RemoveChild] of
    a node. *)
Inductive Op :=
  | OpAdd (nd : Node)
  | OpRemove (nd : Node).

Definition opNode (o : Op) : Node :=
  match o with
  | OpAdd nd => nd
  | OpRemove nd => nd
  end.

Section Store.

(** The tree store [FS] is an external collaborator.  During one operation
    of the core nothing is persisted, so its digest to node resolution is
    one fixed table. *)
Variable index : digest → outcome Node.

(** The order in which a Go [range] goes through a map is not specified:
    any enumeration of the entries. *)
Variable rangeMap : gmap string hashptr → list (string * hashptr).

(** Modelled from the spec: [FS.NodeByHash] resolves any node variant from
    the digest behind the pointer. *)
Definition NodeByHash (p : hashptr) : M Node :=
  let! bs := getHash p in
  lift (index bs).

(** Modelled from the spec: [FS.DirectoryByHash] resolves specifically a
    Directory, failing with a type-mismatch condition if the digest names a
    different kind. *)
Definition DirectoryByHash (p : hashptr) : M daddr :=
  let! nd := NodeByHash p in
  match nd with
  | NDir d => ret d
  | NFile _ => fail ErrTypeMismatch
  end.

(** What the store answers for a pointer, given the hash objects. *)
Definition resolve (hs : gmap haddr digest) (h : hashptr) : outcome Node :=
  match h with
  | Some a => match hs !! a with
              | Some bs => index bs
              | None => Panic
              end
  | None => Panic
  end.

(** What [DirectoryByHash] answers for a pointer, given the hash objects. *)
Definition lookupDir (hs : gmap haddr digest) (h : hashptr) : outcome daddr :=
  match resolve hs h with
  | Ok (NDir c) => Ok c
  | Ok (NFile _) => Err ErrTypeMismatch
  | Err e => Err e
  | Panic => Panic
  | OutOfFuel => OutOfFuel
  end.

(** The children [m] of a directory whose hash object is [hp] all resolve
    to nodes of the heap, none through [hp] itself, and at least one of
    them to a file. *)
Definition someChildIsFile (σ : Heap) (hp : haddr)
    (m : gmap string hashptr) : Prop :=
  (∀ n h, m !! n = Some h →
     h ≠ Some hp ∧
     ((∃ f, resolve (hashes σ) h = Ok (NFile f)) ∨
      (∃ c, resolve (hashes σ) h = Ok (NDir c) ∧ is_Some (dirs σ !! c)))) ∧
  (∃ n h f, m !! n = Some h ∧ resolve (hashes σ) h = Ok (NFile f)).

(** The size of the node a child link resolves to, and their sum over
    the children of [d]: the sum of the sizes of its current children. *)
Definition childSize (σ : Heap) (h : hashptr) : Z :=
  match resolve (hashes σ) h with
  | Ok nd => match nodeInfo σ nd with
             | Some (_, sz, _) => sz
             | None => 0
             end
  | _ => 0
  end.

Definition childrenSize (σ : Heap) (d : daddr) : option Z :=
  (λ m : gmap string hashptr, map_fold (λ _ h acc, childSize σ h + acc) 0 m)
    <$> dirChildren σ d.

(** [Directory.NChildren]: [len(d.children)], which is 0 for a nil map. *)
Definition NChildren (d : daddr) : M Z :=
  let! dir := getDir d in
  ret (Z.of_nat (base.size (default ∅ (children dir)))).

(** [Directory.Parent]: nil for a nil [parent], otherwise what the store
    resolves the pointer to. *)
Definition Parent (d : daddr) : M (option Node) :=
  let! dir := getDir d in
  match parent dir with
  | None => ret None
  | Some _ => let! nd := NodeByHash (parent dir) in ret (Some nd)
  end.

(** The directories from [d] upwards by parent pointer, [l], below the first
    one whose [parent] is nil, [top]. *)
Fixpoint ancestors (σ : Heap) (d : daddr) (l : list daddr) (top : daddr) : Prop :=
  match l with
  | [] => d = top ∧ ∃ dir, dirs σ !! top = Some dir ∧ parent dir = None
  | x :: l' =>
      x = d ∧
      ∃ dir next, dirs σ !! d = Some dir ∧ is_Some (parent dir) ∧
                  resolve (hashes σ) (parent dir) = Ok (NDir next) ∧
                  ancestors σ next l' top
  end.

(** Every directory in [I] has a parent pointer that resolves to a directory
    in [I] again: following the pointers never reaches a nil [parent]. *)
Definition parentClosed (σ : Heap) (I : daddr → Prop) : Prop :=
  ∀ y, I y →
    ∃ dir next, dirs σ !! y = Some dir ∧ is_Some (parent dir) ∧
                resolve (hashes σ) (parent dir) = Ok (NDir next) ∧ I next.

(** *** Tree movement *)

Fixpoint visitLinks (fn : daddr → M unit) (l : list (string * hashptr)) : M unit :=
  match l with
  | [] => ret tt
  | (_, h) :: rest =>
      let! child := DirectoryByHash h in
      let! _ := fn child in
      visitLinks fn rest
  end.

Definition VisitChildren (d : daddr) (fn : daddr → M unit) : M unit :=
  let! dir := getDir d in
  match children dir with
  | None => ret tt
  | Some m => visitLinks fn (rangeMap m)
  end.

(** [Up]: the loop [for curr := d; curr.parent != nil; { ... }], unrolled
    at most [fuel] times. *)
Fixpoint Up (fuel : nat) (curr : daddr) (visit : daddr → M unit) : M unit :=
  match fuel with
  | O => diverge
  | S fuel' =>
      let! c := getDir curr in
      match parent c with
      | None => ret tt
      | Some _ =>
          let! _ := logVisit (NDir curr) in
          let! _ := visit curr in
          let! c' := getDir curr in
          let! next := DirectoryByHash (parent c') in
          Up fuel' next visit
      end
  end.

(** The upward path of a walk, as the states of the loop of [Up]: from
    [(fuel, curr, σ)] one round of the loop, in which the visit of [curr]
    returns nil and the store resolves its parent, leads to the next
    state. *)
Inductive reaches (visit : daddr → M unit)
    : nat * daddr * Heap → nat * daddr * Heap → Prop :=
  | reaches_here s : reaches visit s s
  | reaches_up fuel y σ dir σ1 dir1 next s :
      dirs σ !! y = Some dir → is_Some (parent dir) →
      visit y (logVisit (NDir y) σ).1 = (σ1, Ok tt) →
      dirs σ1 !! y = Some dir1 →
      DirectoryByHash (parent dir1) σ1 = (σ1, Ok next) →
      reaches visit (fuel, next, σ1) s →
      reaches visit (S fuel, y, σ) s.

Definition xorHash (d : daddr) (h : hashptr) : M unit :=
  let! dir := getDir d in
  let! _ := Xor (hash dir) h in
  VisitChildren d (λ child, SetParent (NDir child) (Some (NDir d))).

(** *** State altering methods *)

Definition addVisit (sz : Z) (h : hashptr) (par : daddr) : M unit :=
  let! pd := getDir par in
  let! _ := setSize par (wrap64 (size pd + sz)) in
  xorHash par h.

Definition Add (fuel : nat) (d : daddr) (nd : Node) : M unit :=
  let! nm := nodeName nd in
  let! h := nodeHash nd in
  let! dir := getDir d in
  match children dir with
  | None => panic
  | Some m =>
      let! _ := setChildren d (Some (<[nm := h]> m)) in
      let! sz := nodeSize nd in
      let! nh := nodeHash nd in
      Up fuel d (addVisit sz nh)
  end.

Definition removeVisit (sz : Z) (h : hashptr) (par : daddr) : M unit :=
  let! pd := getDir par in
  let! _ := setSize par (wrap64 (size pd - sz)) in
  xorHash par h.

Definition RemoveChild (fuel : nat) (d : daddr) (nd : Node) : M unit :=
  let! nm := nodeName nd in
  let! dir := getDir d in
  match children dir ≫= (λ m, m !! nm) with
  | None => fail (NoSuchFile nm)
  | Some _ =>
      let! _ := SetParent nd None in
      let! dir' := getDir d in
      let! _ := setChildren d (delete nm <$> children dir') in
      let! sz := nodeSize nd in
      let! nh := nodeHash nd in
      Up fuel d (removeVisit sz nh)
  end.

Definition runOp (fuel : nat) (d : daddr) (o : Op) : M unit :=
  match o with
  | OpAdd nd => Add fuel d nd
  | OpRemove nd => RemoveChild fuel d nd
  end.

(** The heap after a sequence of mutations of [d], called one after the
    other whatever each of them returns. *)
Fixpoint runOps (fuel : nat) (d : daddr) (ops : list Op) (σ : Heap) : Heap :=
  match ops with
  | [] => σ
  | o :: rest => runOps fuel d rest (runOp fuel d o σ).1
  end.

(** The common shape of the two visit callbacks above, [f] being the
    update of the size. *)
Definition sizeVisit (f : Z → Z) (h : hashptr) (par : daddr) : M unit :=
  let! pd := getDir par in
  let! _ := setSize par (f (size pd)) in
  xorHash par h.

(** [Walk]: the [return] inside the loop over the children is the
    source's. *)
Fixpoint Walk (fuel : nat) (node : Node) (dfs : bool) (visit : Node → M unit)
    : M unit :=
  match fuel with
  | O => diverge
  | S fuel' =>
      match node with
      | NFile _ => visit node
      | NDir d =>
          let! _ := (if negb dfs then visit node else ret tt) in
          let! dir := getDir d in
          match default [] (rangeMap <$> children dir) with
          | (_, link) :: _ =>
              let! child := NodeByHash link in
              Walk fuel' child dfs visit
          | [] => if dfs then visit node else ret tt
          end
      end
  end.

(** The path from [nd] downwards that takes the first enumerated child at
    every directory: the directories [l] passed on the way, down to [last],
    a file or a directory without children. *)
Fixpoint firstPath (σ : Heap) (nd : Node) (l : list Node) (last : Node) : Prop :=
  match l with
  | [] =>
      nd = last ∧
      match last with
      | NFile _ => True
      | NDir d => ∃ dir, dirs σ !! d = Some dir ∧
                         default [] (rangeMap <$> children dir) = []
      end
  | x :: l' =>
      x = nd ∧
      ∃ d dir n link rest next,
        nd = NDir d ∧ dirs σ !! d = Some dir ∧
        default [] (rangeMap <$> children dir) = (n, link) :: rest ∧
        resolve (hashes σ) link = Ok next ∧ firstPath σ next l' last
  end.

(** *** Path lookup *)

(** [path.Clean] of the Go library and the repository's [prefixSlash]
    (not among the sources) turn the argument into the path to split. *)
Variable pathClean : string → string.
Variable prefixSlash : string → string.

(** The [Child] method of the File variant (not among the sources). *)
Variable fileChild : faddr → string → M (option Node).

(** [Directory.Child]: the body is [return nil, nil]. *)
Definition Child (d : daddr) (nm : string) : M (option Node) := ret None.

Definition nodeChild (nd : Node) (nm : string) : M (option Node) :=
  match nd with
  | NDir d => Child d nm
  | NFile f => fileChild f nm
  end.

Fixpoint lookupLoop (curr : Node) (elems : list string) : M (option Node) :=
  match elems with
  | [] => ret (Some curr)
  | elem :: rest =>
      let! c := nodeChild curr elem in
      match c with
      | None => ret None
      | Some c' => lookupLoop c' rest
      end
  end.

Definition Lookup (d : daddr) (repoPath : string) : M (option Node) :=
  let repoPath := prefixSlash (pathClean repoPath) in
  let elems := splitSlash repoPath in
  if decide (length elems = 1%nat) then ret (Some (NDir d))
  else lookupLoop (NDir d) elems.

(** *** Creation *)

(** [newEmptyDirectory]: [mh] is the multihash of the joined path and [nid]
    the id [fs.NextID()] hands out (both come from outside the core, and a
    failure of either returns before anything is built).  The composite
    literal sets [fs], [id], [hash] and [name] only. *)
Definition newEmptyDirectory (fuel : nat) (mh : outcome digest)
    (nid : outcome Z) (par : option daddr) (nm : string) : M daddr :=
  let! bs := lift mh in
  let! i := lift nid in
  let! h := newHash bs in
  let! σ := get in
  let d := fresh (dom (dirs σ)) in
  let! _ := putDir d (mkDirectory nm 0 zeroTime None (Some h) None i) in
  match par with
  | Some p => let! _ := Add fuel p (NDir d) in ret d
  | None => ret d
  end.

(** *** Marshalling *)

(** [time.Time.MarshalBinary] and [UnmarshalBinary] of the Go library. *)
Variable MarshalBinary : Time → outcome (list N).
Variable UnmarshalBinary : list N → outcome Time.

(** The loop of [ToProto] over the children: [link.Bytes()] reads through
    the pointer. *)
Fixpoint collectLinks (l : list (string * hashptr)) : M (list digest * list string) :=
  match l with
  | [] => ret ([], [])
  | (nm, link) :: rest =>
      let! bs := getHash link in
      let! r := collectLinks rest in
      ret (bs :: r.1, nm :: r.2)
  end.

Definition ToProto (d : daddr) : M wire.Node :=
  let! dir := getDir d in
  let! binModTime := lift (MarshalBinary (modTime dir)) in
  let! ln := collectLinks (default [] (rangeMap <$> children dir)) in
  let! h := getHash (hash dir) in
  let! p := getHash (parent dir) in
  ret (wire.mkNode (id dir) NodeTypeDirectory binModTime (size dir) h
         (name dir) p (Some (wire.mkDirectory ln.1 ln.2))).

(** The loop of [FromProto] over the names, from index [idx] on. *)
Fixpoint fromNames (d : daddr) (links : list digest) (idx : nat)
    (names : list string) : M unit :=
  match names with
  | [] => ret tt
  | nm :: rest =>
      if (0 <=? Z.of_nat idx) && (Z.of_nat idx <? Z.of_nat (length links)) then
        let! dir := getDir d in
        fail (MalformedInput (name dir))
      else
        match links !! idx with
        | None => panic
        | Some l =>
            let! a := newHash l in
            let! dir := getDir d in
            match children dir with
            | None => panic
            | Some m =>
                let! _ := setChildren d (Some (<[nm := Some a]> m)) in
                fromNames d links (S idx) rest
            end
        end
  end.

Definition FromProto (d : daddr) (pnd : wire.Node) : M unit :=
  let pbd := wire.Directory' pnd in
  let! mt := lift (UnmarshalBinary (wire.ModTime pnd)) in
  let! _ := getDir d in
  let! pa := newHash (wire.Parent pnd) in
  let! ha := newHash (wire.Hash pnd) in
  let! _ := putDir d (mkDirectory (wire.Name pnd) (wire.NodeSize pnd) mt
                        (Some pa) (Some ha) (Some ∅) (wire.ID pnd)) in
  fromNames d (wire.GetLinks pbd) 0 (wire.GetNames pbd).

End Store.

(** * Concrete trees *)

(** The heap of the first scenario: the shared [EmptyHash] object, and a
    File "a.txt" of size 10 whose digest [h1] sits in hash object 1. *)
Definition scenarioHeap (h1 : digest) : Heap :=
  mkHeap {[ EmptyHash := []; 1%nat := h1 ]} ∅
         {[ 0%nat := mkFile "a.txt" 10 None (Some 1%nat) ]} [].

(** [d.children = make(map[string]*Hash)], which [newEmptyDirectory] leaves
    out. *)
Definition makeChildren (d : daddr) (σ : Heap) : Heap :=
  (setChildren d (Some ∅) σ).1.

(** The heap [σ] after the visit callback went through [l]. *)
Definition logged (σ : Heap) (l : list Node) : Heap :=
  mkHeap (hashes σ) (dirs σ) (files σ) (visited σ ++ l).

#[global] Instance Node_eq_dec : EqDecision Node.
Proof. solve_decision. Defined.

(** The hash pointer of a directory. *)
Definition dhash (σ : Heap) (d : daddr) : hashptr :=
  dirs σ !! d ≫= hash.

Definition dparent (σ : Heap) (d : daddr) : hashptr :=
  dirs σ !! d ≫= parent.

(** The visits logged between [σ] and a later [σ']. *)
Definition newVisits (σ σ' : Heap) : list Node :=
  drop (length (visited σ)) (visited σ').

(** The hash objects owned by the directories among [l]. *)
Definition ownHashes (σ : Heap) (l : list Node) : list haddr :=
  omap (λ nd, match nd with NDir y => dhash σ y | NFile _ => None end) l.

(** What a piece of the upward walk may change: the size of the directories
    in [P], the bytes of the hash objects in [Q], and the [parent] field of
    any directory, which stays non-nil once it is.  Files, names, hash
    pointers and children maps stay. *)
Record frame (P : daddr → Prop) (Q : haddr → Prop) (σ σ' : Heap) : Prop := mkFrame {
  frame_files : files σ' = files σ;
  frame_hash : ∀ y, hash <$> dirs σ' !! y = hash <$> dirs σ !! y;
  frame_children : ∀ y, children <$> dirs σ' !! y = children <$> dirs σ !! y;
  frame_name : ∀ y, name <$> dirs σ' !! y = name <$> dirs σ !! y;
  frame_size : ∀ y, ¬ P y → dirSize σ' y = dirSize σ y;
  frame_bytes : ∀ q, ¬ Q q → hashes σ' !! q = hashes σ !! q;
  frame_parent : ∀ y, is_Some (dparent σ y) → is_Some (dparent σ' y)
}.

(** A piece of the walk that logs no visit. *)
Definition quiet (P : daddr → Prop) (Q : haddr → Prop) (σ σ' : Heap) : Prop :=
  frame P Q σ σ' ∧ visited σ' = visited σ.

(** The same for a whole walk, which logs the directories [l] it visits. *)
Definition walkedBy (l : list Node) (σ σ' : Heap) : Prop :=
  visited σ' = visited σ ++ l ∧
  frame (λ y, NDir y ∈ l) (λ q, q ∈ ownHashes σ l) σ σ'.

(** A directory record with another children map. *)
Definition withChildren (dir : Directory) (m : gmap string hashptr) : Directory :=
  mkDirectory (name dir) (size dir) (modTime dir) (parent dir) (hash dir)
              (Some m) (id dir).

(** The walk [l] neither visits the node [nd] nor a directory whose hash
    object is [q]: [nd] is not among its own ancestors. *)
Definition untouched (σ : Heap) (l : list Node) (nd : Node) (q : haddr) : Prop :=
  (nd ∉ l) ∧ (q ∉ ownHashes σ l).

(** The size, the hash pointer and the digest of a node in the heap [σ]. *)
Definition nodeSz (σ : Heap) (nd : Node) : Z :=
  match nodeInfo σ nd with
  | Some (_, sz, _) => sz
  | None => 0
  end.

Definition nodePtr (σ : Heap) (nd : Node) : hashptr :=
  match nodeInfo σ nd with
  | Some (_, _, h) => h
  | None => None
  end.

Definition nodeDigest (σ : Heap) (nd : Node) : digest :=
  default [] (nodePtr σ nd ≫= (hashes σ !!.)).

(** What [Hash.Xor] leaves in the receiver: the combination where the
    lengths agree, otherwise the old digest (the call returns an error). *)
Definition xorIf (a b : digest) : digest :=
  if decide (length a = length b) then xorBytes a b else a.

(** The bookkeeping of a sequence of mutations: the nodes added and not yet
    removed, under their names.  A sequence is accepted when every [Add]
    brings a name that is neither in the map [m0] the directory started
    with nor among the names added and still there, and every
    [RemoveChild] is given the node that was added under its name and is
    still there. *)
Fixpoint netOps (σ : Heap) (m0 : gmap string hashptr) (pend : gmap string Node)
    (ops : list Op) : option (gmap string Node) :=
  match ops with
  | [] => Some pend
  | o :: rest =>
      match nodeInfo σ (opNode o) with
      | None => None
      | Some (nm, _, _) =>
          match o with
          | OpAdd nd =>
              if decide (m0 !! nm = None ∧ pend !! nm = None)
              then netOps σ m0 (<[nm := nd]> pend) rest
              else None
          | OpRemove nd =>
              if decide (pend !! nm = Some nd)
              then netOps σ m0 (delete nm pend) rest
              else None
          end
      end
  end.

(** No reference cycle shows during the run of the mutations [ops] from
    the heap [σ]: at each of them the walk above [d] does not come back to
    [d] or to its hash object [hp], and the walk touches none of the nodes
    of the whole sequence [all] nor their hash objects ([σ0] is the heap
    the sequence started in). *)
Fixpoint cleanRun (index : digest → outcome Node)
    (rangeMap : gmap string hashptr → list (string * hashptr))
    (fuel : nat) (d : daddr) (hp : haddr) (σ0 : Heap) (all ops : list Op)
    (σ : Heap) : Prop :=
  match ops with
  | [] => True
  | o :: rest =>
      let σ' := (runOp index rangeMap fuel d o σ).1 in
      untouched σ (tail (newVisits σ σ')) (NDir d) hp ∧
      Forall (λ x, (opNode x ∉ newVisits σ σ') ∧
                   ∀ hq, nodePtr σ0 (opNode x) = Some hq →
                         hq ∉ ownHashes σ (newVisits σ σ')) all ∧
      cleanRun index rangeMap fuel d hp σ0 all rest σ'
  end.

(** The directory [d], which has a parent, in the course of an accepted
    sequence that started in the heap [σ0] with the record [dir], the
    children [m0] and the digest [a] in the hash object [hp]; [pend] are
    the nodes added and still there.  Its children are those of the start
    and the pending ones; its size and digest are those of the start with
    the sizes and digests of the pending nodes folded in; the nodes of the
    sequence [all] answer what they answered at the start. *)
Definition seqInv (σ0 : Heap) (d : daddr) (dir : Directory)
    (m0 : gmap string hashptr) (hp : haddr) (a : digest) (all : list Op)
    (pend : gmap string Node) (σ : Heap) : Prop :=
  (∃ diri, dirs σ !! d = Some diri ∧ hash diri = Some hp ∧
           is_Some (parent diri) ∧
           children diri = Some ((nodePtr σ0 <$> pend) ∪ m0) ∧
           size diri
           = wrap64 (size dir + map_fold (λ _ n acc, nodeSz σ0 n + acc) 0 pend)) ∧
  hashes σ !! hp
  = Some (map_fold (λ _ n acc, xorIf acc (nodeDigest σ0 n)) a pend) ∧
  Forall (λ o, nodeInfo σ (opNode o) = nodeInfo σ0 (opNode o) ∧
               ∀ hq, nodePtr σ0 (opNode o) = Some hq →
                     hashes σ !! hq = hashes σ0 !! hq) all ∧
  (∀ nm n, pend !! nm = Some n →
           m0 !! nm = None ∧ ∃ sz h, nodeInfo σ0 n = Some (nm, sz, h)).

(** A three-level tree: the root (directory 0) holds dirA (directory 1),
    whose children are [kids] and whose size is [sz].  Beside the tree: the
    file fileB of size 5 and two directories that are both named "sub", of
    sizes 7 and 9.  The hash objects 1 to 5 carry the digests of root, dirA,
    fileB and the two directories. *)
Definition treeWith (kids : gmap string hashptr) (sz : Z) : Heap :=
  mkHeap {[ EmptyHash := []; 1%nat := [1%N; 0%N]; 2%nat := [2%N; 0%N];
            3%nat := [0%N; 4%N]; 4%nat := [0%N; 8%N]; 5%nat := [0%N; 16%N] ]}
         {[ 0%nat := mkDirectory "" sz 0 None (Some 1%nat)
                       (Some {[ "dirA" := Some 2%nat ]}) 1;
            1%nat := mkDirectory "dirA" sz 0 (Some 1%nat) (Some 2%nat)
                       (Some kids) 2;
            2%nat := mkDirectory "sub" 7 0 None (Some 4%nat) (Some ∅) 3;
            3%nat := mkDirectory "sub" 9 0 None (Some 5%nat) (Some ∅) 4 ]}
         {[ 0%nat := mkFile "fileB" 5 None (Some 3%nat) ]} [].

Definition treeHeap : Heap := treeWith ∅ 0.

(** The store of that tree: every node under its digest. *)
Definition treeIndex (bs : digest) : outcome Node :=
  if decide (bs = [1%N; 0%N]) then Ok (NDir 0%nat)
  else if decide (bs = [2%N; 0%N]) then Ok (NDir 1%nat)
  else if decide (bs = [0%N; 4%N]) then Ok (NFile 0%nat)
  else if decide (bs = [0%N; 8%N]) then Ok (NDir 2%nat)
  else if decide (bs = [0%N; 16%N]) then Ok (NDir 3%nat)
  else Err ErrNotFound.

(** A time codec that round-trips: one byte string per instant. *)
Definition marshalTime (t : Time) : outcome (list N) :=
  if decide (0 ≤ t) then Ok [Z.to_N t] else Err ErrTime.

Definition unmarshalTime (bs : list N) : outcome Time :=
  match bs with
  | [n] => Ok (Z.of_N n)
  | _ => Err ErrTime
  end.

(** A directory (directory 0) with the two files "a" and "b", and its
    store. *)
Definition walkHeap : Heap :=
  mkHeap {[ EmptyHash := []; 1%nat := [1%N]; 2%nat := [2%N]; 3%nat := [3%N] ]}
         {[ 0%nat := mkDirectory "top" 3 0 None (Some 3%nat)
                       (Some {[ "a" := Some 1%nat; "b" := Some 2%nat ]}) 1 ]}
         {[ 0%nat := mkFile "a" 1 None (Some 1%nat);
            1%nat := mkFile "b" 2 None (Some 2%nat) ]} [].

Definition walkIndex (bs : digest) : outcome Node :=
  if decide (bs = [1%N]) then Ok (NFile 0%nat)
  else if decide (bs = [2%N]) then Ok (NFile 1%nat)
  else if decide (bs = [3%N]) then Ok (NDir 0%nat)
  else Err ErrNotFound.

(** A message with the given names and links. *)
Definition message (names : list string) (links : list digest) : wire.Node :=
  wire.mkNode 7 NodeTypeDirectory [0%N] 0 [9%N] "n" []
              (Some (wire.mkDirectory links names)).


(** The heap in which the walk of [Add] starts, and the one in which the
    walk of [RemoveChild] starts. *)
Definition addStart (d : daddr) (dir : Directory) (m : gmap string hashptr)
    (nm : string) (h : hashptr) (σ : Heap) : Heap :=
  (putDir d (withChildren dir (<[nm := h]> m)) σ).1.

Definition removeStart (d : daddr) (dir : Directory) (m : gmap string hashptr)
    (nm : string) (nd : Node) (σ : Heap) : Heap :=
  (putDir d (withChildren dir (delete nm m)) (SetParent nd None σ).1).1.

(** The heap [σ'] after the visit of [y] in a walk that stood at [y] in
    the heap [σy]: [y] has the new size and the new digest, the directories
    [rewritten] have the hash object [hp] as their parent, and [y] is the
    last directory visited. *)
Definition afterVisit (σy σ' : Heap) (y : daddr) (newSize : Z)
    (newDigest : digest) (hp : haddr) (rewritten : list daddr) : Prop :=
  dirSize σ' y = Some newSize ∧ dirDigest σ' y = Some newDigest ∧
  Forall (λ c, dparent σ' c = Some hp) rewritten ∧
  visited σ' = visited σy ++ [NDir y].

(** A path of three directories: G (directory 0) is the root, P (directory
    1) its child and d (directory 2) the child of P, which also holds the
    file f.  The [parent] of d is a hash object of its own with the digest
    of P, as after decoding.  Directory 3, "new", of size 7, is not in the
    tree. *)
Definition pathHeap : Heap :=
  mkHeap {[ EmptyHash := []; 1%nat := [1%N; 0%N]; 2%nat := [2%N; 0%N];
            3%nat := [3%N; 0%N]; 4%nat := [0%N; 4%N]; 5%nat := [0%N; 8%N];
            6%nat := [2%N; 0%N] ]}
         {[ 0%nat := mkDirectory "" 0 0 None (Some 1%nat)
                       (Some {[ "P" := Some 2%nat ]}) 1;
            1%nat := mkDirectory "P" 0 0 (Some 1%nat) (Some 2%nat)
                       (Some {[ "d" := Some 3%nat; "f" := Some 4%nat ]}) 2;
            2%nat := mkDirectory "d" 0 0 (Some 6%nat) (Some 3%nat) (Some ∅) 3;
            3%nat := mkDirectory "new" 7 0 None (Some 5%nat) (Some ∅) 4 ]}
         {[ 0%nat := mkFile "f" 5 None (Some 4%nat) ]} [].

(** Another enumeration of a map: the entries in the opposite order. *)
Definition rangeBack (m : gmap string hashptr) : list (string * hashptr) :=
  reverse (map_to_list m).

(** The store of that tree; with [updated] it also knows d under the digest
    d has once "new" is folded in. *)
Definition pathIndex (updated : bool) (bs : digest) : outcome Node :=
  if decide (bs = [1%N; 0%N]) then Ok (NDir 0%nat)
  else if decide (bs = [2%N; 0%N]) then Ok (NDir 1%nat)
  else if decide (bs = [3%N; 0%N]) then Ok (NDir 2%nat)
  else if decide (bs = [0%N; 4%N]) then Ok (NFile 0%nat)
  else if decide (bs = [0%N; 8%N]) then Ok (NDir 3%nat)
  else if updated && bool_decide (bs = [3%N; 8%N]) then Ok (NDir 2%nat)
  else Err ErrNotFound.

(** A visit callback that returns nil and writes neither to a directory nor
    to a hash object nor to the log. *)
Definition readOnly (visit : daddr → M unit) : Prop :=
  ∀ y σ, (visit y σ).2 = Ok tt ∧ dirs (visit y σ).1 = dirs σ ∧
         hashes (visit y σ).1 = hashes σ ∧ visited (visit y σ).1 = visited σ.

(** A visit callback that writes neither to a directory nor to a hash
    object (it may write to files, and return an error). *)
Definition leavesTree (visit : daddr → M unit) : Prop :=
  ∀ y σ, dirs (visit y σ).1 = dirs σ ∧ hashes (visit y σ).1 = hashes σ.

(** The visit callback applied to the directories of [l] one after the
    other, each application logged, up to the first one that does not return
    nil. *)
Fixpoint visitAll (visit : daddr → M unit) (l : list daddr) : M unit :=
  match l with
  | [] => ret tt
  | x :: rest =>
      let! _ := logVisit (NDir x) in
      let! _ := visit x in
      visitAll visit rest
  end.

(** A directory that is its own parent: its [parent] is its own [hash]. *)
Definition loopHeap : Heap :=
  mkHeap {[ EmptyHash := []; 1%nat := [1%N] ]}
         {[ 0%nat := mkDirectory "loop" 0 0 (Some 1%nat) (Some 1%nat)
                       (Some ∅) 1 ]}
         ∅ [].

Definition loopIndex (bs : digest) : outcome Node :=
  if decide (bs = [1%N]) then Ok (NDir 0%nat) else Err ErrNotFound.

(** * Properties *)

Lemma splitSlash_cons (s : string) : ∃ x xs, splitSlash s = x :: xs.
Proof.
  induction s as [|c s [x [xs IH]]]; simpl; [by eauto|].
  destruct (Ascii.eqb c "/"); [by eauto|]. rewrite IH. by eauto.
Qed.

(** ** Framing *)

Lemma frame_refl P Q σ : frame P Q σ σ.
Proof. by split. Qed.

Lemma frame_trans P Q σ1 σ2 σ3 :
  frame P Q σ1 σ2 → frame P Q σ2 σ3 → frame P Q σ1 σ3.
Proof.
  intros [F1 H1 C1 N1 S1 B1 P1] [F2 H2 C2 N2 S2 B2 P2]. split.
  - by rewrite F2.
  - intros y. by rewrite H2.
  - intros y. by rewrite C2.
  - intros y. by rewrite N2.
  - intros y Hy. by rewrite S2, S1.
  - intros q Hq. by rewrite B2, B1.
  - intros y Hy. by apply P2, P1.
Qed.

Lemma frame_weaken (P P' : daddr → Prop) (Q Q' : haddr → Prop) σ σ' :
  (∀ y, P y → P' y) → (∀ q, Q q → Q' q) → frame P Q σ σ' → frame P' Q' σ σ'.
Proof.
  intros HP HQ [F H C N S B Pa]. split; [done..| | |done].
  - intros y Hy. apply S. by intros ?%HP.
  - intros q Hq. apply B. by intros ?%HQ.
Qed.

Lemma frame_dhash P Q σ σ' y : frame P Q σ σ' → dhash σ' y = dhash σ y.
Proof.
  intros F. unfold dhash. pose proof (frame_hash _ _ _ _ F y) as H.
  destruct (dirs σ' !! y), (dirs σ !! y); simpl in *; congruence.
Qed.

(** Running [m] and then [k] stays inside a transitive relation that both
    stay inside. *)
Lemma bind_rel {A B} (R : Heap → Heap → Prop) (m : M A) (k : A → M B) σ :
  (∀ σ1 σ2 σ3, R σ1 σ2 → R σ2 σ3 → R σ1 σ3) →
  R σ (m σ).1 →
  (∀ a σ1, m σ = (σ1, Ok a) → R σ σ1 → R σ1 (k a σ1).1) →
  R σ (bind m k σ).1.
Proof.
  intros Htrans Hm Hk. unfold bind.
  destruct (m σ) as [σ1 [a|e| |]] eqn:E; simpl in *; try done.
  eapply Htrans; [exact Hm|]. by apply Hk.
Qed.

Lemma quiet_refl P Q σ : quiet P Q σ σ.
Proof. split; [apply frame_refl|done]. Qed.

Lemma quiet_trans P Q σ1 σ2 σ3 :
  quiet P Q σ1 σ2 → quiet P Q σ2 σ3 → quiet P Q σ1 σ3.
Proof.
  intros [F1 V1] [F2 V2]. split; [by eapply frame_trans|congruence].
Qed.

Lemma quiet_weaken (P P' : daddr → Prop) (Q Q' : haddr → Prop) σ σ' :
  (∀ y, P y → P' y) → (∀ q, Q q → Q' q) → quiet P Q σ σ' → quiet P' Q' σ σ'.
Proof. intros HP HQ [F V]. split; [by eapply frame_weaken|done]. Qed.

(** Overwriting a directory record that keeps its hash pointer and children
    map, keeps a non-nil parent non-nil, and changes its size only if the
    directory is in [P]. *)
Lemma putDir_quiet (P : daddr → Prop) Q σ d dir dir' :
  dirs σ !! d = Some dir →
  hash dir' = hash dir →
  children dir' = children dir →
  name dir' = name dir →
  (is_Some (parent dir) → is_Some (parent dir')) →
  (¬ P d → size dir' = size dir) →
  quiet P Q σ (putDir d dir' σ).1.
Proof.
  intros Hd Hh Hc Hn Hp Hs. split; [|done]. split; simpl; try done.
  - intros y. destruct (decide (y = d)) as [->|Hne].
    + by rewrite lookup_insert_eq, Hd; simpl; rewrite Hh.
    + by rewrite lookup_insert_ne.
  - intros y. destruct (decide (y = d)) as [->|Hne].
    + by rewrite lookup_insert_eq, Hd; simpl; rewrite Hc.
    + by rewrite lookup_insert_ne.
  - intros y. destruct (decide (y = d)) as [->|Hne].
    + by rewrite lookup_insert_eq, Hd; simpl; rewrite Hn.
    + by rewrite lookup_insert_ne.
  - intros y Hy. unfold dirSize; simpl. destruct (decide (y = d)) as [->|Hne].
    + by rewrite lookup_insert_eq, Hd; simpl; rewrite Hs.
    + by rewrite lookup_insert_ne.
  - intros y. unfold dparent; simpl. destruct (decide (y = d)) as [->|Hne].
    + rewrite lookup_insert_eq, Hd; simpl. exact Hp.
    + by rewrite lookup_insert_ne.
Qed.

Lemma setSize_quiet Q σ d z : quiet (λ y, y = d) Q σ (setSize d z σ).1.
Proof.
  unfold setSize, bind, getDir. destruct (dirs σ !! d) as [dir|] eqn:Hd;
    [|apply quiet_refl].
  eapply putDir_quiet; eauto. by intros [].
Qed.

Lemma setParentField_quiet P Q σ d p :
  is_Some p → quiet P Q σ (setParentField d p σ).1.
Proof.
  intros Hp. unfold setParentField, bind, getDir.
  destruct (dirs σ !! d) as [dir|] eqn:Hd; [|apply quiet_refl].
  eapply putDir_quiet; eauto.
Qed.

Lemma getHash_state p σ : (getHash p σ).1 = σ.
Proof. unfold getHash. by destruct p as [a|]; [destruct (hashes σ !! a)|]. Qed.

Lemma Xor_quiet P σ p h : quiet P (λ q, p = Some q) σ (Xor p h σ).1.
Proof.
  unfold Xor, bind.
  pose proof (getHash_state p σ) as E1.
  destruct (getHash p σ) as [σ1 [a| | |]]; simpl in E1; subst σ1;
    try apply quiet_refl.
  pose proof (getHash_state h σ) as E2.
  destruct (getHash h σ) as [σ2 [b| | |]]; simpl in E2; subst σ2;
    try apply quiet_refl.
  case_decide; [|apply quiet_refl].
  destruct p as [pa|]; [|apply quiet_refl].
  split; [|done]. split; simpl; try done.
  intros q Hq. rewrite lookup_insert_ne; [done|congruence].
Qed.

Lemma elem_of_ownHashes σ l q :
  q ∈ ownHashes σ l ↔ ∃ y, NDir y ∈ l ∧ dhash σ y = Some q.
Proof.
  unfold ownHashes. rewrite list_elem_of_omap. split.
  - intros [[y|f] [Hin Hq]]; [by eauto|done].
  - intros [y [Hin Hq]]. by exists (NDir y).
Qed.

Lemma walkedBy_nil σ : walkedBy [] σ σ.
Proof. split; [by rewrite app_nil_r|apply frame_refl]. Qed.

Lemma frame_logged P Q σ l σ' : frame P Q (logged σ l) σ' → frame P Q σ σ'.
Proof. intros [F H C N S B Pa]. by split. Qed.

(** A logged visit of [x] followed by a walk over [l]. *)
Lemma walkedBy_cons σ σ2 σ3 x l :
  quiet (λ y, y = x) (λ q, dhash σ x = Some q) (logged σ [NDir x]) σ2 →
  walkedBy l σ2 σ3 →
  walkedBy (NDir x :: l) σ σ3.
Proof.
  intros [F1 V1] [V2 F2]. split.
  { rewrite V2, V1. simpl. by rewrite <- (assoc_L (++)). }
  apply frame_logged in F1.
  assert (Hdh : ∀ y, dhash σ2 y = dhash σ y).
  { intros y. by rewrite (frame_dhash _ _ _ _ y F1). }
  destruct F1 as [Fi1 H1 C1 N1 S1 B1 P1], F2 as [Fi2 H2 C2 N2 S2 B2 P2].
  split.
  - by rewrite Fi2.
  - intros y. by rewrite H2.
  - intros y. by rewrite C2.
  - intros y. by rewrite N2.
  - intros y Hy. rewrite S2, S1; [done| |].
    + intros ->. apply Hy. by left.
    + intros Hin. apply Hy. by right.
  - intros q Hq. rewrite B2, B1; [done| |].
    + intros Hx. apply Hq, elem_of_ownHashes. exists x. split; [by left|done].
    + intros (y & Hin & Hy)%elem_of_ownHashes. apply Hq, elem_of_ownHashes.
      exists y. split; [by right|]. by rewrite <- Hdh.
  - intros y Hy. by apply P2, P1.
Qed.

Lemma nodeInfo_reads σ nd nm sz h :
  nodeInfo σ nd = Some (nm, sz, h) →
  nodeName nd σ = (σ, Ok nm) ∧ nodeSize nd σ = (σ, Ok sz) ∧
  nodeHash nd σ = (σ, Ok h).
Proof.
  destruct nd as [e|f]; simpl; unfold bind, getDir, getFile.
  - destruct (dirs σ !! e); [|done]. by intros [= <- <- <-].
  - destruct (files σ !! f); [|done]. by intros [= <- <- <-].
Qed.

Lemma nodeInfo_frame P Q σ σ' nd :
  frame P Q σ σ' → (∀ e, nd = NDir e → ¬ P e) →
  nodeInfo σ' nd = nodeInfo σ nd.
Proof.
  intros F HP. destruct nd as [e|f]; simpl.
  - pose proof (frame_hash _ _ _ _ F e) as Hh.
    pose proof (frame_name _ _ _ _ F e) as Hn.
    pose proof (frame_size _ _ _ _ F e (HP e eq_refl)) as Hs.
    unfold dirSize in Hs.
    destruct (dirs σ' !! e), (dirs σ !! e); simpl in *; congruence.
  - by rewrite (frame_files _ _ _ _ F).
Qed.

(** The record of a directory after a piece of the walk. *)
Lemma frame_dir P Q σ σ' d dir :
  frame P Q σ σ' → dirs σ !! d = Some dir →
  ∃ dir', dirs σ' !! d = Some dir' ∧ hash dir' = hash dir ∧
          children dir' = children dir ∧ name dir' = name dir ∧
          (is_Some (parent dir) → is_Some (parent dir')).
Proof.
  intros F Hd.
  pose proof (frame_hash _ _ _ _ F d) as Hh.
  pose proof (frame_children _ _ _ _ F d) as Hc.
  pose proof (frame_name _ _ _ _ F d) as Hn.
  pose proof (frame_parent _ _ _ _ F d) as Hp.
  unfold dparent in Hp. rewrite Hd in *.
  destruct (dirs σ' !! d) as [dir'|]; simpl in *; [|done].
  exists dir'. repeat split; congruence || done.
Qed.

Lemma ownHashes_ext σ σ' l :
  (∀ y, dhash σ' y = dhash σ y) → ownHashes σ' l = ownHashes σ l.
Proof.
  intros H. unfold ownHashes. apply list_omap_ext.
  induction l as [|[y|f] l IH]; constructor; done.
Qed.

Lemma xorBytes_length (a b : digest) :
  length a = length b → length (xorBytes a b) = length a.
Proof.
  revert b. induction a as [|x a IH]; intros [|y b]; simpl; try done.
  intros [= H]. by rewrite IH.
Qed.

(** Combining with the same digest twice gives the digest back. *)
Lemma xorBytes_involutive (a b : digest) :
  length a = length b → xorBytes (xorBytes a b) b = a.
Proof.
  revert b. induction a as [|x a IH]; intros [|y b]; simpl; try done.
  intros [= H]. rewrite IH by done.
  by rewrite N.lxor_assoc, N.lxor_nilpotent, N.lxor_0_r.
Qed.

Lemma wrap64_add_sub (s z : Z) :
  0 ≤ s < 2 ^ 64 → wrap64 (wrap64 (s + z) - z) = s.
Proof.
  intros Hs. unfold wrap64. rewrite Zminus_mod_idemp_l.
  replace (s + z - z) with s by lia. by apply Z.mod_small.
Qed.

Lemma Xor_some σ hp hq (a b : digest) :
  hashes σ !! hp = Some a → hashes σ !! hq = Some b →
  Xor (Some hp) (Some hq) σ =
    if decide (length a = length b)
    then (mkHeap (<[hp := xorBytes a b]> (hashes σ)) (dirs σ) (files σ)
                 (visited σ), Ok tt)
    else (σ, Err ErrXorLength).
Proof.
  intros Ha Hb. unfold Xor, bind, getHash. simpl. rewrite Ha, Hb.
  by case_decide.
Qed.

Section Framing.

Variable index : digest → outcome Node.
Variable rangeMap : gmap string hashptr → list (string * hashptr).

Lemma NodeByHash_state p σ : (NodeByHash index p σ).1 = σ.
Proof.
  unfold NodeByHash, bind, lift. pose proof (getHash_state p σ) as E.
  by destruct (getHash p σ) as [σ1 [a| | |]]; simpl in *; subst.
Qed.

Lemma DirectoryByHash_state p σ : (DirectoryByHash index p σ).1 = σ.
Proof.
  unfold DirectoryByHash, bind. pose proof (NodeByHash_state p σ) as E.
  by destruct (NodeByHash index p σ) as [σ1 [[a|f]| | |]]; simpl in *; subst.
Qed.

Lemma SetParent_dir_quiet P Q σ c d :
  is_Some (dhash σ d) →
  quiet P Q σ (SetParent (NDir c) (Some (NDir d)) σ).1.
Proof.
  intros Hs. unfold SetParent, nodeHash, bind, getDir, ret.
  unfold dhash in Hs. destruct (dirs σ !! d) as [dir|] eqn:Hd;
    [|apply quiet_refl].
  simpl in Hs. by apply setParentField_quiet.
Qed.

Lemma visitLinks_quiet P Q d l σ :
  is_Some (dhash σ d) →
  quiet P Q σ
    (visitLinks index (λ child, SetParent (NDir child) (Some (NDir d))) l σ).1.
Proof.
  revert σ. induction l as [|[nm h] rest IH]; intros σ Hs; simpl;
    [apply quiet_refl|].
  apply bind_rel; [apply quiet_trans| |].
  { rewrite DirectoryByHash_state. apply quiet_refl. }
  intros c σ1 _ [F1 _]. apply bind_rel; [apply quiet_trans| |].
  { apply SetParent_dir_quiet. by rewrite (frame_dhash _ _ _ _ d F1). }
  intros _ σ2 _ [F2 _]. apply IH.
  by rewrite (frame_dhash _ _ _ _ d F2), (frame_dhash _ _ _ _ d F1).
Qed.

Lemma Xor_ok_some p h σ σ' u : Xor p h σ = (σ', Ok u) → is_Some p.
Proof.
  unfold Xor, bind, getHash. destruct p as [pa|]; [by eauto|done].
Qed.

Lemma xorHash_quiet P σ d h :
  quiet P (λ q, dhash σ d = Some q) σ (xorHash index rangeMap d h σ).1.
Proof.
  unfold xorHash. unfold bind at 1. unfold getDir, dhash.
  destruct (dirs σ !! d) as [dir|] eqn:Hd; [|apply quiet_refl]. simpl.
  apply bind_rel; [apply quiet_trans|apply Xor_quiet|].
  intros u σ1 Hx [F1 _]. apply Xor_ok_some in Hx.
  unfold VisitChildren, bind, getDir.
  destruct (dirs σ1 !! d) as [dir1|] eqn:Hd1; [|apply quiet_refl].
  destruct (children dir1); [|apply quiet_refl].
  apply visitLinks_quiet.
  rewrite (frame_dhash _ _ _ _ d F1). unfold dhash. by rewrite Hd.
Qed.

Lemma addVisit_sizeVisit sz h :
  addVisit index rangeMap sz h = sizeVisit index rangeMap (λ s, wrap64 (s + sz)) h.
Proof. reflexivity. Qed.

Lemma removeVisit_sizeVisit sz h :
  removeVisit index rangeMap sz h = sizeVisit index rangeMap (λ s, wrap64 (s - sz)) h.
Proof. reflexivity. Qed.

Lemma sizeVisit_quiet f h σ d :
  quiet (λ y, y = d) (λ q, dhash σ d = Some q) σ
        (sizeVisit index rangeMap f h d σ).1.
Proof.
  set (Q := λ q, dhash σ d = Some q).
  unfold sizeVisit. unfold bind at 1. unfold getDir.
  destruct (dirs σ !! d) as [dir|] eqn:Hd; [|apply quiet_refl].
  apply (bind_rel (quiet (λ y, y = d) Q));
    [apply quiet_trans|apply setSize_quiet|].
  intros u σ1 _ [F1 _].
  eapply quiet_weaken; [| |apply (xorHash_quiet (λ y, y = d))]; [done|].
  intros q. unfold Q. by rewrite (frame_dhash _ _ _ _ d F1).
Qed.

(** The size the visit leaves in the visited directory, however the
    digest update ends. *)
Lemma sizeVisit_size f h σ d dir :
  dirs σ !! d = Some dir →
  dirSize (sizeVisit index rangeMap f h d σ).1 d = Some (f (size dir)).
Proof.
  intros Hd. unfold sizeVisit. unfold bind at 1. unfold getDir. rewrite Hd.
  unfold bind at 1. unfold setSize, bind, getDir. rewrite Hd. simpl.
  destruct (xorHash_quiet (λ _, False) (putDir d
    (mkDirectory (name dir) (f (size dir)) (modTime dir) (parent dir)
       (hash dir) (children dir) (id dir)) σ).1 d h) as [F _].
  simpl in F. rewrite (frame_size _ _ _ _ F d); [|tauto].
  unfold dirSize. simpl. by rewrite lookup_insert_eq.
Qed.

(** The walk of [Up]: it logs the directories it visits, and changes the
    sizes and digests of those only. *)
Lemma Up_walked (visit : daddr → M unit) :
  (∀ y σ, quiet (λ z, z = y) (λ q, dhash σ y = Some q) σ (visit y σ).1) →
  ∀ fuel x σ, ∃ l, walkedBy l σ (Up index fuel x visit σ).1.
Proof.
  intros Hv fuel. induction fuel as [|fuel IH]; intros x σ; simpl.
  { exists []. apply walkedBy_nil. }
  unfold bind at 1. unfold getDir.
  destruct (dirs σ !! x) as [c|] eqn:Hx; [|exists []; apply walkedBy_nil].
  destruct (parent c) as [p|]; [|exists []; apply walkedBy_nil].
  unfold bind at 1. simpl. fold (logged σ [NDir x]).
  pose proof (Hv x (logged σ [NDir x])) as Hq.
  unfold bind at 1.
  destruct (visit x (logged σ [NDir x])) as [σ2 [u|e| |]]; simpl in Hq;
    try (exists [NDir x]; eapply walkedBy_cons; [exact Hq|apply walkedBy_nil]).
  unfold bind at 1. unfold getDir.
  destruct (dirs σ2 !! x) as [c'|];
    [|exists [NDir x]; eapply walkedBy_cons; [exact Hq|apply walkedBy_nil]].
  unfold bind at 1. pose proof (DirectoryByHash_state (parent c') σ2) as Es.
  destruct (DirectoryByHash index (parent c') σ2) as [σ2' [next|e| |]];
    simpl in Es; subst σ2';
    try (exists [NDir x]; eapply walkedBy_cons; [exact Hq|apply walkedBy_nil]).
  destruct (IH next σ2) as [l Hl]. exists (NDir x :: l).
  eapply walkedBy_cons; [exact Hq|exact Hl].
Qed.

Lemma VisitChildren_quiet P Q σ d :
  is_Some (dhash σ d) →
  quiet P Q σ
    (VisitChildren index rangeMap d
       (λ child, SetParent (NDir child) (Some (NDir d))) σ).1.
Proof.
  intros Hs. unfold VisitChildren, bind, getDir.
  destruct (dirs σ !! d) as [dir1|]; [|apply quiet_refl].
  destruct (children dir1); [|apply quiet_refl].
  by apply visitLinks_quiet.
Qed.

(** The bytes [xorHash] leaves in the hash object of the directory. *)
Lemma xorHash_bytes σ d dir hp hq (a b : digest) :
  dirs σ !! d = Some dir → hash dir = Some hp →
  hashes σ !! hp = Some a → hashes σ !! hq = Some b →
  hashes (xorHash index rangeMap d (Some hq) σ).1 !! hp
    = Some (if decide (length a = length b) then xorBytes a b else a).
Proof.
  intros Hd Hh Ha Hb. unfold xorHash. unfold bind at 1. unfold getDir.
  rewrite Hd, Hh. unfold bind at 1. rewrite (Xor_some _ _ _ _ _ Ha Hb).
  case_decide; simpl; [|done].
  match goal with |- hashes (VisitChildren _ _ _ _ ?s).1 !! _ = _ =>
    destruct (VisitChildren_quiet (λ _, False) (λ _, False) s d) as [F _]
  end.
  { unfold dhash. simpl. rewrite Hd. simpl. rewrite Hh. by eauto. }
  rewrite (frame_bytes _ _ _ _ F hp); [|tauto]. simpl.
  by rewrite lookup_insert_eq.
Qed.

Lemma sizeVisit_bytes f σ d dir hp hq (a b : digest) :
  dirs σ !! d = Some dir → hash dir = Some hp →
  hashes σ !! hp = Some a → hashes σ !! hq = Some b →
  hashes (sizeVisit index rangeMap f (Some hq) d σ).1 !! hp
    = Some (if decide (length a = length b) then xorBytes a b else a).
Proof.
  intros Hd Hh Ha Hb. unfold sizeVisit. unfold bind at 1. unfold getDir.
  rewrite Hd. unfold bind at 1. unfold setSize, bind, getDir. rewrite Hd.
  simpl. eapply xorHash_bytes; simpl;
    [apply lookup_insert_eq|exact Hh|exact Ha|exact Hb].
Qed.

Lemma Up_root fuel visit σ d dir :
  dirs σ !! d = Some dir → parent dir = None →
  Up index (S fuel) d visit σ = (σ, Ok tt).
Proof. intros Hd Hp. simpl. unfold bind, getDir. by rewrite Hd, Hp. Qed.

Lemma Up_first fuel (visit : daddr → M unit) σ d dir :
  (∀ y σ, quiet (λ z, z = y) (λ q, dhash σ y = Some q) σ (visit y σ).1) →
  dirs σ !! d = Some dir → is_Some (parent dir) →
  ∃ l, walkedBy l (visit d (logged σ [NDir d])).1
                  (Up index (S fuel) d visit σ).1.
Proof.
  intros Hv Hd [p Hp]. simpl. unfold bind at 1. unfold getDir.
  rewrite Hd, Hp. unfold bind at 1. simpl. fold (logged σ [NDir d]).
  unfold bind at 1.
  destruct (visit d (logged σ [NDir d])) as [σ2 [u|e| |]]; simpl;
    try (exists []; apply walkedBy_nil).
  unfold bind at 1. unfold getDir.
  destruct (dirs σ2 !! d) as [c'|]; [|exists []; apply walkedBy_nil].
  unfold bind at 1. pose proof (DirectoryByHash_state (parent c') σ2) as Es.
  destruct (DirectoryByHash index (parent c') σ2) as [σ2' [next|e| |]];
    simpl in Es; subst σ2'; try (exists []; apply walkedBy_nil).
  by apply Up_walked.
Qed.

(** What one mutation does to the directory it starts from, when that
    directory has a parent: the walk above it is [l]. *)
Lemma Up_sizeVisit_effect fuel f hq σ d dir hp (a b : digest) :
  dirs σ !! d = Some dir → is_Some (parent dir) → hash dir = Some hp →
  hashes σ !! hp = Some a → hashes σ !! hq = Some b →
  ∃ l, walkedBy (NDir d :: l) σ
         (Up index (S fuel) d (sizeVisit index rangeMap f (Some hq)) σ).1 ∧
    (NDir d ∉ l →
     dirSize (Up index (S fuel) d (sizeVisit index rangeMap f (Some hq)) σ).1 d
       = Some (f (size dir))) ∧
    (hp ∉ ownHashes σ l →
     hashes (Up index (S fuel) d (sizeVisit index rangeMap f (Some hq)) σ).1 !! hp
       = Some (if decide (length a = length b) then xorBytes a b else a)).
Proof.
  intros Hd Hp Hh Ha Hb.
  destruct (Up_first fuel (sizeVisit index rangeMap f (Some hq)) σ d dir)
    as [l Hl]; [intros; apply sizeVisit_quiet|done..|].
  pose proof (sizeVisit_quiet f (Some hq) (logged σ [NDir d]) d) as Hq.
  exists l. split; [|split].
  - eapply walkedBy_cons; [exact Hq|exact Hl].
  - intros Hn. destruct Hl as [_ F]. rewrite (frame_size _ _ _ _ F d Hn).
    by apply sizeVisit_size.
  - intros Hn. destruct Hl as [_ F], Hq as [Fq _].
    rewrite (frame_bytes _ _ _ _ F hp).
    + by eapply sizeVisit_bytes.
    + intros (y & Hin & Hy)%elem_of_ownHashes. apply Hn, elem_of_ownHashes.
      exists y. split; [done|].
      by rewrite (frame_dhash _ _ _ _ y Fq) in Hy.
Qed.

(** The size part of [Up_sizeVisit_effect], which needs no hash object. *)
Lemma Up_sizeVisit_size fuel f h σ d dir :
  dirs σ !! d = Some dir → is_Some (parent dir) →
  ∃ l, walkedBy (NDir d :: l) σ
         (Up index (S fuel) d (sizeVisit index rangeMap f h) σ).1 ∧
    (NDir d ∉ l →
     dirSize (Up index (S fuel) d (sizeVisit index rangeMap f h) σ).1 d
       = Some (f (size dir))).
Proof.
  intros Hd Hp.
  destruct (Up_first fuel (sizeVisit index rangeMap f h) σ d dir)
    as [l Hl]; [intros; apply sizeVisit_quiet|done..|].
  pose proof (sizeVisit_quiet f h (logged σ [NDir d]) d) as Hq.
  exists l. split.
  - eapply walkedBy_cons; [exact Hq|exact Hl].
  - intros Hn. destruct Hl as [_ F]. rewrite (frame_size _ _ _ _ F d Hn).
    by apply sizeVisit_size.
Qed.

Lemma setChildren_eq σ d dir m :
  dirs σ !! d = Some dir →
  setChildren d (Some m) σ = putDir d (withChildren dir m) σ.
Proof. intros Hd. unfold setChildren, bind, getDir. by rewrite Hd. Qed.

Lemma nodeInfo_putDir σ d dir dir' nd :
  dirs σ !! d = Some dir → name dir' = name dir → size dir' = size dir →
  hash dir' = hash dir →
  nodeInfo (putDir d dir' σ).1 nd = nodeInfo σ nd.
Proof.
  intros Hd Hn Hs Hh. destruct nd as [e|f]; simpl; [|done].
  destruct (decide (e = d)) as [->|Hne].
  - rewrite lookup_insert_eq, Hd. simpl. by rewrite Hn, Hs, Hh.
  - by rewrite lookup_insert_ne.
Qed.

(** [Add]: the map write, then the walk. *)
Lemma Add_unfold fuel σ d dir m nd nm sz h :
  dirs σ !! d = Some dir → children dir = Some m →
  nodeInfo σ nd = Some (nm, sz, h) →
  Add index rangeMap fuel d nd σ =
    Up index fuel d (addVisit index rangeMap sz h)
       (putDir d (withChildren dir (<[nm := h]> m)) σ).1.
Proof.
  intros Hd Hc Hi. destruct (nodeInfo_reads _ _ _ _ _ Hi) as (Hn & Hs & Hh).
  unfold Add. unfold bind at 1. rewrite Hn. unfold bind at 1. rewrite Hh.
  unfold bind at 1. unfold getDir. rewrite Hd, Hc.
  unfold bind at 1. rewrite (setChildren_eq _ _ _ _ Hd).
  assert (Hi' : nodeInfo (putDir d (withChildren dir (<[nm := h]> m)) σ).1 nd
                = Some (nm, sz, h)).
  { by rewrite (nodeInfo_putDir _ _ dir). }
  destruct (nodeInfo_reads _ _ _ _ _ Hi') as (_ & Hs' & Hh').
  simpl in *. unfold bind at 1. rewrite Hs'. unfold bind at 1. by rewrite Hh'.
Qed.

(** [n.SetParent(nil)] on a node other than the directory [d]. *)
Lemma SetParent_nil σ d dir nd nm sz h :
  dirs σ !! d = Some dir → nodeInfo σ nd = Some (nm, sz, h) → nd ≠ NDir d →
  ∃ σb, SetParent nd None σ = (σb, Ok tt) ∧ dirs σb !! d = Some dir ∧
        hashes σb = hashes σ ∧ visited σb = visited σ ∧
        (∀ y, dhash σb y = dhash σ y) ∧
        (∀ y, is_Some (dirs σ !! y) → is_Some (dirs σb !! y)) ∧
        nodeInfo σb nd = Some (nm, sz, h).
Proof.
  intros Hd Hi Hne. destruct nd as [e|f]; simpl in Hi.
  - destruct (dirs σ !! e) as [de|] eqn:He; [|done]. simpl in Hi.
    injection Hi as <- <- <-.
    unfold SetParent, bind, ret, setParentField, bind, getDir. rewrite He.
    simpl. eexists. split; [done|]. simpl.
    assert (e ≠ d) by congruence.
    repeat split.
    + by rewrite lookup_insert_ne.
    + intros y. unfold dhash. simpl. destruct (decide (y = e)) as [->|].
      * by rewrite lookup_insert_eq, He.
      * by rewrite lookup_insert_ne.
    + intros y Hy. destruct (decide (y = e)) as [->|].
      * rewrite lookup_insert_eq. by eauto.
      * by rewrite lookup_insert_ne.
    + by rewrite lookup_insert_eq.
  - destruct (files σ !! f) as [fl|] eqn:Hf; [|done]. simpl in Hi.
    injection Hi as <- <- <-.
    unfold SetParent, bind, ret, getFile. rewrite Hf.
    simpl. eexists. split; [done|]. simpl. repeat split; [done..|].
    by rewrite lookup_insert_eq.
Qed.

(** [RemoveChild] of a name that is there: the child is detached, the
    entry deleted, then the walk. *)
Lemma RemoveChild_unfold fuel σ d dir m x nd nm sz h :
  dirs σ !! d = Some dir → children dir = Some m → m !! nm = Some x →
  nodeInfo σ nd = Some (nm, sz, h) → nd ≠ NDir d →
  ∃ σc, RemoveChild index rangeMap fuel d nd σ =
          Up index fuel d (removeVisit index rangeMap sz h) σc ∧
        dirs σc !! d = Some (withChildren dir (delete nm m)) ∧
        hashes σc = hashes σ ∧ visited σc = visited σ ∧
        (∀ y, dhash σc y = dhash σ y) ∧
        (∀ y, is_Some (dirs σ !! y) → is_Some (dirs σc !! y)).
Proof.
  intros Hd Hc Hx Hi Hne.
  destruct (nodeInfo_reads _ _ _ _ _ Hi) as (Hn & _ & _).
  destruct (SetParent_nil _ _ _ _ _ _ _ Hd Hi Hne)
    as (σb & Hsp & Hdb & Hhb & Hvb & Hdhb & Hsb & Hib).
  exists (putDir d (withChildren dir (delete nm m)) σb).1.
  split; [|repeat split].
  - unfold RemoveChild. unfold bind at 1. rewrite Hn.
    unfold bind at 1. unfold getDir. rewrite Hd, Hc. simpl. rewrite Hx.
    unfold bind at 1. rewrite Hsp. unfold bind at 1. rewrite Hdb, Hc. simpl.
    unfold bind at 1. rewrite (setChildren_eq _ _ _ _ Hdb).
    assert (Hi' : nodeInfo (putDir d (withChildren dir (delete nm m)) σb).1 nd
                  = Some (nm, sz, h)).
    { by rewrite (nodeInfo_putDir _ _ dir). }
    destruct (nodeInfo_reads _ _ _ _ _ Hi') as (_ & Hs' & Hh').
    simpl in *. unfold bind at 1. rewrite Hs'. unfold bind at 1.
    by rewrite Hh'.
  - simpl. by rewrite lookup_insert_eq.
  - done.
  - done.
  - intros y. rewrite <- Hdhb. unfold dhash. simpl.
    destruct (decide (y = d)) as [->|].
    + by rewrite lookup_insert_eq, Hdb.
    + by rewrite lookup_insert_ne.
  - intros y Hy. simpl. destruct (decide (y = d)) as [->|].
    + rewrite lookup_insert_eq. by eauto.
    + rewrite lookup_insert_ne by done. by apply Hsb.
Qed.

Lemma NodeByHash_resolve h σ :
  NodeByHash index h σ = (σ, resolve index (hashes σ) h).
Proof.
  unfold NodeByHash, bind, getHash, lift, resolve.
  destruct h as [a|]; [|done]. by destruct (hashes σ !! a).
Qed.

Lemma SetParent_dir_ok σ c d :
  is_Some (dirs σ !! c) → is_Some (dirs σ !! d) →
  (SetParent (NDir c) (Some (NDir d)) σ).2 = Ok tt.
Proof.
  intros [dc Hc] [dd Hd].
  unfold SetParent, nodeHash, bind, ret, setParentField, bind, getDir.
  by rewrite Hd, Hc.
Qed.

(** The loop of [VisitChildren] stops with the type-mismatch error at the
    first link that resolves to a file. *)
Lemma visitLinks_mismatch d l σ :
  is_Some (dhash σ d) →
  (∀ n h, (n, h) ∈ l →
     (∃ f, resolve index (hashes σ) h = Ok (NFile f)) ∨
     (∃ c, resolve index (hashes σ) h = Ok (NDir c) ∧ is_Some (dirs σ !! c))) →
  (∃ n h f, (n, h) ∈ l ∧ resolve index (hashes σ) h = Ok (NFile f)) →
  (visitLinks index (λ child, SetParent (NDir child) (Some (NDir d))) l σ).2
    = Err ErrTypeMismatch.
Proof.
  revert σ. induction l as [|[n h] rest IH]; intros σ Hs Hall Hex.
  { destruct Hex as (? & ? & ? & Hin & _). by apply elem_of_nil in Hin. }
  simpl. unfold bind at 1. unfold DirectoryByHash, bind.
  rewrite NodeByHash_resolve.
  destruct (Hall n h) as [[f Hf]|[c [Hc Hic]]]; [by left|by rewrite Hf|].
  rewrite Hc. simpl.
  assert (Hid : is_Some (dirs σ !! d)).
  { unfold dhash in Hs. destruct (dirs σ !! d); [by eauto|by destruct Hs]. }
  pose proof (SetParent_dir_ok σ c d Hic Hid) as Hok.
  pose proof (SetParent_dir_quiet (λ _, False) (λ _, False) σ c d Hs) as [F _].
  destruct (SetParent (NDir c) (Some (NDir d)) σ) as [σ' r]. simpl in *.
  subst r.
  assert (Hhs : hashes σ' = hashes σ).
  { apply map_eq. intros q. apply (frame_bytes _ _ _ _ F). tauto. }
  apply IH.
  - by rewrite (frame_dhash _ _ _ _ d F).
  - intros n' h' Hin. rewrite Hhs.
    destruct (Hall n' h') as [?|[c' [Hc' Hic']]]; [by right|by left|].
    right. exists c'. split; [done|].
    pose proof (frame_hash _ _ _ _ F c') as Hh.
    destruct Hic' as [x Hx]. rewrite Hx in Hh.
    destruct (dirs σ' !! c'); [by eauto|done].
  - rewrite Hhs. destruct Hex as (n' & h' & f & Hin & Hf).
    apply elem_of_cons in Hin as [[= -> ->]|Hin]; [congruence|by eauto 10].
Qed.

Lemma resolve_insert_ne (hs : gmap haddr digest) hp x h :
  h ≠ Some hp → resolve index (<[hp := x]> hs) h = resolve index hs h.
Proof.
  intros Hne. unfold resolve. destruct h as [a|]; [|done].
  rewrite lookup_insert_ne; [done|congruence].
Qed.

Section Mismatch.

Hypothesis rangeMap_perm : ∀ m, rangeMap m ≡ₚ map_to_list m.

Lemma sizeVisit_mismatch f σ d dir m hp hq (a b : digest) :
  dirs σ !! d = Some dir → children dir = Some m → hash dir = Some hp →
  hashes σ !! hp = Some a → hashes σ !! hq = Some b →
  length a = length b →
  someChildIsFile index σ hp m →
  (sizeVisit index rangeMap f (Some hq) d σ).2 = Err ErrTypeMismatch.
Proof using rangeMap_perm.
  intros Hd Hc Hh Ha Hb Hlen [Hall Hex].
  unfold sizeVisit. unfold bind at 1. unfold getDir. rewrite Hd.
  unfold bind at 1. unfold setSize, bind, getDir. rewrite Hd. simpl.
  unfold xorHash. unfold bind at 1. unfold getDir. simpl.
  rewrite lookup_insert_eq. simpl. rewrite Hh. unfold bind at 1.
  erewrite Xor_some; [|exact Ha|exact Hb]. rewrite decide_True by done.
  simpl. unfold VisitChildren. unfold bind at 1. unfold getDir. simpl.
  rewrite lookup_insert_eq. simpl. rewrite Hc.
  apply visitLinks_mismatch; simpl.
  - unfold dhash. simpl. rewrite lookup_insert_eq. simpl. by eauto.
  - intros n h Hin. rewrite rangeMap_perm in Hin.
    apply elem_of_map_to_list in Hin.
    destruct (Hall n h Hin) as [Hne [[fl Hf]|[c [Hc' Hic]]]].
    + left. exists fl. by rewrite resolve_insert_ne.
    + right. exists c. split; [by rewrite resolve_insert_ne|].
      destruct (decide (c = d)) as [->|].
      * rewrite lookup_insert_eq. by eauto.
      * by rewrite lookup_insert_ne.
  - destruct Hex as (n & h & fl & Hin & Hf). exists n, h, fl.
    destruct (Hall n h Hin) as [Hne _]. split.
    + rewrite rangeMap_perm. by apply elem_of_map_to_list.
    + by rewrite resolve_insert_ne.
Qed.

(** The walk stops in the directory it starts from when one of the
    children of that directory is a file. *)
Lemma Up_mismatch fuel f σ d dir m hp hq (a b : digest) :
  dirs σ !! d = Some dir → is_Some (parent dir) → children dir = Some m →
  hash dir = Some hp →
  hashes σ !! hp = Some a → hashes σ !! hq = Some b →
  length a = length b →
  someChildIsFile index σ hp m →
  ∃ σ', Up index (S fuel) d (sizeVisit index rangeMap f (Some hq)) σ
          = (σ', Err ErrTypeMismatch) ∧
        dirSize σ' d = Some (f (size dir)) ∧
        dirDigest σ' d = Some (xorBytes a b) ∧
        visited σ' = visited σ ++ [NDir d].
Proof using rangeMap_perm.
  intros Hd [p Hp] Hc Hh Ha Hb Hlen Hk.
  pose proof (sizeVisit_mismatch f (logged σ [NDir d]) d dir m hp hq a b
                Hd Hc Hh Ha Hb Hlen Hk) as Hr.
  pose proof (sizeVisit_size f (Some hq) (logged σ [NDir d]) d dir Hd) as Hs.
  pose proof (sizeVisit_bytes f (logged σ [NDir d]) d dir hp hq a b
                Hd Hh Ha Hb) as Hbs.
  pose proof (sizeVisit_quiet f (Some hq) (logged σ [NDir d]) d) as [F V].
  rewrite decide_True in Hbs by done.
  simpl. unfold bind at 1. unfold getDir. rewrite Hd, Hp.
  unfold bind at 1. simpl. fold (logged σ [NDir d]). unfold bind at 1.
  destruct (sizeVisit index rangeMap f (Some hq) d (logged σ [NDir d]))
    as [σ' r]. simpl in *. subst r.
  exists σ'. repeat split; try done.
  unfold dirDigest.
  destruct (frame_dir _ _ _ _ _ _ F Hd) as (dir' & Hd' & Hh' & _).
  rewrite Hd'. simpl. rewrite Hh', Hh. simpl. done.
Qed.

End Mismatch.

End Framing.

Section Properties.

Variable index : digest → outcome Node.
Variable rangeMap : gmap string hashptr → list (string * hashptr).

(** ** [RemoveChild] of a name that is not there *)

(** C9. For every directory and every node whose name is not a key of the
    directory's children map (a nil map has no keys), [RemoveChild] returns
    the [NoSuchFile] error for that name and leaves the whole heap as it
    was: children map, size and digest of the directory included. *)
Theorem RemoveChild_absent (fuel : nat) (σ : Heap) (d : daddr)
    (dir : Directory) (nd : Node) (nm : string) :
  dirs σ !! d = Some dir →
  nodeName nd σ = (σ, Ok nm) →
  children dir ≫= (λ m, m !! nm) = None →
  RemoveChild index rangeMap fuel d nd σ = (σ, Err (NoSuchFile nm)).
Proof.
  intros Hd Hn Hc. unfold RemoveChild, bind. rewrite Hn.
  unfold getDir. rewrite Hd. by rewrite Hc.
Qed.

(** ** [Lookup] and [Child] *)

Section Lookup.

Variable pathClean : string → string.
Variable prefixSlash : string → string.
Variable fileChild : faddr → string → M (option Node).

(** C6. [Child] answers absent for every name, also for one that is a
    key of the children map, and so [Lookup] never gets past its first
    path element: whatever the path, it returns the directory it was
    called on (when the normalised path has no slash) or absent, never a
    node registered under the path. *)
Theorem Lookup_never_descends (σ : Heap) (d : daddr) (repoPath nm : string) :
  Child d nm σ = (σ, Ok None) ∧
  (Lookup pathClean prefixSlash fileChild d repoPath σ = (σ, Ok (Some (NDir d))) ∨
   Lookup pathClean prefixSlash fileChild d repoPath σ = (σ, Ok None)).
Proof.
  split; [done|]. unfold Lookup.
  destruct (splitSlash_cons (prefixSlash (pathClean repoPath))) as [x [xs ->]].
  case_decide; [by left|by right].
Qed.

End Lookup.

(** ** The first scenario *)

(** C1. Create the root directory D with [newEmptyDirectory] (no parent)
    and add the File "a.txt" of size 10 and digest [h1].  D is made with a
    nil children map, so [Add] panics on the map write and D keeps size 0.
    With the map made by hand [Add] returns without an error, and still D
    has size 0 and its initial digest, not size 10 and the combined
    digest: [Up] does not visit a directory whose [parent] is nil. *)
Theorem Add_to_new_root (fuel : nat) (initial h1 : digest) (nid : Z) :
  let r := newEmptyDirectory index rangeMap fuel (Ok initial) (Ok nid) None ""
             (scenarioHeap h1) in
  let D := 0%nat in
  let r' := Add index rangeMap (S fuel) D (NFile 0%nat) (makeChildren D r.1) in
  r.2 = Ok D ∧
  dirSize r.1 D = Some 0 ∧ dirDigest r.1 D = Some initial ∧
  dirChildren r.1 D = None ∧
  Add index rangeMap fuel D (NFile 0%nat) r.1 = (r.1, Panic) ∧
  r'.2 = Ok tt ∧
  dirSize r'.1 D = Some 0 ∧ dirDigest r'.1 D = Some initial ∧
  dirChildren r'.1 D = Some {[ "a.txt" := Some 1%nat ]}.
Proof.
  cbv zeta. repeat split; vm_compute; reflexivity.
Qed.

(** ** [Walk] *)

(** C7. [Walk] over a directory whose first enumerated child is a file
    visits that one child and returns from inside the loop: the other
    children are not walked, and with [dfs] set the directory itself is
    not visited either.  [logVisit] is the visit callback, so [visited]
    lists what was visited. *)
Theorem Walk_first_child_only (fuel : nat) (σ : Heap) (d : daddr)
    (dir : Directory) (m : gmap string hashptr) n1 a1 rest bs f :
  dirs σ !! d = Some dir →
  children dir = Some m →
  rangeMap m = (n1, Some a1) :: rest →
  hashes σ !! a1 = Some bs →
  index bs = Ok (NFile f) →
  Walk index rangeMap (S (S fuel)) (NDir d) false logVisit σ
    = (logged σ [NDir d; NFile f], Ok tt) ∧
  Walk index rangeMap (S (S fuel)) (NDir d) true logVisit σ
    = (logged σ [NFile f], Ok tt).
Proof.
  intros Hd Hc Hr Ha Hi.
  split; simpl; unfold bind, getDir, logVisit, NodeByHash, bind, getHash, lift;
    repeat (simpl; rewrite ?Hd, ?Hc, ?Hr, ?Ha, ?Hi); unfold logged;
    by rewrite <- ?(assoc_L (++)).
Qed.

(** ** A child that is not a directory *)

Lemma someChildIsFile_heap σ σ' hp m :
  hashes σ' = hashes σ →
  (∀ y, is_Some (dirs σ !! y) → is_Some (dirs σ' !! y)) →
  someChildIsFile index σ hp m → someChildIsFile index σ' hp m.
Proof.
  intros Hh Hs [Hall Hex]. split.
  - intros n h Hin. rewrite Hh.
    destruct (Hall n h Hin) as [Hne [?|[c [Hc Hic]]]]; [by eauto|].
    split; [done|]. right. exists c. by eauto.
  - by rewrite Hh.
Qed.

Lemma newVisits_app σ σ' l :
  visited σ' = visited σ ++ l → newVisits σ σ' = l.
Proof. intros H. unfold newVisits. by rewrite H, drop_app_length. Qed.

(** In [Add] and in [RemoveChild] the digest update of the directory
    [d] (which has a parent, so that the walk visits it) goes through all
    children of [d] with [DirectoryByHash].  When every child resolves to
    a node of the store and one of them to a file, the mutation returns
    the type-mismatch error of that lookup; by then the size and the
    digest of [d] are updated, and the walk has visited no ancestor. *)
Theorem mutation_child_not_directory (fuel : nat) (σ : Heap) (d : daddr)
    (dir : Directory) (m : gmap string hashptr) (nd : Node) (nm : string)
    (sz : Z) (hq hp : haddr) (a b : digest) :
  (∀ m', rangeMap m' ≡ₚ map_to_list m') →
  dirs σ !! d = Some dir → is_Some (parent dir) → children dir = Some m →
  hash dir = Some hp → hashes σ !! hp = Some a →
  nodeInfo σ nd = Some (nm, sz, Some hq) → hashes σ !! hq = Some b →
  length a = length b →
  (someChildIsFile index σ hp (<[nm := Some hq]> m) →
   ∃ σ', Add index rangeMap (S fuel) d nd σ = (σ', Err ErrTypeMismatch) ∧
         dirSize σ' d = Some (wrap64 (size dir + sz)) ∧
         dirDigest σ' d = Some (xorBytes a b) ∧
         newVisits σ σ' = [NDir d]) ∧
  (is_Some (m !! nm) → nd ≠ NDir d →
   someChildIsFile index σ hp (delete nm m) →
   ∃ σ', RemoveChild index rangeMap (S fuel) d nd σ
           = (σ', Err ErrTypeMismatch) ∧
         dirSize σ' d = Some (wrap64 (size dir - sz)) ∧
         dirDigest σ' d = Some (xorBytes a b) ∧
         newVisits σ σ' = [NDir d]).
Proof.
  intros Hperm Hd Hp Hc Hh Ha Hi Hb Hlen. split.
  - intros Hk. rewrite (Add_unfold _ _ _ _ _ _ _ _ _ _ _ Hd Hc Hi).
    rewrite addVisit_sizeVisit.
    edestruct (Up_mismatch index rangeMap Hperm fuel (λ s, wrap64 (s + sz))
                 (putDir d (withChildren dir (<[nm := Some hq]> m)) σ).1 d)
      as (σ' & Hr & Hs & Hdg & Hv);
      [simpl; apply lookup_insert_eq|exact Hp|reflexivity|exact Hh
      |exact Ha|exact Hb|exact Hlen| |].
    + eapply someChildIsFile_heap; [| |exact Hk]; [done|].
      intros y Hy. simpl. destruct (decide (y = d)) as [->|].
      * rewrite lookup_insert_eq. by eauto.
      * by rewrite lookup_insert_ne.
    + exists σ'. repeat split; try done. by apply newVisits_app.
  - intros [x Hx] Hne Hk.
    destruct (RemoveChild_unfold index rangeMap (S fuel) _ _ _ _ _ _ _ _ _
                Hd Hc Hx Hi Hne) as (σc & -> & Hdc & Hhc & Hvc & _ & Hsc).
    rewrite removeVisit_sizeVisit.
    edestruct (Up_mismatch index rangeMap Hperm fuel (λ s, wrap64 (s - sz))
                 σc d) as (σ' & Hr & Hs & Hdg & Hv);
      [exact Hdc|exact Hp|reflexivity|exact Hh
      |by rewrite Hhc|by rewrite Hhc|exact Hlen| |].
    + by eapply someChildIsFile_heap.
    + exists σ'. repeat split; try done. apply newVisits_app. by rewrite <- Hvc.
Qed.

(** ** The size of a directory that has a parent *)

(** What one mutation does to the size and the children map of a directory
    [d] that has a parent (so that the walk visits it) and that the walk
    above it does not come back to: [Add] writes the node under its name
    and leaves the size of [d] at the old size plus the size of the node,
    [RemoveChild] of a name that is there deletes the entry and leaves the
    old size minus the size of the node, both modulo 2^64 and whether or
    not the walk ends with an error. *)
Theorem mutation_size (fuel : nat) (σ : Heap) (d : daddr) (dir : Directory)
    (m : gmap string hashptr) (nd : Node) (nm : string) (sz : Z)
    (h : hashptr) :
  dirs σ !! d = Some dir → is_Some (parent dir) → children dir = Some m →
  nodeInfo σ nd = Some (nm, sz, h) →
  (NDir d ∉ tail (newVisits σ (Add index rangeMap (S fuel) d nd σ).1) →
   dirSize (Add index rangeMap (S fuel) d nd σ).1 d
     = Some (wrap64 (size dir + sz)) ∧
   dirChildren (Add index rangeMap (S fuel) d nd σ).1 d
     = Some (<[nm := h]> m)) ∧
  (is_Some (m !! nm) → nd ≠ NDir d →
   NDir d ∉ tail (newVisits σ (RemoveChild index rangeMap (S fuel) d nd σ).1) →
   dirSize (RemoveChild index rangeMap (S fuel) d nd σ).1 d
     = Some (wrap64 (size dir - sz)) ∧
   dirChildren (RemoveChild index rangeMap (S fuel) d nd σ).1 d
     = Some (delete nm m)).
Proof.
  intros Hd Hp Hc Hi. split.
  - rewrite (Add_unfold _ _ _ _ _ _ _ _ _ _ _ Hd Hc Hi), addVisit_sizeVisit.
    set (σa := (putDir d (withChildren dir (<[nm := h]> m)) σ).1).
    assert (Hda : dirs σa !! d = Some (withChildren dir (<[nm := h]> m))).
    { simpl. apply lookup_insert_eq. }
    destruct (Up_sizeVisit_size index rangeMap fuel (λ s, wrap64 (s + sz)) h
                σa d _ Hda Hp) as (l & [V F] & Hs).
    rewrite (newVisits_app σ _ (NDir d :: l)) by exact V.
    change (tail (NDir d :: l)) with l. intros Hn. split; [by apply Hs|].
    destruct (frame_dir _ _ _ _ _ _ F Hda) as (dir' & Hd' & _ & Hc' & _).
    unfold dirChildren. rewrite Hd'. simpl. by rewrite Hc'.
  - intros [x Hx] Hne.
    destruct (RemoveChild_unfold index rangeMap (S fuel) _ _ _ _ _ _ _ _ _
                Hd Hc Hx Hi Hne) as (σc & -> & Hdc & Hhc & Hvc & _ & _).
    rewrite removeVisit_sizeVisit.
    destruct (Up_sizeVisit_size index rangeMap fuel (λ s, wrap64 (s - sz)) h
                σc d _ Hdc Hp) as (l & [V F] & Hs).
    rewrite (newVisits_app σ _ (NDir d :: l)) by (by rewrite <- Hvc).
    change (tail (NDir d :: l)) with l. intros Hn. split; [by apply Hs|].
    destruct (frame_dir _ _ _ _ _ _ F Hdc) as (dir' & Hd' & _ & Hc' & _).
    unfold dirChildren. rewrite Hd'. simpl. by rewrite Hc'.
Qed.

(** ** Adding a node and removing it again *)

Lemma map_fold_ext {A B} (f g : string → A → B → B) (b : B)
    (m : gmap string A) :
  (∀ k x y, f k x y = g k x y) → map_fold f b m = map_fold g b m.
Proof.
  intros H. rewrite !map_fold_foldr.
  induction (map_to_list m) as [|[k x] l IH]; simpl; [done|].
  by rewrite IH, H.
Qed.

(** C3. The size of a directory is not kept equal to the sum of the sizes
    of its children.  [Add] to a directory whose [parent] is nil, of a node
    under a name that is not taken and whose hash the store resolves to the
    node, returns nil: the node is in the children map, the sum of the
    sizes of the children has grown by the size of the node, and the size
    of the directory is what it was.  So where the size was the sum before
    the call, it is not after it, for every node of a size other than 0. *)
Theorem Add_at_root_leaves_size (fuel : nat) (σ : Heap) (d : daddr)
    (dir : Directory) (m : gmap string hashptr) (nd : Node) (nm : string)
    (sz : Z) (h : hashptr) :
  dirs σ !! d = Some dir → parent dir = None → children dir = Some m →
  m !! nm = None →
  nodeInfo σ nd = Some (nm, sz, h) →
  resolve index (hashes σ) h = Ok nd →
  ∃ σ', Add index rangeMap (S fuel) d nd σ = (σ', Ok tt) ∧
        dirChildren σ' d = Some (<[nm := h]> m) ∧
        dirSize σ' d = dirSize σ d ∧
        childrenSize index σ' d = (λ s, sz + s) <$> childrenSize index σ d ∧
        (dirSize σ d = childrenSize index σ d → sz ≠ 0 →
         dirSize σ' d ≠ childrenSize index σ' d).
Proof.
  intros Hd Hp Hc Hnm Hi Hr.
  set (σ' := (putDir d (withChildren dir (<[nm := h]> m)) σ).1).
  assert (Hd' : dirs σ' !! d = Some (withChildren dir (<[nm := h]> m))).
  { simpl. apply lookup_insert_eq. }
  assert (Hcs : ∀ x, childSize index σ' x = childSize index σ x).
  { intros x. unfold childSize. simpl.
    destruct (resolve index (hashes σ) x) as [n| | |]; try done.
    unfold σ'. by rewrite (nodeInfo_putDir _ _ dir). }
  assert (Hch : childSize index σ h = sz).
  { unfold childSize. by rewrite Hr, Hi. }
  assert (Hs' : dirSize σ' d = dirSize σ d).
  { unfold dirSize. by rewrite Hd', Hd. }
  assert (Hsum : childrenSize index σ' d
                 = (λ s, sz + s) <$> childrenSize index σ d).
  { unfold childrenSize, dirChildren. rewrite Hd', Hd. simpl. rewrite Hc.
    simpl. f_equal.
    rewrite (map_fold_ext _ (λ _ x acc, childSize index σ x + acc))
      by (intros; by rewrite Hcs).
    rewrite map_fold_insert_L; [by rewrite Hch|intros; lia|done]. }
  exists σ'. split; [|split; [|split; [|split]]]; try done.
  - rewrite (Add_unfold _ _ _ _ _ _ _ _ _ _ _ Hd Hc Hi). fold σ'.
    by rewrite (Up_root index fuel _ σ' d _ Hd' Hp).
  - unfold dirChildren. by rewrite Hd'.
  - rewrite Hs', Hsum. unfold dirSize. rewrite Hd. simpl.
    intros <- Hz. simpl. intros [= E]. lia.
Qed.

(** [RemoveChild] right after [Add] of the same node leaves
    the size and the digest of the directory [d] as they were before the
    [Add], for a node other than [d] itself in a tree without a reference
    cycle: the walks above [d] do not come back to [d] or to its hash
    object, and the walk of the [Add] touches neither the node nor its
    hash object.  (A sequence that ends with no children does not bring
    the digest back in general: [Add] over an existing name folds nothing
    out.) *)
Theorem Add_RemoveChild_roundtrip (fuel fuel' : nat) (σ : Heap) (d : daddr)
    (dir : Directory) (m : gmap string hashptr) (nd : Node) (nm : string)
    (sz : Z) (hq hp : haddr) (a b : digest) :
  dirs σ !! d = Some dir → children dir = Some m → hash dir = Some hp →
  hashes σ !! hp = Some a → 0 ≤ size dir < 2 ^ 64 →
  nodeInfo σ nd = Some (nm, sz, Some hq) → hashes σ !! hq = Some b →
  nd ≠ NDir d →
  let σ1 := (Add index rangeMap (S fuel) d nd σ).1 in
  let σ2 := (RemoveChild index rangeMap (S fuel') d nd σ1).1 in
  untouched σ (tail (newVisits σ σ1)) (NDir d) hp →
  untouched σ (newVisits σ σ1) nd hq →
  untouched σ (tail (newVisits σ1 σ2)) (NDir d) hp →
  dirSize σ2 d = dirSize σ d ∧ dirDigest σ2 d = dirDigest σ d.
Proof.
  intros Hd Hc Hh Ha Hrange Hi Hb Hne σ1 σ2.
  assert (Hsz0 : dirSize σ d = Some (size dir)) by (unfold dirSize; by rewrite Hd).
  assert (Hdg0 : dirDigest σ d = Some a).
  { unfold dirDigest. rewrite Hd. simpl. rewrite Hh. simpl. done. }
  rewrite Hsz0, Hdg0.
  set (m1 := <[nm := Some hq]> m) in *.
  set (σa := (putDir d (withChildren dir m1) σ).1).
  assert (Hda : dirs σa !! d = Some (withChildren dir m1)).
  { simpl. apply lookup_insert_eq. }
  assert (Hia : nodeInfo σa nd = Some (nm, sz, Some hq)).
  { unfold σa. by rewrite (nodeInfo_putDir _ _ dir). }
  assert (Hdha : ∀ y, dhash σa y = dhash σ y).
  { intros y. unfold dhash. simpl. destruct (decide (y = d)) as [->|].
    - by rewrite lookup_insert_eq, Hd.
    - by rewrite lookup_insert_ne. }
  assert (E1 : σ1 = (Up index (S fuel) d
                       (sizeVisit index rangeMap (λ s, wrap64 (s + sz)) (Some hq))
                       σa).1).
  { unfold σ1. by rewrite (Add_unfold _ _ _ _ _ _ _ _ _ _ _ Hd Hc Hi). }
  destruct (parent dir) as [pp|] eqn:Hp.
  - (* [d] has a parent: both walks visit it *)
    destruct (Up_sizeVisit_effect index rangeMap fuel (λ s, wrap64 (s + sz))
                hq σa d _ hp a b Hda) as (l & [V1 F1] & S1 & B1);
      [simpl; rewrite Hp; by eauto|done|done|done|].
    rewrite <- E1 in V1, F1, S1, B1.
    rewrite (newVisits_app σ σ1 (NDir d :: l)) by exact V1.
    change (tail (NDir d :: l)) with l.
    intros [Hnd Hnh] [Hnn Hnq].
    rewrite <- (ownHashes_ext σ σa) in Hnh, Hnq by exact Hdha.
    specialize (S1 Hnd). specialize (B1 Hnh).
    destruct (frame_dir _ _ _ _ _ _ F1 Hda) as (dir1 & Hd1 & Hh1 & Hc1 & _ & Hp1).
    assert (Hs1 : size dir1 = wrap64 (size dir + sz)).
    { unfold dirSize in S1. rewrite Hd1 in S1. simpl in S1. congruence. }
    assert (Hi1 : nodeInfo σ1 nd = Some (nm, sz, Some hq)).
    { rewrite <- Hia. apply (nodeInfo_frame _ _ _ _ _ F1).
      intros e -> He. by apply Hnn. }
    assert (Hb1 : hashes σ1 !! hq = Some b).
    { by rewrite (frame_bytes _ _ _ _ F1 hq Hnq). }
    assert (Hx1 : m1 !! nm = Some (Some hq)) by apply lookup_insert_eq.
    simpl in Hc1, Hh1, Hp1.
    destruct (RemoveChild_unfold index rangeMap (S fuel') σ1 d dir1 m1 _ nd nm
                sz (Some hq) Hd1 Hc1 Hx1 Hi1 Hne)
      as (σc & E2 & Hdc & Hhc & Hvc & Hdhc & _).
    unfold σ2. rewrite E2, removeVisit_sizeVisit.
    destruct (Up_sizeVisit_effect index rangeMap fuel' (λ s, wrap64 (s - sz))
                hq σc d _ hp
                (if decide (length a = length b) then xorBytes a b else a) b
                Hdc) as (l' & [V2 F2] & S2 & B2);
      [simpl; apply Hp1; rewrite Hp; by eauto|simpl; congruence
      |by rewrite Hhc|by rewrite Hhc|].
    set (σe := (Up index (S fuel') d
                  (sizeVisit index rangeMap (λ s, wrap64 (s - sz)) (Some hq))
                  σc).1) in *.
    rewrite (newVisits_app σ1 _ (NDir d :: l')) by (by rewrite <- Hvc).
    change (tail (NDir d :: l')) with l'. intros [Hnd' Hnh'].
    assert (Hdhc' : ∀ y, dhash σc y = dhash σ y).
    { intros y. by rewrite Hdhc, (frame_dhash _ _ _ _ y F1). }
    rewrite <- (ownHashes_ext σ σc) in Hnh' by exact Hdhc'.
    specialize (S2 Hnd'). specialize (B2 Hnh').
    split.
    + rewrite S2. simpl. rewrite Hs1. by rewrite wrap64_add_sub.
    + destruct (frame_dir _ _ _ _ _ _ F2 Hdc) as (dir2 & Hd2 & Hh2 & _).
      unfold dirDigest. rewrite Hd2. simpl. rewrite Hh2. simpl.
      rewrite Hh1, Hh. simpl. rewrite B2. f_equal.
      destruct (decide (length a = length b)) as [Hl|Hl].
      * rewrite decide_True by (by rewrite xorBytes_length).
        by apply xorBytes_involutive.
      * by rewrite decide_False.
  - (* [d] is a root: neither walk visits anything *)
    assert (E1' : σ1 = σa).
    { rewrite E1. by rewrite (Up_root _ _ _ _ _ _ Hda). }
    rewrite E1'. intros _ _.
    assert (Hx1 : m1 !! nm = Some (Some hq)) by apply lookup_insert_eq.
    destruct (RemoveChild_unfold index rangeMap (S fuel') σa d _ m1 _ nd nm
                sz (Some hq) Hda eq_refl Hx1 Hia Hne)
      as (σc & E2 & Hdc & Hhc & Hvc & Hdhc & _).
    unfold σ2. rewrite E1', E2. rewrite (Up_root _ _ _ _ _ _ Hdc) by done.
    intros _. simpl. split.
    + unfold dirSize. by rewrite Hdc.
    + unfold dirDigest. rewrite Hdc. simpl. rewrite Hh. simpl.
      by rewrite Hhc.
Qed.

(** ** The wire codec *)

Section Codec.

Variable MarshalBinary : Time → outcome (list N).
Variable UnmarshalBinary : list N → outcome Time.

(** The state in which the loop over the names starts: two new hash
    objects and every field of [d] overwritten. *)
Lemma FromProto_loop (σ : Heap) (d : daddr) (dir : Directory)
    (pnd : wire.Node) (t : Time) :
  dirs σ !! d = Some dir →
  UnmarshalBinary (wire.ModTime pnd) = Ok t →
  ∃ σ' pa ha,
        dirs σ' !! d = Some (mkDirectory (wire.Name pnd) (wire.NodeSize pnd) t
                               (Some pa) (Some ha) (Some ∅) (wire.ID pnd)) ∧
        FromProto UnmarshalBinary d pnd σ =
          fromNames d (wire.GetLinks (wire.Directory' pnd)) 0
                    (wire.GetNames (wire.Directory' pnd)) σ'.
Proof.
  intros Hd Ht. unfold FromProto, bind, lift. rewrite Ht.
  unfold getDir. rewrite Hd. simpl. eexists _, _, _. split; [|reflexivity].
  simpl. by rewrite lookup_insert_eq.
Qed.

Lemma fromNames_in_range (σ : Heap) (d : daddr) (dir : Directory)
    (l : digest) (ls : list digest) (n : string) (ns : list string) :
  dirs σ !! d = Some dir →
  fromNames d (l :: ls) 0 (n :: ns) σ = (σ, Err (MalformedInput (name dir))).
Proof.
  intros Hd. simpl. unfold bind, getDir. by rewrite Hd.
Qed.

Lemma FromProto_in_range (σ : Heap) (d : daddr) (dir : Directory)
    (pnd : wire.Node) (t : Time) l ls n ns :
  dirs σ !! d = Some dir →
  UnmarshalBinary (wire.ModTime pnd) = Ok t →
  wire.GetLinks (wire.Directory' pnd) = l :: ls →
  wire.GetNames (wire.Directory' pnd) = n :: ns →
  (FromProto UnmarshalBinary d pnd σ).2 = Err (MalformedInput (wire.Name pnd)).
Proof.
  intros Hd Ht Hl Hn.
  destruct (FromProto_loop σ d dir pnd t Hd Ht) as (σ' & pa & ha & Hd' & ->).
  rewrite Hl, Hn. by rewrite (fromNames_in_range _ _ _ _ _ _ _ Hd').
Qed.

(** C4. What [FromProto] does with the two sequences (the mod-time being
    decodable): with no names it succeeds whatever the links are, also
    when their number differs; with at least one name and at least one
    link it returns the malformed-input error, also when the two
    sequences have the same length; with names and no link it panics on
    [links[0]].  The bounds check is the wrong way round. *)
Theorem FromProto_length_check (σ : Heap) (d : daddr) (dir : Directory)
    (pnd : wire.Node) (t : Time) :
  dirs σ !! d = Some dir →
  UnmarshalBinary (wire.ModTime pnd) = Ok t →
  let links := wire.GetLinks (wire.Directory' pnd) in
  let names := wire.GetNames (wire.Directory' pnd) in
  let r := (FromProto UnmarshalBinary d pnd σ).2 in
  (names = [] → r = Ok tt) ∧
  (names ≠ [] → links ≠ [] → r = Err (MalformedInput (wire.Name pnd))) ∧
  (names ≠ [] → links = [] → r = Panic).
Proof.
  intros Hd Ht links names r. subst r. repeat split.
  - intros Hn. destruct (FromProto_loop σ d dir pnd t Hd Ht) as (σ' & pa & ha & _ & ->).
    fold names. by rewrite Hn.
  - intros Hn Hl. destruct names as [|n ns] eqn:En; [done|].
    destruct links as [|l ls] eqn:El; [done|].
    by eapply FromProto_in_range.
  - intros Hn Hl. destruct (FromProto_loop σ d dir pnd t Hd Ht) as (σ' & pa & ha & _ & ->).
    fold names links. rewrite Hl. by destruct names.
Qed.

Lemma collectLinks_cons (σ σ' : Heap) nm link rest r :
  collectLinks ((nm, link) :: rest) σ = (σ', Ok r) →
  ∃ bs ls ns, r = (bs :: ls, nm :: ns).
Proof.
  simpl. unfold bind.
  destruct (getHash link σ) as [σ1 [bs| | |]]; try done.
  destruct (collectLinks rest σ1) as [σ2 [[ls ns]| | |]]; try done.
  intros [= _ <-]. by eauto.
Qed.

Lemma ToProto_children (σ σ' : Heap) (d : daddr) (dir : Directory) m e es
    (msg : wire.Node) :
  dirs σ !! d = Some dir →
  children dir = Some m →
  rangeMap m = e :: es →
  ToProto rangeMap MarshalBinary d σ = (σ', Ok msg) →
  (∃ l ls n ns, wire.GetLinks (wire.Directory' msg) = l :: ls ∧
                wire.GetNames (wire.Directory' msg) = n :: ns) ∧
  wire.Name msg = name dir ∧
  MarshalBinary (modTime dir) = Ok (wire.ModTime msg).
Proof.
  intros Hd Hc Hr. unfold ToProto, bind, getDir, lift. rewrite Hd, Hc. simpl.
  rewrite Hr. destruct e as [nm link].
  destruct (MarshalBinary (modTime dir)) as [bin| | |] eqn:Hm; try done.
  destruct (collectLinks ((nm, link) :: es) σ) as [σ1 [r| | |]] eqn:Hcl; try done.
  destruct (getHash (hash dir) σ1) as [σ2 [h| | |]]; try done.
  destruct (getHash (parent dir) σ2) as [σ3 [pb| | |]]; try done.
  intros [= _ <-]. simpl.
  destruct (collectLinks_cons _ _ _ _ _ _ Hcl) as (bs & ls & ns & ->).
  simpl. by eauto 10.
Qed.

(** C5. Encoding a directory that has at least one child and decoding the
    message again does not give the directory back: [FromProto] returns
    the malformed-input error at the first name, for every enumeration
    order of the children and every time codec that round-trips. *)
Theorem FromProto_ToProto_children (σ σ' σ2 : Heap) (d d2 : daddr)
    (dir dir2 : Directory) (m : gmap string hashptr) (msg : wire.Node) :
  (∀ m', rangeMap m' ≡ₚ map_to_list m') →
  (∀ t bs, MarshalBinary t = Ok bs → UnmarshalBinary bs = Ok t) →
  dirs σ !! d = Some dir →
  children dir = Some m →
  m ≠ ∅ →
  ToProto rangeMap MarshalBinary d σ = (σ', Ok msg) →
  dirs σ2 !! d2 = Some dir2 →
  (FromProto UnmarshalBinary d2 msg σ2).2 = Err (MalformedInput (name dir)).
Proof.
  intros Hperm Hrt Hd Hc Hne Hto Hd2.
  destruct (rangeMap m) as [|e es] eqn:Hr.
  { specialize (Hperm m). rewrite Hr in Hperm.
    symmetry in Hperm. apply Permutation_nil_r in Hperm.
    by apply map_to_list_empty_iff in Hperm. }
  destruct (ToProto_children _ _ _ _ _ _ _ _ Hd Hc Hr Hto)
    as [(l & ls & n & ns & Hl & Hn) [Hname Hm]].
  rewrite <- Hname. eapply FromProto_in_range; eauto.
Qed.

End Codec.

End Properties.

(** * Runs on the concrete trees *)

(** C2. In the three-level tree root, dirA, fileB one [Add] of fileB to dirA
    updates dirA and then fails with the type-mismatch error, because the
    digest update resolves the new child as a directory; the root keeps its
    size and digest.  Adding a directory instead, [Add] returns without an
    error and dirA is updated, but the root still is not: [Up] stops at a
    directory whose [parent] is nil before visiting it. *)
Theorem Add_three_levels (fuel : nat) :
  let r := Add treeIndex map_to_list (S fuel) 1%nat (NFile 0%nat) treeHeap in
  let r' := Add treeIndex map_to_list (S (S fuel)) 1%nat (NDir 2%nat) treeHeap in
  r.2 = Err ErrTypeMismatch ∧
  dirSize r.1 1%nat = Some 5 ∧ dirDigest r.1 1%nat = Some [2%N; 4%N] ∧
  dirSize r.1 0%nat = Some 0 ∧ dirDigest r.1 0%nat = Some [1%N; 0%N] ∧
  r'.2 = Ok tt ∧
  dirSize r'.1 1%nat = Some 7 ∧ dirDigest r'.1 1%nat = Some [2%N; 8%N] ∧
  dirSize r'.1 0%nat = Some 0 ∧ dirDigest r'.1 0%nat = Some [1%N; 0%N].
Proof. cbv zeta. repeat split; vm_compute; reflexivity. Qed.

(** Two directories of the same name added one after the other: both calls
    return without an error, the second entry replaces the first, and the
    size of dirA is 16 while its one child has size 9. *)
Lemma overwrite_breaks_size :
  let r1 := Add treeIndex map_to_list 3 1%nat (NDir 2%nat) treeHeap in
  let r2 := Add treeIndex map_to_list 3 1%nat (NDir 3%nat) r1.1 in
  r1.2 = Ok tt ∧ r2.2 = Ok tt ∧
  dirChildren r2.1 1%nat = Some {[ "sub" := Some 5%nat ]} ∧
  dirSize r2.1 1%nat = Some 16 ∧
  childrenSize treeIndex r2.1 1%nat = Some 9 ∧
  dirSize r2.1 1%nat ≠ childrenSize treeIndex r2.1 1%nat.
Proof. cbv zeta. repeat split; vm_compute; congruence. Qed.

(** One level further down: [Add] of a directory of size 7 to dirA, under a
    name that is not taken, returns nil; dirA then has size 7 and the root,
    whose only child is dirA, still has size 0. *)
Lemma stale_root_size :
  let r := Add treeIndex map_to_list 3 1%nat (NDir 2%nat) treeHeap in
  r.2 = Ok tt ∧
  dirChildren r.1 0%nat = Some {[ "dirA" := Some 2%nat ]} ∧
  dhash r.1 1%nat = Some 2%nat ∧
  dirSize r.1 1%nat = Some 7 ∧ dirSize r.1 0%nat = Some 0.
Proof. cbv zeta. repeat split; vm_compute; reflexivity. Qed.

(** The same two calls and then [RemoveChild] of the second directory: the
    children map is empty again, as before the three calls, and the digest
    of dirA is not what it was. *)
Lemma overwrite_breaks_digest :
  let r1 := Add treeIndex map_to_list 3 1%nat (NDir 2%nat) treeHeap in
  let r2 := Add treeIndex map_to_list 3 1%nat (NDir 3%nat) r1.1 in
  let r3 := RemoveChild treeIndex map_to_list 3 1%nat (NDir 3%nat) r2.1 in
  r1.2 = Ok tt ∧ r2.2 = Ok tt ∧ r3.2 = Ok tt ∧
  dirChildren treeHeap 1%nat = Some ∅ ∧ dirChildren r3.1 1%nat = Some ∅ ∧
  dirDigest treeHeap 1%nat = Some [2%N; 0%N] ∧
  dirDigest r3.1 1%nat = Some [2%N; 8%N] ∧
  dirDigest r3.1 1%nat ≠ dirDigest treeHeap 1%nat.
Proof. cbv zeta. repeat split; vm_compute; congruence. Qed.

(** ** The theorems at concrete inputs *)

Lemma RemoveChild_absent_witness :
  RemoveChild treeIndex map_to_list 3 1%nat (NFile 0%nat) treeHeap
    = (treeHeap, Err (NoSuchFile "fileB")).
Proof.
  eapply (RemoveChild_absent treeIndex map_to_list 3 treeHeap 1%nat);
    vm_compute; reflexivity.
Defined.

Lemma Walk_first_child_only_witness :
  Walk walkIndex map_to_list 2 (NDir 0%nat) false logVisit walkHeap
    = (logged walkHeap [NDir 0%nat; NFile 0%nat], Ok tt) ∧
  Walk walkIndex map_to_list 2 (NDir 0%nat) true logVisit walkHeap
    = (logged walkHeap [NFile 0%nat], Ok tt).
Proof.
  eapply (Walk_first_child_only walkIndex map_to_list 0 walkHeap 0%nat);
    vm_compute; reflexivity.
Defined.

Lemma FromProto_length_check_witness :
  (FromProto unmarshalTime 1%nat (message [] [[0%N; 4%N]]) treeHeap).2 = Ok tt ∧
  (FromProto unmarshalTime 1%nat (message ["x"] [[0%N; 4%N]]) treeHeap).2
    = Err (MalformedInput "n") ∧
  (FromProto unmarshalTime 1%nat (message ["x"] []) treeHeap).2 = Panic.
Proof.
  split; [|split].
  - eapply (FromProto_length_check unmarshalTime treeHeap 1%nat _
              (message [] [[0%N; 4%N]])); vm_compute; reflexivity.
  - eapply (FromProto_length_check unmarshalTime treeHeap 1%nat _
              (message ["x"] [[0%N; 4%N]])); vm_compute; (reflexivity || congruence).
  - eapply (FromProto_length_check unmarshalTime treeHeap 1%nat _
              (message ["x"] [])); vm_compute; (reflexivity || congruence).
Defined.

Lemma FromProto_ToProto_children_witness :
  ∃ msg, ToProto map_to_list marshalTime 1%nat
           (treeWith {[ "fileB" := Some 3%nat ]} 5)
         = (treeWith {[ "fileB" := Some 3%nat ]} 5, Ok msg) ∧
         (FromProto unmarshalTime 2%nat msg treeHeap).2
         = Err (MalformedInput "dirA").
Proof.
  eexists. split; [vm_compute; reflexivity|].
  eapply (FromProto_ToProto_children map_to_list marshalTime unmarshalTime
            (treeWith {[ "fileB" := Some 3%nat ]} 5) _ treeHeap 1%nat 2%nat
            (mkDirectory "dirA" 5 0 (Some 1%nat) (Some 2%nat)
               (Some {[ "fileB" := Some 3%nat ]}) 2)
            _ {[ "fileB" := Some 3%nat ]}).
  - intros m'. reflexivity.
  - intros t bs. unfold marshalTime, unmarshalTime.
    case_decide; [|done]. intros [= <-]. by rewrite Z2N.id.
  - vm_compute; reflexivity.
  - vm_compute; reflexivity.
  - intros H. apply (f_equal (λ m : gmap string hashptr, m !! "fileB")) in H.
    vm_compute in H. discriminate H.
  - vm_compute; reflexivity.
  - vm_compute; reflexivity.
Defined.

Lemma Add_at_root_leaves_size_witness :
  ∃ σ', Add treeIndex map_to_list 1 0%nat (NDir 2%nat) treeHeap = (σ', Ok tt) ∧
        dirSize treeHeap 0%nat = childrenSize treeIndex treeHeap 0%nat ∧
        dirSize σ' 0%nat = Some 0 ∧
        childrenSize treeIndex σ' 0%nat = Some 7.
Proof.
  destruct (Add_at_root_leaves_size treeIndex map_to_list 0 treeHeap 0%nat
              (mkDirectory "" 0 0 None (Some 1%nat)
                 (Some {[ "dirA" := Some 2%nat ]}) 1)
              {[ "dirA" := Some 2%nat ]} (NDir 2%nat) "sub" 7 (Some 4%nat))
    as (σ' & H1 & _ & H3 & H4 & _);
    [vm_compute; reflexivity|reflexivity|reflexivity|vm_compute; reflexivity
    |vm_compute; reflexivity|vm_compute; reflexivity|].
  exists σ'. split; [exact H1|]. split; [vm_compute; reflexivity|].
  split.
  - etransitivity; [exact H3|]. vm_compute. reflexivity.
  - etransitivity; [exact H4|]. vm_compute. reflexivity.
Defined.

Lemma mutation_size_witness :
  dirSize (Add treeIndex map_to_list 3 1%nat (NDir 2%nat) treeHeap).1 1%nat
    = Some 7 ∧
  dirSize (RemoveChild treeIndex map_to_list 3 1%nat (NDir 2%nat)
             (treeWith {[ "sub" := Some 4%nat ]} 7)).1 1%nat
    = Some 0.
Proof.
  split.
  - destruct (mutation_size treeIndex map_to_list 2 treeHeap 1%nat
                (mkDirectory "dirA" 0 0 (Some 1%nat) (Some 2%nat) (Some ∅) 2)
                ∅ (NDir 2%nat) "sub" 7 (Some 4%nat)) as [A _];
      [vm_compute; reflexivity|vm_compute; by eauto|vm_compute; reflexivity
      |vm_compute; reflexivity|].
    destruct A as [A _]; [intros H; vm_compute in H; inversion H|exact A].
  - destruct (mutation_size treeIndex map_to_list 2
                (treeWith {[ "sub" := Some 4%nat ]} 7) 1%nat
                (mkDirectory "dirA" 7 0 (Some 1%nat) (Some 2%nat)
                   (Some {[ "sub" := Some 4%nat ]}) 2)
                {[ "sub" := Some 4%nat ]} (NDir 2%nat) "sub" 7 (Some 4%nat))
      as [_ R];
      [vm_compute; reflexivity|vm_compute; by eauto|vm_compute; reflexivity
      |vm_compute; reflexivity|].
    destruct R as [R _];
      [vm_compute; by eauto|done|intros H; vm_compute in H; inversion H
      |exact R].
Defined.

Lemma mutation_child_not_directory_witness :
  ∃ σ', Add treeIndex map_to_list 3 1%nat (NFile 0%nat) treeHeap
          = (σ', Err ErrTypeMismatch) ∧
        dirSize σ' 1%nat = Some 5 ∧
        dirDigest σ' 1%nat = Some [2%N; 4%N] ∧
        newVisits treeHeap σ' = [NDir 1%nat].
Proof.
  destruct (mutation_child_not_directory treeIndex map_to_list 2 treeHeap
              1%nat
              (mkDirectory "dirA" 0 0 (Some 1%nat) (Some 2%nat) (Some ∅) 2)
              ∅ (NFile 0%nat) "fileB" 5 3%nat 2%nat [2%N; 0%N] [0%N; 4%N])
    as [A _];
    [reflexivity|vm_compute; reflexivity|vm_compute; by eauto
    |vm_compute; reflexivity|vm_compute; reflexivity|vm_compute; reflexivity
    |vm_compute; reflexivity|vm_compute; reflexivity|reflexivity|].
  apply A. split.
  - intros n h [[<- <-]|[_ H]]%lookup_insert_Some;
      [|by rewrite lookup_empty in H].
    split; [discriminate|]. left. exists 0%nat. vm_compute. reflexivity.
  - exists "fileB", (Some 3%nat), 0%nat. split; vm_compute; reflexivity.
Defined.

Lemma Add_RemoveChild_roundtrip_witness :
  let σ1 := (Add treeIndex map_to_list 3 1%nat (NDir 2%nat) treeHeap).1 in
  let σ2 := (RemoveChild treeIndex map_to_list 3 1%nat (NDir 2%nat) σ1).1 in
  dirSize σ1 1%nat = Some 7 ∧
  dirSize σ2 1%nat = dirSize treeHeap 1%nat ∧
  dirDigest σ2 1%nat = dirDigest treeHeap 1%nat.
Proof.
  cbv zeta. split; [vm_compute; reflexivity|].
  apply (Add_RemoveChild_roundtrip treeIndex map_to_list 2 2 treeHeap 1%nat
           (mkDirectory "dirA" 0 0 (Some 1%nat) (Some 2%nat) (Some ∅) 2)
           ∅ (NDir 2%nat) "sub" 7 4%nat 2%nat [2%N; 0%N] [0%N; 8%N]);
    [vm_compute; reflexivity|vm_compute; reflexivity|vm_compute; reflexivity
    |vm_compute; reflexivity|simpl; lia|vm_compute; reflexivity
    |vm_compute; reflexivity|discriminate|..];
    (split; apply (bool_decide_unpack _); vm_compute; exact I).
Defined.

(** * Further properties of the directory code *)

Section Movement.

Variable index : digest → outcome Node.
Variable rangeMap : gmap string hashptr → list (string * hashptr).

Lemma ancestors_ext σ σ' d l top :
  dirs σ' = dirs σ → hashes σ' = hashes σ →
  ancestors index σ d l top → ancestors index σ' d l top.
Proof.
  intros Hd Hh. revert d. induction l as [|x l IH]; intros d; simpl.
  - by rewrite Hd.
  - intros [-> (dir & next & H1 & H2 & H3 & H4)]. split; [done|].
    exists dir, next. rewrite Hd, Hh. eauto.
Qed.

(** X1. [Up] applies the visit callback to [d] and then to every directory
    above it in turn, and stops without applying it to the topmost one,
    whose [parent] is nil: for a callback that writes to no directory and
    to no hash object, and with more rounds than there are directories
    below the top, the whole of [Up] is the callback applied to the
    directories below the top, from [d] upwards, ended by the first
    application that returns an error. *)
Theorem Up_visits_below_top (fuel : nat) (visit : daddr → M unit)
    (σ : Heap) (d top : daddr) (l : list daddr) :
  leavesTree visit →
  ancestors index σ d l top →
  (length l < fuel)%nat →
  Up index fuel d visit σ = visitAll visit l σ.
Proof.
  intros Hv. revert fuel σ d.
  induction l as [|x l IH]; intros fuel σ d Hl Hf.
  - destruct Hl as [-> (dir & Hd & Hp)].
    destruct fuel as [|fuel]; [simpl in Hf; lia|].
    by rewrite (Up_root index fuel visit σ top dir Hd Hp).
  - destruct Hl as [-> (dir & next & Hd & Hp & Hr & Hl)].
    destruct fuel as [|fuel]; [simpl in Hf; lia|].
    destruct Hp as [pp Hp].
    destruct (Hv d (logged σ [NDir d])) as (Hvd & Hvh).
    change (visitAll visit (d :: l) σ)
      with (bind (logVisit (NDir d))
              (λ _, bind (visit d) (λ _, visitAll visit l)) σ).
    simpl. unfold bind at 1. unfold getDir at 1. rewrite Hd, Hp.
    unfold bind at 1. unfold bind at 4. unfold logVisit.
    fold (logged σ [NDir d]). unfold bind at 1. unfold bind at 3.
    destruct (visit d (logged σ [NDir d])) as [σ1 [[]| | |]] eqn:Hvis;
      try done.
    simpl in Hvd, Hvh.
    unfold bind at 1. unfold getDir at 1. rewrite Hvd. simpl. rewrite Hd.
    unfold bind at 1. rewrite Hp.
    unfold DirectoryByHash. unfold bind at 1.
    rewrite NodeByHash_resolve, Hvh. simpl.
    rewrite Hp in Hr. simpl in Hr. rewrite Hr. simpl.
    apply IH; [|simpl in Hf; lia].
    eapply ancestors_ext; [..|exact Hl]; by simpl in *.
Qed.

(** X2. On a cycle of parent pointers [Up] does not return: with a callback
    that only reads, however many rounds of the loop are allowed, they are
    used up. *)
Theorem Up_cycle_never_returns (fuel : nat) (visit : daddr → M unit)
    (σ : Heap) (I : daddr → Prop) (d : daddr) :
  readOnly visit →
  parentClosed index σ I → I d →
  (Up index fuel d visit σ).2 = OutOfFuel.
Proof.
  intros Hv HI. revert σ HI d.
  induction fuel as [|fuel IH]; intros σ HI d Hd; [done|].
  destruct (HI d Hd) as (dir & next & Hdir & [pp Hp] & Hr & Hn).
  destruct (Hv d (logged σ [NDir d])) as (Hv2 & Hvd & Hvh & Hvv).
  destruct (visit d (logged σ [NDir d])) as [σ1 o1] eqn:Hvis.
  simpl in Hv2, Hvd, Hvh, Hvv. subst o1.
  assert (Up index (S fuel) d visit σ = Up index fuel next visit σ1) as ->.
  { simpl. unfold bind at 1. unfold getDir at 1. rewrite Hdir, Hp.
    unfold bind at 1. unfold logVisit at 1.
    unfold bind at 1. fold (logged σ [NDir d]). rewrite Hvis.
    unfold bind at 1. unfold getDir at 1. rewrite Hvd. simpl. rewrite Hdir.
    unfold bind at 1. rewrite Hp.
    unfold DirectoryByHash. unfold bind at 1.
    rewrite NodeByHash_resolve, Hvh. simpl.
    rewrite Hp in Hr. simpl in Hr. by rewrite Hr. }
  apply IH; [|done].
  intros y Hy. destruct (HI y Hy) as (dir' & next' & H1 & H2 & H3 & H4).
  exists dir', next'. by rewrite Hvd, Hvh.
Qed.

End Movement.

(** ** What the state altering methods leave alone *)

Lemma nodeHash_state nd σ : (nodeHash nd σ).1 = σ.
Proof.
  destruct nd as [e|f]; unfold nodeHash, bind, getDir, getFile.
  - by destruct (dirs σ !! e).
  - by destruct (files σ !! f).
Qed.

(** [SetParent] writes one [parent] field and nothing else. *)
Lemma SetParent_fields nd par σ :
  hashes (SetParent nd par σ).1 = hashes σ ∧
  visited (SetParent nd par σ).1 = visited σ ∧
  ∀ y, children <$> dirs (SetParent nd par σ).1 !! y = children <$> dirs σ !! y ∧
       size <$> dirs (SetParent nd par σ).1 !! y = size <$> dirs σ !! y ∧
       hash <$> dirs (SetParent nd par σ).1 !! y = hash <$> dirs σ !! y ∧
       name <$> dirs (SetParent nd par σ).1 !! y = name <$> dirs σ !! y.
Proof.
  unfold SetParent.
  match goal with |- context [bind ?m ?k] => set (K := k) end.
  assert (H : ∀ p,
    hashes (K p σ).1 = hashes σ ∧ visited (K p σ).1 = visited σ ∧
    ∀ y, children <$> dirs (K p σ).1 !! y = children <$> dirs σ !! y ∧
         size <$> dirs (K p σ).1 !! y = size <$> dirs σ !! y ∧
         hash <$> dirs (K p σ).1 !! y = hash <$> dirs σ !! y ∧
         name <$> dirs (K p σ).1 !! y = name <$> dirs σ !! y).
  { intros p. unfold K. destruct nd as [d|f]; simpl.
    - unfold setParentField, bind, getDir.
      destruct (dirs σ !! d) as [dir|] eqn:Hd; simpl; [|done].
      repeat split; try done;
        (destruct (decide (y = d)) as [->|];
         [by rewrite lookup_insert_eq, Hd|by rewrite lookup_insert_ne]).
    - unfold bind, getFile. by destruct (files σ !! f). }
  clearbody K. unfold bind. destruct par as [n|].
  - pose proof (nodeHash_state n σ) as Hs.
    destruct (nodeHash n σ) as [σ1 [p| | |]]; simpl in Hs; subst σ1;
      [apply H|done..].
  - apply H.
Qed.

Section Mutation.

Variable index : digest → outcome Node.
Variable rangeMap : gmap string hashptr → list (string * hashptr).

(** A walk that starts right after the children map of [d] was set to
    [m']. *)
Lemma walk_after_setChildren σ0 σ d dir m' l σ' :
  dirs σ0 !! d = Some dir →
  hashes σ0 = hashes σ → visited σ0 = visited σ →
  (∀ y, children <$> dirs σ0 !! y = children <$> dirs σ !! y ∧
        size <$> dirs σ0 !! y = size <$> dirs σ !! y ∧
        hash <$> dirs σ0 !! y = hash <$> dirs σ !! y ∧
        name <$> dirs σ0 !! y = name <$> dirs σ !! y) →
  walkedBy l (putDir d (withChildren dir m') σ0).1 σ' →
  dirChildren σ' d = Some m' ∧
  (∀ y, y ≠ d → dirChildren σ' y = dirChildren σ y) ∧
  (∀ y, dhash σ' y = dhash σ y) ∧
  (∀ y, name <$> dirs σ' !! y = name <$> dirs σ !! y) ∧
  newVisits σ σ' = l ∧
  (∀ y, NDir y ∉ l → dirSize σ' y = dirSize σ y) ∧
  (∀ q, q ∉ ownHashes σ l → hashes σ' !! q = hashes σ !! q).
Proof.
  intros Hd Hh Hv Hf [Hl F].
  set (σ1 := (putDir d (withChildren dir m') σ0).1) in *.
  assert (H1 : ∀ y, y ≠ d → dirs σ1 !! y = dirs σ0 !! y).
  { intros y Hy. unfold σ1. simpl. by rewrite lookup_insert_ne. }
  assert (H2 : dirs σ1 !! d = Some (withChildren dir m')).
  { unfold σ1. simpl. by rewrite lookup_insert_eq. }
  assert (Hdh : ∀ y, dhash σ1 y = dhash σ y).
  { intros y. unfold dhash. destruct (Hf y) as (_ & _ & Hy & _).
    destruct (decide (y = d)) as [->|Hne].
    - rewrite H2. simpl. rewrite Hd in Hy. simpl in Hy.
      destruct (dirs σ !! d); simplify_eq/=; congruence.
    - rewrite (H1 y Hne).
      destruct (dirs σ0 !! y), (dirs σ !! y); simplify_eq/=; congruence. }
  repeat split.
  - pose proof (frame_children _ _ _ _ F d) as Hc. rewrite H2 in Hc.
    unfold dirChildren. destruct (dirs σ' !! d); simplify_eq/=; congruence.
  - intros y Hy. pose proof (frame_children _ _ _ _ F y) as Hc.
    rewrite (H1 y Hy) in Hc. destruct (Hf y) as (Hc' & _).
    rewrite Hc' in Hc. unfold dirChildren.
    destruct (dirs σ' !! y), (dirs σ !! y); simplify_eq/=; congruence.
  - intros y. by rewrite (frame_dhash _ _ _ _ y F).
  - intros y. rewrite (frame_name _ _ _ _ F y).
    destruct (Hf y) as (_ & _ & _ & Hn).
    destruct (decide (y = d)) as [->|Hne].
    + rewrite H2. simpl. rewrite Hd in Hn. by rewrite <- Hn.
    + by rewrite (H1 y Hne).
  - apply newVisits_app. by rewrite Hl, <- Hv.
  - intros y Hy. rewrite (frame_size _ _ _ _ F y Hy).
    destruct (Hf y) as (_ & Hs & _). unfold dirSize.
    destruct (decide (y = d)) as [->|Hne].
    + rewrite H2. simpl. rewrite Hd in Hs. by rewrite <- Hs.
    + by rewrite (H1 y Hne).
  - intros q Hq. rewrite (frame_bytes _ _ _ _ F q).
    + by rewrite <- Hh.
    + by rewrite (ownHashes_ext σ σ1 l Hdh).
Qed.

Lemma Add_walkedBy fuel σ d dir m nd nm sz h :
  dirs σ !! d = Some dir → children dir = Some m →
  nodeInfo σ nd = Some (nm, sz, h) →
  ∃ l, walkedBy l (putDir d (withChildren dir (<[nm := h]> m)) σ).1
                  (Add index rangeMap fuel d nd σ).1.
Proof.
  intros Hd Hc Hi. rewrite (Add_unfold _ _ _ _ _ _ _ _ _ _ _ Hd Hc Hi).
  apply Up_walked. intros y σ0. rewrite addVisit_sizeVisit.
  apply sizeVisit_quiet.
Qed.

Lemma RemoveChild_walkedBy fuel σ d dir m nd nm sz h :
  dirs σ !! d = Some dir → children dir = Some m → is_Some (m !! nm) →
  nodeInfo σ nd = Some (nm, sz, h) → nd ≠ NDir d →
  dirs (SetParent nd None σ).1 !! d = Some dir ∧
  ∃ l, walkedBy l (putDir d (withChildren dir (delete nm m))
                     (SetParent nd None σ).1).1
                  (RemoveChild index rangeMap fuel d nd σ).1.
Proof.
  intros Hd Hc [x Hx] Hi Hne.
  destruct (nodeInfo_reads _ _ _ _ _ Hi) as (Hn & _ & _).
  destruct (SetParent_nil _ _ _ _ _ _ _ Hd Hi Hne)
    as (σb & Hsp & Hdb & Hhb & Hvb & Hdhb & Hsb & Hib).
  rewrite Hsp. simpl. split; [done|].
  assert (RemoveChild index rangeMap fuel d nd σ =
            Up index fuel d (removeVisit index rangeMap sz h)
               (putDir d (withChildren dir (delete nm m)) σb).1) as ->.
  { unfold RemoveChild. unfold bind at 1. rewrite Hn.
    unfold bind at 1. unfold getDir. rewrite Hd, Hc. simpl. rewrite Hx.
    unfold bind at 1. rewrite Hsp. unfold bind at 1. rewrite Hdb, Hc. simpl.
    unfold bind at 1. rewrite (setChildren_eq _ _ _ _ Hdb).
    assert (Hi' : nodeInfo (putDir d (withChildren dir (delete nm m)) σb).1 nd
                  = Some (nm, sz, h)).
    { by rewrite (nodeInfo_putDir _ _ dir). }
    destruct (nodeInfo_reads _ _ _ _ _ Hi') as (_ & Hs' & Hh').
    simpl in *. unfold bind at 1. rewrite Hs'. unfold bind at 1.
    by rewrite Hh'. }
  apply Up_walked. intros y σ0. rewrite removeVisit_sizeVisit.
  apply sizeVisit_quiet.
Qed.

(** X3. [Add] writes to one children map only: afterwards the map of [d] is
    the old one with the node's hash pointer under the node's name, the map
    of every other directory, every name and every hash pointer are as
    before and no file is written; a size changes only at a directory the
    walk visited and the bytes of a hash object only if a visited directory
    owns it.  This holds whether the walk returns nil, an error, or not at
    all. *)
Theorem Add_touches_one_map (fuel : nat) (σ : Heap) (d : daddr)
    (dir : Directory) (m : gmap string hashptr) (nd : Node) (nm : string)
    (sz : Z) (h : hashptr) :
  dirs σ !! d = Some dir → children dir = Some m →
  nodeInfo σ nd = Some (nm, sz, h) →
  let σ' := (Add index rangeMap fuel d nd σ).1 in
  dirChildren σ' d = Some (<[nm := h]> m) ∧
  (∀ y, y ≠ d → dirChildren σ' y = dirChildren σ y) ∧
  (∀ y, dhash σ' y = dhash σ y) ∧
  (∀ y, name <$> dirs σ' !! y = name <$> dirs σ !! y) ∧
  files σ' = files σ ∧
  (∀ y, NDir y ∉ newVisits σ σ' → dirSize σ' y = dirSize σ y) ∧
  (∀ q, q ∉ ownHashes σ (newVisits σ σ') → hashes σ' !! q = hashes σ !! q).
Proof.
  intros Hd Hc Hi σ'.
  destruct (Add_walkedBy fuel _ _ _ _ _ _ _ _ Hd Hc Hi) as [l Hw].
  destruct (walk_after_setChildren σ σ d dir _ l _ Hd eq_refl eq_refl
              (λ y, conj eq_refl (conj eq_refl (conj eq_refl eq_refl))) Hw)
    as (H1 & H2 & H3 & H4 & H5 & H6 & H7).
  fold σ' in H1, H2, H3, H4, H5, H6, H7. rewrite H5.
  repeat split; try done.
  destruct Hw as [_ F]. exact (frame_files _ _ _ _ F).
Qed.

(** X4. [RemoveChild] of a name that is there deletes that entry of the map of
    [d], whatever node it pointed to, and writes to no other children map,
    name or hash pointer; a size changes only at a directory the walk
    visited and the bytes of a hash object only if a visited directory owns
    it. *)
Theorem RemoveChild_touches_one_map (fuel : nat) (σ : Heap) (d : daddr)
    (dir : Directory) (m : gmap string hashptr) (nd : Node) (nm : string)
    (sz : Z) (h : hashptr) :
  dirs σ !! d = Some dir → children dir = Some m → is_Some (m !! nm) →
  nodeInfo σ nd = Some (nm, sz, h) → nd ≠ NDir d →
  let σ' := (RemoveChild index rangeMap fuel d nd σ).1 in
  dirChildren σ' d = Some (delete nm m) ∧
  (∀ y, y ≠ d → dirChildren σ' y = dirChildren σ y) ∧
  (∀ y, dhash σ' y = dhash σ y) ∧
  (∀ y, name <$> dirs σ' !! y = name <$> dirs σ !! y) ∧
  (∀ y, NDir y ∉ newVisits σ σ' → dirSize σ' y = dirSize σ y) ∧
  (∀ q, q ∉ ownHashes σ (newVisits σ σ') → hashes σ' !! q = hashes σ !! q).
Proof.
  intros Hd Hc Hx Hi Hne σ'.
  destruct (RemoveChild_walkedBy fuel _ _ _ _ _ _ _ _ Hd Hc Hx Hi Hne)
    as [Hdb [l Hw]].
  destruct (SetParent_fields nd None σ) as (Hh & Hv & Hf).
  destruct (walk_after_setChildren _ σ d dir _ l _ Hdb Hh Hv Hf Hw)
    as (H1 & H2 & H3 & H4 & H5 & H6 & H7).
  fold σ' in H1, H2, H3, H4, H5, H6, H7. rewrite H5. by repeat split.
Qed.

(** X5. [NChildren] counts the entries of the children map: after [Add] of a
    node with a new name there is one more, after [Add] of a node whose
    name is taken the number is the same, and after [RemoveChild] of a name
    that is there one less. *)
Theorem NChildren_after_mutation (fuel : nat) (σ : Heap) (d : daddr)
    (dir : Directory) (m : gmap string hashptr) (nd : Node) (nm : string)
    (sz : Z) (h : hashptr) :
  dirs σ !! d = Some dir → children dir = Some m →
  nodeInfo σ nd = Some (nm, sz, h) →
  NChildren d σ = (σ, Ok (Z.of_nat (base.size m))) ∧
  (m !! nm = None →
   (NChildren d (Add index rangeMap fuel d nd σ).1).2
     = Ok (Z.of_nat (base.size m) + 1)) ∧
  (is_Some (m !! nm) →
   (NChildren d (Add index rangeMap fuel d nd σ).1).2
     = Ok (Z.of_nat (base.size m))) ∧
  (is_Some (m !! nm) → nd ≠ NDir d →
   (NChildren d (RemoveChild index rangeMap fuel d nd σ).1).2
     = Ok (Z.of_nat (base.size m) - 1)).
Proof.
  intros Hd Hc Hi.
  assert (HN : ∀ σ' m', dirChildren σ' d = Some m' →
            (NChildren d σ').2 = Ok (Z.of_nat (base.size m'))).
  { intros σ' m' H. unfold dirChildren in H. unfold NChildren, bind, getDir.
    destruct (dirs σ' !! d) as [dir'|]; [|done]. simpl in *. by rewrite H. }
  assert (HA : dirChildren (Add index rangeMap fuel d nd σ).1 d
               = Some (<[nm := h]> m)).
  { destruct (Add_walkedBy fuel _ _ _ _ _ _ _ _ Hd Hc Hi) as [l Hw].
    by destruct (walk_after_setChildren σ σ d dir _ l _ Hd eq_refl eq_refl
              (λ y, conj eq_refl (conj eq_refl (conj eq_refl eq_refl))) Hw)
      as (H1 & _). }
  repeat split.
  - unfold NChildren, bind, getDir. by rewrite Hd, Hc.
  - intros Hx. rewrite (HN _ _ HA), map_size_insert_None by done.
    f_equal. lia.
  - intros Hx. by rewrite (HN _ _ HA), map_size_insert_Some.
  - intros Hx Hne.
    destruct (RemoveChild_walkedBy fuel _ _ _ _ _ _ _ _ Hd Hc Hx Hi Hne)
      as [Hdb [l Hw]].
    destruct (SetParent_fields nd None σ) as (Hh & Hv & Hf).
    destruct (walk_after_setChildren _ σ d dir _ l _ Hdb Hh Hv Hf Hw)
      as (H1 & _).
    rewrite (HN _ _ H1), map_size_delete_Some by done.
    destruct Hx as [x Hx].
    assert (base.size m ≠ 0)%nat.
    { intros H0. apply map_size_empty_iff in H0. by rewrite H0 in Hx. }
    f_equal. lia.
Qed.

End Mutation.

(** ** The digest update and the parent pointers of the children *)

Lemma SetParent_dir_parent σ c d hp :
  is_Some (dirs σ !! c) → dhash σ d = Some hp →
  (SetParent (NDir c) (Some (NDir d)) σ).2 = Ok tt ∧
  dparent (SetParent (NDir c) (Some (NDir d)) σ).1 c = Some hp ∧
  (∀ y, y ≠ c → dparent (SetParent (NDir c) (Some (NDir d)) σ).1 y = dparent σ y) ∧
  files (SetParent (NDir c) (Some (NDir d)) σ).1 = files σ ∧
  (∀ y, is_Some (dirs σ !! y) →
        is_Some (dirs (SetParent (NDir c) (Some (NDir d)) σ).1 !! y)).
Proof.
  intros [dc Hc] Hd. unfold dhash in Hd.
  destruct (dirs σ !! d) as [dd|] eqn:Hdd; [|done]. simpl in Hd.
  unfold SetParent, nodeHash, setParentField, bind, getDir, ret, putDir.
  rewrite Hdd. simpl. rewrite Hc. simpl. unfold dparent. simpl.
  repeat split.
  - by rewrite lookup_insert_eq.
  - intros y Hy. by rewrite lookup_insert_ne.
  - intros y Hy. destruct (decide (y = c)) as [->|].
    + rewrite lookup_insert_eq. by eauto.
    + by rewrite lookup_insert_ne.
Qed.

Section Digest.

Variable index : digest → outcome Node.
Variable rangeMap : gmap string hashptr → list (string * hashptr).

Lemma visitLinks_setParent d hp l :
  ∀ σ, dhash σ d = Some hp →
    (∀ n h, (n, h) ∈ l →
       ∃ c, resolve index (hashes σ) h = Ok (NDir c) ∧ is_Some (dirs σ !! c)) →
    ∃ σ', visitLinks index (λ child, SetParent (NDir child) (Some (NDir d))) l σ
            = (σ', Ok tt) ∧
          hashes σ' = hashes σ ∧ visited σ' = visited σ ∧ files σ' = files σ ∧
          (∀ y, children <$> dirs σ' !! y = children <$> dirs σ !! y ∧
                size <$> dirs σ' !! y = size <$> dirs σ !! y ∧
                hash <$> dirs σ' !! y = hash <$> dirs σ !! y ∧
                name <$> dirs σ' !! y = name <$> dirs σ !! y) ∧
          (∀ n h c, (n, h) ∈ l → resolve index (hashes σ) h = Ok (NDir c) →
                    dparent σ' c = Some hp) ∧
          (∀ y, dparent σ y = Some hp → dparent σ' y = Some hp) ∧
          (∀ y, (∀ n h, (n, h) ∈ l → resolve index (hashes σ) h ≠ Ok (NDir y)) →
                dparent σ' y = dparent σ y).
Proof.
  induction l as [|[n h] l IH]; intros σ Hd Hl.
  - exists σ. simpl. repeat split; try done. intros ??? H. by apply elem_of_nil in H.
  - destruct (Hl n h) as (c & Hr & Hc); [by left|].
    set (fn := λ child, SetParent (NDir child) (Some (NDir d))).
    destruct (SetParent_dir_parent σ c d hp Hc Hd) as (S1 & S2 & S3 & S4 & S5).
    destruct (SetParent_fields (NDir c) (Some (NDir d)) σ) as (F1 & F2 & F3).
    destruct (SetParent (NDir c) (Some (NDir d)) σ) as [σ2 o2] eqn:Hsp.
    simpl in S1, S2, S3, S4, S5, F1, F2, F3. subst o2.
    destruct (IH σ2) as (σ' & I1 & I2 & I3 & I4 & I5 & I6 & I7 & I8).
    { unfold dhash in *. destruct (F3 d) as (_ & _ & Hh & _).
      destruct (dirs σ2 !! d), (dirs σ !! d); simplify_eq/=; congruence. }
    { intros n' h' Hin. destruct (Hl n' h') as (c' & Hr' & Hc'); [by right|].
      exists c'. rewrite F1. by eauto. }
    exists σ'. split.
    { change (bind (DirectoryByHash index h)
                (λ child, bind (fn child) (λ _, visitLinks index fn l)) σ
              = (σ', Ok tt)).
      unfold bind at 1. unfold DirectoryByHash. unfold bind at 1.
      rewrite NodeByHash_resolve, Hr. cbv beta iota. unfold ret.
      unfold bind at 1. unfold fn at 1. rewrite Hsp. exact I1. }
    rewrite I2, I3, I4, F1, F2, S4. repeat split; try done.
    + by rewrite (proj1 (I5 y)), (proj1 (F3 y)).
    + destruct (I5 y) as (_ & -> & _). by destruct (F3 y) as (_ & -> & _).
    + destruct (I5 y) as (_ & _ & -> & _). by destruct (F3 y) as (_ & _ & -> & _).
    + destruct (I5 y) as (_ & _ & _ & ->). by destruct (F3 y) as (_ & _ & _ & ->).
    + intros n' h' c' Hin Hr'. apply elem_of_cons in Hin as [Heq|Hin].
      * injection Heq as -> ->. rewrite Hr in Hr'. injection Hr' as <-.
        by apply I7.
      * apply (I6 n' h' c' Hin). by rewrite F1.
    + intros y Hy. apply I7. destruct (decide (y = c)) as [->|Hne]; [done|].
      by rewrite S3.
    + intros y Hy. rewrite I8.
      * apply S3. intros ->. by apply (Hy n h); [left|].
      * intros n' h' Hin. rewrite F1. apply (Hy n' h'). by right.
Qed.

(** X6. [xorHash] on a directory whose children all resolve to directories:
    it returns nil, the digest of [d] is the old one combined with the
    argument, and the [parent] of every child is now the very hash object
    of [d] (the same pointer, so the child reads the new digest through
    it); the [parent] of a directory that is not a child stays as it was,
    and no size, children map or name changes. *)
Theorem xorHash_rewrites_parents (σ : Heap) (d : daddr) (dir : Directory)
    (m : gmap string hashptr) (hp hq : haddr) (a b : digest) :
  rangeMap m ≡ₚ map_to_list m →
  dirs σ !! d = Some dir → children dir = Some m → hash dir = Some hp →
  hashes σ !! hp = Some a → hashes σ !! hq = Some b →
  length a = length b →
  (∀ n h, m !! n = Some h →
     h ≠ Some hp ∧
     ∃ c, resolve index (hashes σ) h = Ok (NDir c) ∧ is_Some (dirs σ !! c)) →
  ∃ σ', xorHash index rangeMap d (Some hq) σ = (σ', Ok tt) ∧
        dirDigest σ' d = Some (xorBytes a b) ∧
        (∀ n h c, m !! n = Some h → resolve index (hashes σ) h = Ok (NDir c) →
                  dparent σ' c = Some hp) ∧
        (∀ y, (∀ n h, m !! n = Some h → resolve index (hashes σ) h ≠ Ok (NDir y)) →
              dparent σ' y = dparent σ y) ∧
        (∀ y, dirSize σ' y = dirSize σ y ∧ dirChildren σ' y = dirChildren σ y).
Proof.
  intros Hperm Hd Hc Hh Ha Hb Hlen Hm.
  assert (Hin : ∀ n h, (n, h) ∈ rangeMap m ↔ m !! n = Some h).
  { intros n h. rewrite Hperm. apply elem_of_map_to_list. }
  set (σ1 := mkHeap (<[hp := xorBytes a b]> (hashes σ)) (dirs σ) (files σ)
                    (visited σ)).
  assert (Hres : ∀ n h, m !! n = Some h →
            resolve index (hashes σ1) h = resolve index (hashes σ) h).
  { intros n h Hn. apply resolve_insert_ne. by destruct (Hm n h Hn). }
  destruct (visitLinks_setParent d hp (rangeMap m) σ1)
    as (σ' & V1 & V2 & V3 & V4 & V5 & V6 & V7 & V8).
  { unfold dhash. simpl. by rewrite Hd. }
  { intros n h Hnh%Hin. destruct (Hm n h Hnh) as (_ & c & Hr & Hc').
    exists c. by rewrite (Hres n h Hnh). }
  exists σ'. split.
  { unfold xorHash. unfold bind at 1. unfold getDir at 1. rewrite Hd.
    unfold bind at 1. rewrite Hh, (Xor_some _ _ _ _ _ Ha Hb).
    rewrite decide_True by done. fold σ1.
    unfold VisitChildren. unfold bind at 1. unfold getDir at 1. simpl.
    by rewrite Hd, Hc. }
  repeat split.
  - unfold dirDigest. destruct (V5 d) as (_ & _ & Hh' & _). simpl in Hh'.
    rewrite Hd in Hh'. destruct (dirs σ' !! d) as [dir'|]; [|done].
    simpl in *. injection Hh' as ->. rewrite Hh. simpl. rewrite V2. simpl.
    by rewrite lookup_insert_eq.
  - intros n h c Hn Hr. apply (V6 n h c); [by apply Hin|].
    by rewrite (Hres n h Hn).
  - intros y Hy. rewrite V8; [done|].
    intros n h Hnh%Hin. rewrite (Hres n h Hnh). by apply (Hy n h).
  - unfold dirSize. by destruct (V5 y) as (_ & -> & _).
  - unfold dirChildren. destruct (V5 y) as (Hcy & _). simpl in Hcy.
    destruct (dirs σ' !! y), (dirs σ !! y); simplify_eq/=; congruence.
Qed.

End Digest.

(** ** Creation under a parent *)

Section Creation.

Variable index : digest → outcome Node.
Variable rangeMap : gmap string hashptr → list (string * hashptr).

(** X7. [newEmptyDirectory] under a parent that is a root (its [parent] is nil)
    and has a children map: the call returns a directory that was not in
    the heap before, with a hash object of its own that holds the given
    multihash; the parent's map gets the new hash pointer under the name.
    The new directory itself has a nil [parent] and a nil children map;
    the parent keeps its size and its hash pointer, and no other directory
    or hash object is written. *)
Theorem newEmptyDirectory_under_root (fuel : nat) (σ : Heap) (p : daddr)
    (pdir : Directory) (m : gmap string hashptr) (bs : digest) (i : Z)
    (nm : string) :
  dirs σ !! p = Some pdir → children pdir = Some m → parent pdir = None →
  ∃ σ' d h,
    newEmptyDirectory index rangeMap (S fuel) (Ok bs) (Ok i) (Some p) nm σ
      = (σ', Ok d) ∧
    dirs σ !! d = None ∧ hashes σ !! h = None ∧
    dirs σ' !! d = Some (mkDirectory nm 0 zeroTime None (Some h) None i) ∧
    hashes σ' !! h = Some bs ∧
    dirs σ' !! p = Some (withChildren pdir (<[nm := Some h]> m)) ∧
    (∀ y, y ≠ d → y ≠ p → dirs σ' !! y = dirs σ !! y) ∧
    (∀ q, q ≠ h → hashes σ' !! q = hashes σ !! q).
Proof.
  intros Hp Hc Hpar.
  set (h := fresh (dom (hashes σ))). set (d := fresh (dom (dirs σ))).
  assert (Hdf : dirs σ !! d = None) by apply not_elem_of_dom, is_fresh.
  assert (Hhf : hashes σ !! h = None) by apply not_elem_of_dom, is_fresh.
  assert (Hne : d ≠ p) by (intros E; rewrite E in Hdf; congruence).
  set (nd := mkDirectory nm 0 zeroTime None (Some h) None i).
  set (σ0 := mkHeap (<[h := bs]> (hashes σ)) (<[d := nd]> (dirs σ)) (files σ)
                    (visited σ)).
  assert (E : newEmptyDirectory index rangeMap (S fuel) (Ok bs) (Ok i) (Some p)
                nm σ
              = bind (Add index rangeMap (S fuel) p (NDir d)) (λ _, ret d) σ0)
    by reflexivity.
  assert (Hp0 : dirs σ0 !! p = Some pdir).
  { unfold σ0. simpl. by rewrite lookup_insert_ne. }
  assert (Hi0 : nodeInfo σ0 (NDir d) = Some (nm, 0, Some h)).
  { unfold σ0. simpl. by rewrite lookup_insert_eq. }
  set (σ1 := (putDir p (withChildren pdir (<[nm := Some h]> m)) σ0).1).
  assert (Hp1 : dirs σ1 !! p = Some (withChildren pdir (<[nm := Some h]> m))).
  { unfold σ1. simpl. by rewrite lookup_insert_eq. }
  exists σ1, d, h. split.
  { rewrite E. unfold bind at 1.
    rewrite (Add_unfold _ _ _ _ _ _ _ _ _ _ _ Hp0 Hc Hi0). fold σ1.
    by rewrite (Up_root index fuel _ σ1 p _ Hp1 Hpar). }
  repeat split; try done.
  - unfold σ1. simpl. rewrite lookup_insert_ne by done.
    by rewrite lookup_insert_eq.
  - unfold σ1. simpl. by rewrite lookup_insert_eq.
  - intros y Hy1 Hy2. unfold σ1. simpl. by rewrite !lookup_insert_ne.
  - intros q Hq. unfold σ1. simpl. by rewrite lookup_insert_ne.
Qed.

End Creation.

(** ** More on the wire codec *)

Lemma collectLinks_inv l σ σ' r :
  collectLinks l σ = (σ', Ok r) →
  σ' = σ ∧ r.2 = l.*1 ∧
  Forall2 (λ e bs, ∃ hp, e.2 = Some hp ∧ hashes σ !! hp = Some bs) l r.1.
Proof.
  revert σ' r. induction l as [|[nm link] l IH]; intros σ' r; simpl.
  - intros [= <- <-]. by repeat split.
  - unfold bind at 1. unfold getHash.
    destruct link as [hp|]; [|done].
    destruct (hashes σ !! hp) as [bs|] eqn:Hb; [|done].
    unfold bind at 1.
    destruct (collectLinks l σ) as [σ1 [r1| | |]] eqn:Hc; try done.
    destruct (IH σ1 r1 eq_refl) as (-> & H2 & H3).
    intros [= <- <-]. simpl. repeat split; [by rewrite H2|].
    constructor; [by exists hp|done].
Qed.

Section Wire.

Variable rangeMap : gmap string hashptr → list (string * hashptr).
Variable MarshalBinary : Time → outcome (list N).
Variable UnmarshalBinary : list N → outcome Time.

Lemma ToProto_inv σ σ' d dir msg :
  dirs σ !! d = Some dir →
  ToProto rangeMap MarshalBinary d σ = (σ', Ok msg) →
  σ' = σ ∧
  ∃ bin ln h p,
    MarshalBinary (modTime dir) = Ok bin ∧
    collectLinks (default [] (rangeMap <$> children dir)) σ = (σ, Ok ln) ∧
    getHash (hash dir) σ = (σ, Ok h) ∧ getHash (parent dir) σ = (σ, Ok p) ∧
    msg = wire.mkNode (id dir) NodeTypeDirectory bin (size dir) h (name dir) p
            (Some (wire.mkDirectory ln.1 ln.2)).
Proof.
  intros Hd. unfold ToProto. unfold bind at 1. unfold getDir. rewrite Hd.
  unfold bind at 1. unfold lift.
  destruct (MarshalBinary (modTime dir)) as [bin| | |]; try done.
  unfold bind at 1.
  destruct (collectLinks _ σ) as [σ1 [ln| | |]] eqn:Hc; try done.
  destruct (collectLinks_inv _ _ _ _ Hc) as (-> & _).
  unfold bind at 1. pose proof (getHash_state (hash dir) σ) as H1.
  destruct (getHash (hash dir) σ) as [σ1 [h| | |]] eqn:Hh; try done.
  simpl in H1. subst σ1.
  unfold bind at 1. pose proof (getHash_state (parent dir) σ) as H2.
  destruct (getHash (parent dir) σ) as [σ1 [p| | |]] eqn:Hp; try done.
  simpl in H2. subst σ1.
  intros [= <- <-]. split; [done|]. by exists bin, ln, h, p.
Qed.

(** X8. Whenever [ToProto] returns a message, the heap is as before and the
    message has as many links as names: the names are the keys of the
    children map, each once, in the order of the enumeration, and the link
    at an index is the digest behind the hash pointer stored under the
    name at that index.  The other fields carry the id, the size, the
    name, the encoded mod-time and the digest of the directory. *)
Theorem ToProto_names_links (σ σ' : Heap) (d : daddr) (dir : Directory)
    (msg : wire.Node) :
  (∀ m, rangeMap m ≡ₚ map_to_list m) →
  dirs σ !! d = Some dir →
  ToProto rangeMap MarshalBinary d σ = (σ', Ok msg) →
  let m := default ∅ (children dir) in
  let names := wire.GetNames (wire.Directory' msg) in
  let links := wire.GetLinks (wire.Directory' msg) in
  σ' = σ ∧
  length names = base.size m ∧ length links = base.size m ∧
  NoDup names ∧
  (∀ n, n ∈ names ↔ is_Some (m !! n)) ∧
  (∀ i n bs, names !! i = Some n → links !! i = Some bs →
             ∃ hp, m !! n = Some (Some hp) ∧ hashes σ !! hp = Some bs) ∧
  wire.ID msg = id dir ∧ wire.NodeSize msg = size dir ∧
  wire.Name msg = name dir ∧ wire.Type' msg = NodeTypeDirectory ∧
  MarshalBinary (modTime dir) = Ok (wire.ModTime msg) ∧
  dirDigest σ d = Some (wire.Hash msg).
Proof.
  intros Hperm Hd Hto m names links.
  destruct (ToProto_inv _ _ _ _ _ Hd Hto)
    as (-> & bin & ln & h & p & Hbin & Hc & Hh & Hp & Hmsg).
  destruct (collectLinks_inv _ _ _ _ Hc) as (_ & Hn & Hl).
  set (l := default [] (rangeMap <$> children dir)) in *.
  assert (Hlm : l ≡ₚ map_to_list m).
  { unfold l, m. destruct (children dir); simpl; [done|].
    by rewrite map_to_list_empty. }
  assert (names = l.*1) as Hnames by (unfold names; by rewrite Hmsg).
  assert (links = ln.1) as Hlinks by (unfold links; by rewrite Hmsg).
  split; [done|]. rewrite Hnames, Hlinks. repeat split.
  - by rewrite length_fmap, Hlm, length_map_to_list.
  - rewrite <- (Forall2_length _ _ _ Hl). by rewrite Hlm, length_map_to_list.
  - rewrite Hlm. apply NoDup_fst_map_to_list.
  - rewrite Hlm. intros Hin. apply list_elem_of_fmap in Hin as [[n' x] [-> Hin]].
    apply elem_of_map_to_list in Hin. by eauto.
  - rewrite Hlm. intros [x Hx]. apply list_elem_of_fmap.
    exists (n, x). split; [done|]. by apply elem_of_map_to_list.
  - intros i n bs Hi Hb. rewrite list_lookup_fmap in Hi.
    destruct (l !! i) as [[n' x]|] eqn:Hli; [|done]. simpl in Hi.
    injection Hi as ->.
    destruct (Forall2_lookup_lr _ _ _ _ _ _ Hl Hli Hb) as (hp & Hx & Hhp).
    simpl in Hx. subst x. exists hp. split; [|done].
    apply elem_of_map_to_list. rewrite <- Hlm. by eapply list_elem_of_lookup_2.
  - by rewrite Hmsg.
  - by rewrite Hmsg.
  - by rewrite Hmsg.
  - by rewrite Hmsg.
  - by rewrite Hmsg.
  - rewrite Hmsg. simpl. unfold dirDigest. rewrite Hd. simpl.
    unfold getHash in Hh. destruct (hash dir) as [a|]; [|done]. simpl.
    destruct (hashes σ !! a); by simplify_eq.
Qed.

(** The heap in which the loop of [FromProto] starts. *)
Lemma FromProto_start (σ : Heap) (d : daddr) (dir : Directory)
    (pnd : wire.Node) (t : Time) :
  dirs σ !! d = Some dir →
  UnmarshalBinary (wire.ModTime pnd) = Ok t →
  ∃ σ0 pa ha,
    FromProto UnmarshalBinary d pnd σ =
      fromNames d (wire.GetLinks (wire.Directory' pnd)) 0
                (wire.GetNames (wire.Directory' pnd)) σ0 ∧
    hashes σ !! pa = None ∧ hashes σ !! ha = None ∧ pa ≠ ha ∧
    hashes σ0 = <[ha := wire.Hash pnd]> (<[pa := wire.Parent pnd]> (hashes σ)) ∧
    dirs σ0 = <[d := mkDirectory (wire.Name pnd) (wire.NodeSize pnd) t
                       (Some pa) (Some ha) (Some ∅) (wire.ID pnd)]> (dirs σ) ∧
    files σ0 = files σ ∧ visited σ0 = visited σ.
Proof.
  intros Hd Ht.
  set (pa := fresh (dom (hashes σ))).
  set (ha := fresh (dom (<[pa := wire.Parent pnd]> (hashes σ)))).
  exists (mkHeap (<[ha := wire.Hash pnd]> (<[pa := wire.Parent pnd]> (hashes σ)))
            (<[d := mkDirectory (wire.Name pnd) (wire.NodeSize pnd) t
                      (Some pa) (Some ha) (Some ∅) (wire.ID pnd)]> (dirs σ))
            (files σ) (visited σ)), pa, ha.
  assert (Hha : ha ∉ dom (<[pa := wire.Parent pnd]> (hashes σ)))
    by apply is_fresh.
  rewrite dom_insert in Hha. apply not_elem_of_union in Hha as [Hne Hha].
  repeat split; try done.
  - unfold FromProto, bind, lift. rewrite Ht. unfold getDir. by rewrite Hd.
  - apply not_elem_of_dom, is_fresh.
  - by apply not_elem_of_dom.
  - intros E. apply Hne. rewrite E. by apply elem_of_singleton.
Qed.

(** X9. The two ways [FromProto] returns an error.  When the mod-time does not
    decode, the error of the time codec comes back and nothing was
    written.  When the loop over the names returns the malformed-input
    error, the fields of the directory are overwritten already: it has the
    name, size, id and mod-time of the message and an empty children map,
    whatever it had before. *)
Theorem FromProto_error_states (σ : Heap) (d : daddr) (dir : Directory)
    (pnd : wire.Node) :
  dirs σ !! d = Some dir →
  (∀ e, UnmarshalBinary (wire.ModTime pnd) = Err e →
        FromProto UnmarshalBinary d pnd σ = (σ, Err e)) ∧
  (∀ t, UnmarshalBinary (wire.ModTime pnd) = Ok t →
        wire.GetNames (wire.Directory' pnd) ≠ [] →
        wire.GetLinks (wire.Directory' pnd) ≠ [] →
        ∃ σ' pa ha,
          FromProto UnmarshalBinary d pnd σ
            = (σ', Err (MalformedInput (wire.Name pnd))) ∧
          dirs σ' !! d
            = Some (mkDirectory (wire.Name pnd) (wire.NodeSize pnd) t
                      (Some pa) (Some ha) (Some ∅) (wire.ID pnd))).
Proof.
  intros Hd. split.
  - intros e He. unfold FromProto, bind, lift. by rewrite He.
  - intros t Ht Hn Hl.
    destruct (FromProto_start σ d dir pnd t Hd Ht)
      as (σ0 & pa & ha & E & _ & _ & _ & _ & Hd0 & _).
    destruct (wire.GetNames (wire.Directory' pnd)) as [|n ns]; [done|].
    destruct (wire.GetLinks (wire.Directory' pnd)) as [|l ls]; [done|].
    assert (Hd0' : dirs σ0 !! d
              = Some (mkDirectory (wire.Name pnd) (wire.NodeSize pnd) t
                        (Some pa) (Some ha) (Some ∅) (wire.ID pnd))).
    { by rewrite Hd0, lookup_insert_eq. }
    exists σ0, pa, ha. split; [|done].
    by rewrite E, (fromNames_in_range _ _ _ _ _ _ _ Hd0').
Qed.

(** X10. [FromProto] of a message without names (its links, if any, are not
    looked at): it returns nil; the directory has the id, mod-time, size
    and name of the message and an empty, non-nil children map; its [hash]
    and [parent] are two new hash objects, different from each other and
    from every hash object there was, holding the digest and the parent
    digest of the message.  No other directory, no file and no older hash
    object is written. *)
Theorem FromProto_without_names (σ : Heap) (d : daddr) (dir : Directory)
    (pnd : wire.Node) (t : Time) :
  dirs σ !! d = Some dir →
  UnmarshalBinary (wire.ModTime pnd) = Ok t →
  wire.GetNames (wire.Directory' pnd) = [] →
  ∃ σ' pa ha,
    FromProto UnmarshalBinary d pnd σ = (σ', Ok tt) ∧
    dirs σ' !! d = Some (mkDirectory (wire.Name pnd) (wire.NodeSize pnd) t
                           (Some pa) (Some ha) (Some ∅) (wire.ID pnd)) ∧
    hashes σ !! pa = None ∧ hashes σ !! ha = None ∧ pa ≠ ha ∧
    hashes σ' !! pa = Some (wire.Parent pnd) ∧
    hashes σ' !! ha = Some (wire.Hash pnd) ∧
    (∀ q, is_Some (hashes σ !! q) → hashes σ' !! q = hashes σ !! q) ∧
    (∀ y, y ≠ d → dirs σ' !! y = dirs σ !! y) ∧
    files σ' = files σ.
Proof.
  intros Hd Ht Hn.
  destruct (FromProto_start σ d dir pnd t Hd Ht)
    as (σ0 & pa & ha & E & Hpa & Hha & Hne & Hh0 & Hd0 & Hf0 & _).
  exists σ0, pa, ha. rewrite E, Hn, Hh0, Hd0. simpl. repeat split; try done.
  - by rewrite lookup_insert_eq.
  - rewrite lookup_insert_ne by done. by rewrite lookup_insert_eq.
  - by rewrite lookup_insert_eq.
  - intros q [x Hq]. rewrite !lookup_insert_ne; [done|..]; congruence.
  - intros y Hy. by rewrite lookup_insert_ne.
Qed.

(** X11. Encoding a directory without children and decoding the message into a
    directory object gives back the name, size, id and mod-time, the digest
    and the parent digest, with an empty children map (also where the
    encoded directory had a nil map). *)
Theorem FromProto_ToProto_childless (σ σ1 σ2 : Heap) (d d2 : daddr)
    (dir dir2 : Directory) (msg : wire.Node) :
  (∀ m, rangeMap m ≡ₚ map_to_list m) →
  (∀ t bs, MarshalBinary t = Ok bs → UnmarshalBinary bs = Ok t) →
  dirs σ !! d = Some dir →
  default ∅ (children dir) = ∅ →
  ToProto rangeMap MarshalBinary d σ = (σ1, Ok msg) →
  dirs σ2 !! d2 = Some dir2 →
  ∃ σ3 dir3,
    FromProto UnmarshalBinary d2 msg σ2 = (σ3, Ok tt) ∧
    dirs σ3 !! d2 = Some dir3 ∧
    name dir3 = name dir ∧ size dir3 = size dir ∧ id dir3 = id dir ∧
    modTime dir3 = modTime dir ∧ children dir3 = Some ∅ ∧
    dirDigest σ3 d2 = dirDigest σ d ∧
    parent dir3 ≫= (hashes σ3 !!.) = parent dir ≫= (hashes σ !!.).
Proof.
  intros Hperm Hrt Hd Hc Hto Hd2.
  destruct (ToProto_inv _ _ _ _ _ Hd Hto)
    as (-> & bin & ln & h & p & Hbin & Hcl & Hh & Hp & Hmsg).
  assert (Hl : default [] (rangeMap <$> children dir) = []).
  { destruct (children dir) as [m|]; [|done]. simpl in *. subst m.
    apply Permutation_nil_r. by rewrite Hperm, map_to_list_empty. }
  rewrite Hl in Hcl. simpl in Hcl. injection Hcl as <-.
  assert (Ht : UnmarshalBinary (wire.ModTime msg) = Ok (modTime dir)).
  { apply Hrt. by rewrite Hmsg. }
  destruct (FromProto_start σ2 d2 dir2 msg _ Hd2 Ht)
    as (σ0 & pa & ha & E & Hpa & Hha & Hne & Hh0 & Hd0 & Hf0 & _).
  exists σ0, (mkDirectory (wire.Name msg) (wire.NodeSize msg) (modTime dir)
                (Some pa) (Some ha) (Some ∅) (wire.ID msg)).
  assert (Hd3 : dirs σ0 !! d2
            = Some (mkDirectory (wire.Name msg) (wire.NodeSize msg)
                      (modTime dir) (Some pa) (Some ha) (Some ∅) (wire.ID msg)))
    by (by rewrite Hd0, lookup_insert_eq).
  split; [by rewrite E, Hmsg|]. split; [done|].
  rewrite Hmsg. simpl. repeat split.
  - unfold dirDigest. rewrite Hd3, Hd. simpl. rewrite Hh0, lookup_insert_eq.
    rewrite Hmsg. simpl. unfold getHash in Hh.
    destruct (hash dir) as [a|]; [|done]. simpl.
    destruct (hashes σ !! a); by simplify_eq.
  - rewrite Hh0, lookup_insert_ne by done. rewrite lookup_insert_eq.
    rewrite Hmsg. simpl. unfold getHash in Hp.
    destruct (parent dir) as [a|]; [|done]. simpl.
    destruct (hashes σ !! a); by simplify_eq.
Qed.

End Wire.

(** ** More on tree movement *)

Section Descent.

Variable index : digest → outcome Node.
Variable rangeMap : gmap string hashptr → list (string * hashptr).

Lemma firstPath_logged σ l0 nd l last :
  firstPath index rangeMap σ nd l last →
  firstPath index rangeMap (logged σ l0) nd l last.
Proof. revert nd. induction l as [|x l IH]; intros nd; simpl; [done|]. 
  intros [-> (d & dir & n & link & rest & next & H1 & H2 & H3 & H4 & H5)].
  split; [done|]. exists d, dir, n, link, rest, next. by eauto 10.
Qed.

Lemma Walk_firstPath (dfs : bool) (l : list Node) :
  ∀ fuel σ nd last,
    firstPath index rangeMap σ nd l last → (length l < fuel)%nat →
    Walk index rangeMap fuel nd dfs logVisit σ
      = (logged σ ((if dfs then [] else l) ++ [last]), Ok tt).
Proof.
  induction l as [|x l IH]; intros fuel σ nd last Hp Hf.
  - destruct Hp as [-> Hlast]. destruct fuel as [|fuel]; [simpl in Hf; lia|].
    destruct last as [d|f].
    + destruct Hlast as (dir & Hd & Hc). simpl.
      destruct dfs; simpl; unfold bind, ret, getDir; simpl; by rewrite Hd, Hc.
    + simpl. by destruct dfs.
  - destruct Hp as [-> (d & dir & n & link & rest & next & -> & Hd & Hc & Hr & Hp)].
    destruct fuel as [|fuel]; [simpl in Hf; lia|].
    assert (Hlt : (length l < fuel)%nat) by (simpl in Hf; lia).
    destruct dfs.
    + pose proof (IH fuel σ next last Hp Hlt) as IH'. simpl in IH'.
      simpl. unfold bind at 1. unfold ret at 1. unfold bind at 1.
      unfold getDir. rewrite Hd, Hc. unfold bind at 1.
      by rewrite NodeByHash_resolve, Hr.
    + pose proof (IH fuel (logged σ [NDir d]) next last
                    (firstPath_logged σ _ _ _ _ Hp) Hlt) as IH'.
      simpl in IH'. simpl. unfold bind at 1. unfold logVisit at 1.
      fold (logged σ [NDir d]). unfold bind at 1.
      unfold getDir. simpl. rewrite Hd, Hc. unfold bind at 1.
      rewrite NodeByHash_resolve. simpl. rewrite Hr, IH'.
      unfold logged. simpl. by rewrite <- app_assoc.
Qed.

(** X12. [Walk] goes down one path only, the one through the first enumerated
    child of every directory: without [dfs] it visits the directories on
    that path from the top and then the node the path ends in (a file or a
    directory without children); with [dfs] it visits that last node and
    nothing else.  No other child is resolved or visited. *)
Theorem Walk_one_path (fuel : nat) (σ : Heap) (nd last : Node)
    (l : list Node) :
  firstPath index rangeMap σ nd l last →
  (length l < fuel)%nat →
  Walk index rangeMap fuel nd false logVisit σ
    = (logged σ (l ++ [last]), Ok tt) ∧
  Walk index rangeMap fuel nd true logVisit σ = (logged σ [last], Ok tt).
Proof.
  intros Hp Hf. split.
  - exact (Walk_firstPath false l fuel σ nd last Hp Hf).
  - exact (Walk_firstPath true l fuel σ nd last Hp Hf).
Qed.

(** X13. When the store does not resolve the first enumerated child of a
    directory, [Walk] returns the error of the store: without [dfs] after
    the visit of the directory, with [dfs] without any visit. *)
Theorem Walk_unresolved_child (fuel : nat) (σ : Heap) (d : daddr)
    (dir : Directory) (m : gmap string hashptr) (n : string) (a : haddr)
    (rest : list (string * hashptr)) (bs : digest) (e : Error) :
  dirs σ !! d = Some dir → children dir = Some m →
  rangeMap m = (n, Some a) :: rest →
  hashes σ !! a = Some bs → index bs = Err e →
  Walk index rangeMap (S fuel) (NDir d) false logVisit σ
    = (logged σ [NDir d], Err e) ∧
  Walk index rangeMap (S fuel) (NDir d) true logVisit σ = (σ, Err e).
Proof.
  intros Hd Hc Hr Ha He. split; simpl.
  - unfold bind at 1. unfold logVisit at 1. fold (logged σ [NDir d]).
    unfold bind at 1. unfold getDir. simpl. rewrite Hd, Hc. simpl. rewrite Hr.
    unfold bind at 1. rewrite NodeByHash_resolve. simpl. by rewrite Ha, He.
  - unfold bind at 1. unfold ret at 1. unfold bind at 1.
    unfold getDir. rewrite Hd, Hc. simpl. rewrite Hr.
    unfold bind at 1. rewrite NodeByHash_resolve. simpl. by rewrite Ha, He.
Qed.

(** X14. [SetParent] followed by [Parent]: the [parent] of the directory is the
    very hash pointer of the node, so [Parent] asks the store for the
    digest that hash object holds at the time of the call, also after the
    digest was changed in place. *)
Theorem SetParent_then_Parent (σ : Heap) (c : daddr) (dc : Directory)
    (nd : Node) (nm : string) (sz : Z) (hq : haddr) (bs : digest) :
  dirs σ !! c = Some dc →
  nodeInfo σ nd = Some (nm, sz, Some hq) →
  hashes σ !! hq = Some bs →
  ∃ σ', SetParent (NDir c) (Some nd) σ = (σ', Ok tt) ∧
        dparent σ' c = Some hq ∧
        (∀ n, index bs = Ok n → Parent index c σ' = (σ', Ok (Some n))) ∧
        (∀ e, index bs = Err e → Parent index c σ' = (σ', Err e)) ∧
        (∀ bs' n, index bs' = Ok n →
           Parent index c (putHash hq bs' σ').1
             = ((putHash hq bs' σ').1, Ok (Some n))).
Proof.
  intros Hc Hi Hb. destruct (nodeInfo_reads _ _ _ _ _ Hi) as (_ & _ & Hh).
  set (σ' := mkHeap (hashes σ)
               (<[c := mkDirectory (name dc) (size dc) (modTime dc) (Some hq)
                         (hash dc) (children dc) (id dc)]> (dirs σ))
               (files σ) (visited σ)).
  assert (HP : ∀ σ0 bs0, dirs σ0 = dirs σ' → hashes σ0 !! hq = Some bs0 →
            Parent index c σ0
              = (σ0, match index bs0 with
                     | Ok n => Ok (Some n)
                     | Err e => Err e
                     | Panic => Panic
                     | OutOfFuel => OutOfFuel
                     end)).
  { intros σ0 bs0 Hd0 Hb0. unfold Parent. unfold bind at 1. unfold getDir.
    rewrite Hd0. unfold σ'. simpl. rewrite lookup_insert_eq. simpl.
    unfold bind. rewrite NodeByHash_resolve. simpl. rewrite Hb0.
    by destruct (index bs0). }
  exists σ'. repeat split.
  - unfold SetParent. unfold bind at 1. rewrite Hh.
    unfold setParentField, bind, getDir. by rewrite Hc.
  - unfold dparent, σ'. simpl. by rewrite lookup_insert_eq.
  - intros n Hn. pose proof (HP σ' bs eq_refl Hb) as X. by rewrite Hn in X.
  - intros e He. pose proof (HP σ' bs eq_refl Hb) as X. by rewrite He in X.
  - intros bs' n Hn.
    assert (Hb' : hashes (putHash hq bs' σ').1 !! hq = Some bs')
      by (simpl; by rewrite lookup_insert_eq).
    pose proof (HP (putHash hq bs' σ').1 bs' eq_refl Hb') as X.
    by rewrite Hn in X.
Qed.

End Descent.

(** ** The further properties at concrete inputs *)

Lemma Up_visits_below_top_witness :
  let seen := λ y : daddr, putFile y (mkFile "seen" 0 None None) in
  Up treeIndex 2 1%nat seen treeHeap = visitAll seen [1%nat] treeHeap ∧
  files (Up treeIndex 2 1%nat seen treeHeap).1 !! 1%nat
    = Some (mkFile "seen" 0 None None) ∧
  files (Up treeIndex 2 1%nat seen treeHeap).1 !! 0%nat
    = Some (mkFile "fileB" 5 None (Some 3%nat)).
Proof.
  intros seen.
  assert (E : Up treeIndex 2 1%nat seen treeHeap
              = visitAll seen [1%nat] treeHeap).
  { apply (Up_visits_below_top treeIndex 2 seen treeHeap 1%nat 0%nat [1%nat]).
    - intros y σ. by split.
    - split; [reflexivity|].
      exists (mkDirectory "dirA" 0 0 (Some 1%nat) (Some 2%nat) (Some ∅) 2),
             0%nat.
      split; [vm_compute; reflexivity|]. split; [by eexists|].
      split; [vm_compute; reflexivity|]. split; [reflexivity|].
      exists (mkDirectory "" 0 0 None (Some 1%nat)
                (Some {[ "dirA" := Some 2%nat ]}) 1).
      split; vm_compute; reflexivity.
    - simpl. lia. }
  split; [exact E|]. rewrite E. split; vm_compute; reflexivity.
Defined.

Lemma Up_cycle_never_returns_witness :
  (Up loopIndex 5 0%nat (λ _, ret tt) loopHeap).2 = OutOfFuel.
Proof.
  apply (Up_cycle_never_returns loopIndex 5 (λ _, ret tt) loopHeap
           (λ y, y = 0%nat) 0%nat).
  - intros y σ. by repeat split.
  - intros y ->.
    exists (mkDirectory "loop" 0 0 (Some 1%nat) (Some 1%nat) (Some ∅) 1), 0%nat.
    split; [vm_compute; reflexivity|]. split; [by eexists|].
    split; [vm_compute; reflexivity|reflexivity].
  - reflexivity.
Defined.

Lemma Add_touches_one_map_witness :
  dirChildren (Add treeIndex map_to_list 3 1%nat (NDir 2%nat) treeHeap).1 1%nat
    = Some {[ "sub" := Some 4%nat ]} ∧
  dirChildren (Add treeIndex map_to_list 3 1%nat (NDir 2%nat) treeHeap).1 0%nat
    = dirChildren treeHeap 0%nat.
Proof.
  destruct (Add_touches_one_map treeIndex map_to_list 3 treeHeap 1%nat
              (mkDirectory "dirA" 0 0 (Some 1%nat) (Some 2%nat) (Some ∅) 2)
              ∅ (NDir 2%nat) "sub" 7 (Some 4%nat))
    as (H1 & H2 & _);
    [vm_compute; reflexivity|vm_compute; reflexivity|vm_compute; reflexivity|].
  split; [exact H1|apply H2; lia].
Defined.

Lemma RemoveChild_touches_one_map_witness :
  dirChildren (RemoveChild treeIndex map_to_list 3 1%nat (NDir 2%nat)
                 (treeWith {[ "sub" := Some 4%nat ]} 7)).1 1%nat
    = Some (delete "sub" {[ "sub" := Some 4%nat ]}) ∧
  dirChildren (RemoveChild treeIndex map_to_list 3 1%nat (NDir 2%nat)
                 (treeWith {[ "sub" := Some 4%nat ]} 7)).1 0%nat
    = dirChildren (treeWith {[ "sub" := Some 4%nat ]} 7) 0%nat.
Proof.
  destruct (RemoveChild_touches_one_map treeIndex map_to_list 3
              (treeWith {[ "sub" := Some 4%nat ]} 7) 1%nat
              (mkDirectory "dirA" 7 0 (Some 1%nat) (Some 2%nat)
                 (Some {[ "sub" := Some 4%nat ]}) 2)
              {[ "sub" := Some 4%nat ]} (NDir 2%nat) "sub" 7 (Some 4%nat))
    as (H1 & H2 & _);
    [vm_compute; reflexivity|vm_compute; reflexivity|vm_compute; by eauto
    |vm_compute; reflexivity|discriminate|].
  split; [exact H1|apply H2; lia].
Defined.

Lemma NChildren_after_mutation_witness :
  NChildren 1%nat treeHeap = (treeHeap, Ok 0) ∧
  (NChildren 1%nat
     (Add treeIndex map_to_list 3 1%nat (NDir 2%nat) treeHeap).1).2 = Ok 1.
Proof.
  destruct (NChildren_after_mutation treeIndex map_to_list 3 treeHeap 1%nat
              (mkDirectory "dirA" 0 0 (Some 1%nat) (Some 2%nat) (Some ∅) 2)
              ∅ (NDir 2%nat) "sub" 7 (Some 4%nat))
    as (H1 & H2 & _);
    [vm_compute; reflexivity|vm_compute; reflexivity|vm_compute; reflexivity|].
  split; [exact H1|apply H2; reflexivity].
Defined.

Lemma xorHash_rewrites_parents_witness :
  ∃ σ', xorHash treeIndex map_to_list 1%nat (Some 5%nat)
          (treeWith {[ "sub" := Some 4%nat ]} 7) = (σ', Ok tt) ∧
        dirDigest σ' 1%nat = Some [2%N; 16%N] ∧
        dparent σ' 2%nat = Some 2%nat.
Proof.
  destruct (xorHash_rewrites_parents treeIndex map_to_list
              (treeWith {[ "sub" := Some 4%nat ]} 7) 1%nat
              (mkDirectory "dirA" 7 0 (Some 1%nat) (Some 2%nat)
                 (Some {[ "sub" := Some 4%nat ]}) 2)
              {[ "sub" := Some 4%nat ]} 2%nat 5%nat [2%N; 0%N] [0%N; 16%N])
    as (σ' & H1 & H2 & H3 & _).
  - reflexivity.
  - vm_compute; reflexivity.
  - vm_compute; reflexivity.
  - vm_compute; reflexivity.
  - vm_compute; reflexivity.
  - vm_compute; reflexivity.
  - reflexivity.
  - intros n h [<- <-]%lookup_singleton_Some. split; [discriminate|].
    exists 2%nat. split; [vm_compute; reflexivity|vm_compute; by eauto].
  - exists σ'. split; [exact H1|]. split; [exact H2|].
    apply (H3 "sub" (Some 4%nat) 2%nat); vm_compute; reflexivity.
Defined.

Lemma newEmptyDirectory_under_root_witness :
  ∃ σ' d, newEmptyDirectory treeIndex map_to_list 1 (Ok [7%N]) (Ok 9)
            (Some 0%nat) "new" treeHeap = (σ', Ok d) ∧
          dirs treeHeap !! d = None ∧
          parent <$> dirs σ' !! d = Some None ∧
          children <$> dirs σ' !! d = Some None.
Proof.
  destruct (newEmptyDirectory_under_root treeIndex map_to_list 0 treeHeap
              0%nat
              (mkDirectory "" 0 0 None (Some 1%nat)
                 (Some {[ "dirA" := Some 2%nat ]}) 1)
              {[ "dirA" := Some 2%nat ]} [7%N] 9 "new")
    as (σ' & d & h & H1 & H2 & _ & H4 & _);
    [vm_compute; reflexivity|reflexivity|reflexivity|].
  exists σ', d. rewrite H4. by repeat split.
Defined.

Lemma ToProto_names_links_witness :
  ∃ msg, ToProto map_to_list marshalTime 1%nat
           (treeWith {[ "fileB" := Some 3%nat ]} 5)
         = (treeWith {[ "fileB" := Some 3%nat ]} 5, Ok msg) ∧
         length (wire.GetNames (wire.Directory' msg)) = 1%nat ∧
         length (wire.GetLinks (wire.Directory' msg)) = 1%nat.
Proof.
  eexists. split; [vm_compute; reflexivity|].
  edestruct (ToProto_names_links map_to_list marshalTime
               (treeWith {[ "fileB" := Some 3%nat ]} 5)
               (treeWith {[ "fileB" := Some 3%nat ]} 5) 1%nat
               (mkDirectory "dirA" 5 0 (Some 1%nat) (Some 2%nat)
                  (Some {[ "fileB" := Some 3%nat ]}) 2))
    as (_ & H1 & H2 & _);
    [intros m; reflexivity|vm_compute; reflexivity|vm_compute; reflexivity|].
  split; [exact H1|exact H2].
Defined.

Lemma FromProto_error_states_witness :
  ∃ σ', FromProto unmarshalTime 1%nat (message ["a"] [[1%N]])
          (treeWith {[ "sub" := Some 4%nat ]} 7)
          = (σ', Err (MalformedInput "n")) ∧
        dirChildren σ' 1%nat = Some ∅ ∧ dirSize σ' 1%nat = Some 0.
Proof.
  destruct (FromProto_error_states unmarshalTime
              (treeWith {[ "sub" := Some 4%nat ]} 7) 1%nat
              (mkDirectory "dirA" 7 0 (Some 1%nat) (Some 2%nat)
                 (Some {[ "sub" := Some 4%nat ]}) 2)
              (message ["a"] [[1%N]])) as [_ H]; [vm_compute; reflexivity|].
  destruct (H 0) as (σ' & pa & ha & H1 & H2);
    [reflexivity|discriminate|discriminate|].
  exists σ'. split; [exact H1|]. unfold dirChildren, dirSize. rewrite H2.
  by split.
Defined.

Lemma FromProto_without_names_witness :
  ∃ σ', FromProto unmarshalTime 1%nat (message [] [[1%N]])
          (treeWith {[ "sub" := Some 4%nat ]} 7) = (σ', Ok tt) ∧
        dirChildren σ' 1%nat = Some ∅ ∧ dirDigest σ' 1%nat = Some [9%N].
Proof.
  destruct (FromProto_without_names unmarshalTime
              (treeWith {[ "sub" := Some 4%nat ]} 7) 1%nat
              (mkDirectory "dirA" 7 0 (Some 1%nat) (Some 2%nat)
                 (Some {[ "sub" := Some 4%nat ]}) 2)
              (message [] [[1%N]]) 0)
    as (σ' & pa & ha & H1 & H2 & _ & _ & _ & _ & H7 & _);
    [vm_compute; reflexivity|reflexivity|reflexivity|].
  exists σ'. split; [exact H1|]. unfold dirChildren, dirDigest. rewrite H2.
  simpl. by rewrite H7.
Defined.

Lemma FromProto_ToProto_childless_witness :
  ∃ msg σ3, ToProto map_to_list marshalTime 1%nat treeHeap
              = (treeHeap, Ok msg) ∧
            FromProto unmarshalTime 2%nat msg treeHeap = (σ3, Ok tt) ∧
            name <$> dirs σ3 !! 2%nat = Some "dirA" ∧
            dirDigest σ3 2%nat = Some [2%N; 0%N].
Proof.
  assert (Hto : ∃ msg, ToProto map_to_list marshalTime 1%nat treeHeap
                       = (treeHeap, Ok msg))
    by (eexists; vm_compute; reflexivity).
  destruct Hto as [msg Hto].
  destruct (FromProto_ToProto_childless map_to_list marshalTime unmarshalTime
              treeHeap treeHeap treeHeap 1%nat 2%nat
              (mkDirectory "dirA" 0 0 (Some 1%nat) (Some 2%nat) (Some ∅) 2)
              (mkDirectory "sub" 7 0 None (Some 4%nat) (Some ∅) 3) msg)
    as (σ3 & dir3 & H1 & H2 & H3 & _ & _ & _ & _ & H8 & _).
  - intros m. reflexivity.
  - intros t bs. unfold marshalTime, unmarshalTime.
    case_decide; [|done]. intros [= <-]. by rewrite Z2N.id.
  - vm_compute; reflexivity.
  - reflexivity.
  - exact Hto.
  - vm_compute; reflexivity.
  - exists msg, σ3. split; [exact Hto|]. split; [exact H1|].
    split.
    + etransitivity; [exact (f_equal (fmap name) H2)|]. simpl. by rewrite H3.
    + etransitivity; [exact H8|]. vm_compute. reflexivity.
Defined.

Lemma Walk_one_path_witness :
  Walk treeIndex map_to_list 3 (NDir 0%nat) false logVisit
       (treeWith {[ "sub" := Some 4%nat ]} 7)
    = (logged (treeWith {[ "sub" := Some 4%nat ]} 7)
         [NDir 0%nat; NDir 1%nat; NDir 2%nat], Ok tt) ∧
  Walk treeIndex map_to_list 3 (NDir 0%nat) true logVisit
       (treeWith {[ "sub" := Some 4%nat ]} 7)
    = (logged (treeWith {[ "sub" := Some 4%nat ]} 7) [NDir 2%nat], Ok tt).
Proof.
  apply (Walk_one_path treeIndex map_to_list 3
           (treeWith {[ "sub" := Some 4%nat ]} 7) (NDir 0%nat) (NDir 2%nat)
           [NDir 0%nat; NDir 1%nat]).
  - split; [reflexivity|].
    exists 0%nat, (mkDirectory "" 7 0 None (Some 1%nat)
                     (Some {[ "dirA" := Some 2%nat ]}) 1),
           "dirA", (Some 2%nat), [], (NDir 1%nat).
    split; [reflexivity|]. split; [vm_compute; reflexivity|].
    split; [vm_compute; reflexivity|]. split; [vm_compute; reflexivity|].
    split; [reflexivity|].
    exists 1%nat, (mkDirectory "dirA" 7 0 (Some 1%nat) (Some 2%nat)
                     (Some {[ "sub" := Some 4%nat ]}) 2),
           "sub", (Some 4%nat), [], (NDir 2%nat).
    split; [reflexivity|]. split; [vm_compute; reflexivity|].
    split; [vm_compute; reflexivity|]. split; [vm_compute; reflexivity|].
    split; [reflexivity|].
    exists (mkDirectory "sub" 7 0 None (Some 4%nat) (Some ∅) 3).
    split; vm_compute; reflexivity.
  - simpl. lia.
Defined.

Lemma Walk_unresolved_child_witness :
  Walk treeIndex map_to_list 1 (NDir 0%nat) false logVisit walkHeap
    = (logged walkHeap [NDir 0%nat], Err ErrNotFound) ∧
  Walk treeIndex map_to_list 1 (NDir 0%nat) true logVisit walkHeap
    = (walkHeap, Err ErrNotFound).
Proof.
  apply (Walk_unresolved_child treeIndex map_to_list 0 walkHeap 0%nat
           (mkDirectory "top" 3 0 None (Some 3%nat)
              (Some {[ "a" := Some 1%nat; "b" := Some 2%nat ]}) 1)
           {[ "a" := Some 1%nat; "b" := Some 2%nat ]} "a" 1%nat
           [("b", Some 2%nat)] [1%N] ErrNotFound);
    vm_compute; reflexivity.
Defined.

Lemma SetParent_then_Parent_witness :
  ∃ σ', SetParent (NDir 2%nat) (Some (NDir 1%nat)) treeHeap = (σ', Ok tt) ∧
        Parent treeIndex 2%nat σ' = (σ', Ok (Some (NDir 1%nat))).
Proof.
  destruct (SetParent_then_Parent treeIndex treeHeap 2%nat
              (mkDirectory "sub" 7 0 None (Some 4%nat) (Some ∅) 3)
              (NDir 1%nat) "dirA" 0 2%nat [2%N; 0%N])
    as (σ' & H1 & _ & H3 & _);
    [vm_compute; reflexivity|vm_compute; reflexivity|vm_compute; reflexivity|].
  exists σ'. split; [exact H1|]. apply H3. reflexivity.
Defined.

(** ** The walk at any directory of the upward path *)

Section FirstFailure.

Variable index : digest → outcome Node.
Variable rangeMap : gmap string hashptr → list (string * hashptr).

Lemma DirectoryByHash_lookupDir h σ :
  DirectoryByHash index h σ = (σ, lookupDir index (hashes σ) h).
Proof.
  unfold DirectoryByHash, bind, lookupDir. rewrite NodeByHash_resolve.
  by destruct (resolve index (hashes σ) h) as [[c|f]| | |].
Qed.

Lemma lookupDir_Ok hs h c :
  lookupDir index hs h = Ok c ↔ resolve index hs h = Ok (NDir c).
Proof.
  unfold lookupDir.
  destruct (resolve index hs h) as [[c'|f]| | |]; split; intros H;
    by simplify_eq.
Qed.

Lemma visitLinks_app (fn : daddr → M unit) l1 l2 σ σ1 :
  visitLinks index fn l1 σ = (σ1, Ok tt) →
  visitLinks index fn (l1 ++ l2) σ = visitLinks index fn l2 σ1.
Proof.
  revert σ. induction l1 as [|[n h] l1 IH]; intros σ; simpl.
  - by intros [= ->].
  - unfold bind.
    destruct (DirectoryByHash index h σ) as [σa [c| | |]]; try done.
    destruct (fn c σa) as [σb [[]| | |]]; try done.
    apply IH.
Qed.

(** One round of the loop, and the walk from a state of the path. *)
Lemma Up_reaches (visit : daddr → M unit) s s' :
  reaches index visit s s' →
  Up index s.1.1 s.1.2 visit s.2 = Up index s'.1.1 s'.1.2 visit s'.2.
Proof.
  induction 1 as [s|fuel y σ dir σ1 dir1 next s Hd [pp Hp] Hv Hd1 Hn _ IH];
    [done|].
  rewrite <- IH. simpl. unfold bind at 1. unfold getDir at 1. rewrite Hd, Hp.
  unfold bind at 1. destruct (logVisit (NDir y) σ) as [σl ol] eqn:Hl.
  unfold logVisit in Hl. injection Hl as <- <-.
  simpl in Hv. unfold bind at 1. rewrite Hv.
  unfold bind at 1. unfold getDir at 1. rewrite Hd1.
  unfold bind at 1. by rewrite Hn.
Qed.

(** The visit of one directory, up to the loop over its children. *)
Lemma sizeVisit_unfold f σ y diry my hp hq (a b : digest) :
  dirs σ !! y = Some diry → children diry = Some my → hash diry = Some hp →
  hashes σ !! hp = Some a → hashes σ !! hq = Some b →
  length a = length b →
  sizeVisit index rangeMap f (Some hq) y σ
  = visitLinks index (λ child, SetParent (NDir child) (Some (NDir y)))
      (rangeMap my)
      (mkHeap (<[hp := xorBytes a b]> (hashes σ))
         (<[y := mkDirectory (name diry) (f (size diry)) (modTime diry)
                   (parent diry) (hash diry) (children diry) (id diry)]>
            (dirs σ)) (files σ) (visited σ)).
Proof.
  intros Hd Hc Hh Ha Hb Hlen.
  unfold sizeVisit. unfold bind at 1. unfold getDir. rewrite Hd.
  unfold bind at 1. unfold setSize, bind, getDir. rewrite Hd. simpl.
  unfold xorHash. unfold bind at 1. unfold getDir. simpl.
  rewrite lookup_insert_eq. simpl. rewrite Hh. unfold bind at 1.
  erewrite Xor_some; [|exact Ha|exact Hb]. rewrite decide_True by done.
  simpl. unfold VisitChildren. unfold bind at 1. unfold getDir. simpl.
  rewrite lookup_insert_eq. simpl. by rewrite Hc.
Qed.

(** The children enumerated before the first one whose lookup fails get
    their parent rewritten, then the error of that lookup comes back. *)
Lemma sizeVisit_first_failure f σ y diry my hp hq (a b : digest)
    pre n h post cs e :
  dirs σ !! y = Some diry → children diry = Some my →
  rangeMap my = pre ++ (n, h) :: post →
  hash diry = Some hp →
  hashes σ !! hp = Some a → hashes σ !! hq = Some b →
  length a = length b →
  Forall2 (λ x c, lookupDir index (<[hp := xorBytes a b]> (hashes σ)) x.2 = Ok c ∧
                  is_Some (dirs σ !! c)) pre cs →
  lookupDir index (<[hp := xorBytes a b]> (hashes σ)) h = Err e →
  (sizeVisit index rangeMap f (Some hq) y σ).2 = Err e ∧
  Forall (λ c, dparent (sizeVisit index rangeMap f (Some hq) y σ).1 c = Some hp)
         cs.
Proof.
  intros Hd Hc Hr Hh Ha Hb Hlen Hpre He.
  rewrite (sizeVisit_unfold f σ y diry my hp hq a b Hd Hc Hh Ha Hb Hlen), Hr.
  set (σx := mkHeap (<[hp := xorBytes a b]> (hashes σ))
               (<[y := mkDirectory (name diry) (f (size diry)) (modTime diry)
                         (parent diry) (hash diry) (children diry) (id diry)]>
                  (dirs σ)) (files σ) (visited σ)).
  destruct (visitLinks_setParent index y hp pre σx)
    as (σ1 & V1 & V2 & _ & _ & _ & V6 & _).
  { unfold dhash. simpl. rewrite lookup_insert_eq. simpl. done. }
  { intros n' h' Hin. apply list_elem_of_lookup_1 in Hin as [i Hi].
    destruct (Forall2_lookup_l _ _ _ _ _ Hpre Hi) as (c & _ & Hl & Hs).
    exists c. simpl in Hl. split; [by apply lookupDir_Ok|].
    simpl. destruct (decide (c = y)) as [->|].
    - rewrite lookup_insert_eq. by eauto.
    - by rewrite lookup_insert_ne. }
  rewrite (visitLinks_app _ pre ((n, h) :: post) σx σ1 V1).
  assert (E : visitLinks index
                (λ child, SetParent (NDir child) (Some (NDir y)))
                ((n, h) :: post) σ1 = (σ1, Err e)).
  { simpl. unfold bind at 1. rewrite DirectoryByHash_lookupDir, V2. simpl.
    by rewrite He. }
  rewrite E. simpl. split; [done|].
  apply Forall_lookup_2. intros i c Hi.
  destruct (Forall2_lookup_r _ _ _ _ _ Hpre Hi) as ([n' h'] & Hi' & Hl & _).
  simpl in Hl. apply (V6 n' h' c).
  - by eapply list_elem_of_lookup_2.
  - by apply lookupDir_Ok.
Qed.

(** When all children resolve to directories the visit returns nil and all
    of them have their parent rewritten. *)
Lemma sizeVisit_all_resolve f σ y diry my hp hq (a b : digest) cs :
  dirs σ !! y = Some diry → children diry = Some my →
  hash diry = Some hp →
  hashes σ !! hp = Some a → hashes σ !! hq = Some b →
  length a = length b →
  Forall2 (λ x c, lookupDir index (<[hp := xorBytes a b]> (hashes σ)) x.2 = Ok c ∧
                  is_Some (dirs σ !! c)) (rangeMap my) cs →
  ∃ σ1, sizeVisit index rangeMap f (Some hq) y σ = (σ1, Ok tt) ∧
        dirSize σ1 y = Some (f (size diry)) ∧
        dirDigest σ1 y = Some (xorBytes a b) ∧
        Forall (λ c, dparent σ1 c = Some hp) cs ∧
        visited σ1 = visited σ.
Proof.
  intros Hd Hc Hh Ha Hb Hlen Hall.
  rewrite (sizeVisit_unfold f σ y diry my hp hq a b Hd Hc Hh Ha Hb Hlen).
  set (σx := mkHeap (<[hp := xorBytes a b]> (hashes σ))
               (<[y := mkDirectory (name diry) (f (size diry)) (modTime diry)
                         (parent diry) (hash diry) (children diry) (id diry)]>
                  (dirs σ)) (files σ) (visited σ)).
  destruct (visitLinks_setParent index y hp (rangeMap my) σx)
    as (σ1 & V1 & V2 & V3 & _ & V5 & V6 & _).
  { unfold dhash. simpl. rewrite lookup_insert_eq. simpl. done. }
  { intros n' h' Hin. apply list_elem_of_lookup_1 in Hin as [i Hi].
    destruct (Forall2_lookup_l _ _ _ _ _ Hall Hi) as (c & _ & Hl & Hs).
    exists c. simpl in Hl. split; [by apply lookupDir_Ok|].
    simpl. destruct (decide (c = y)) as [->|].
    - rewrite lookup_insert_eq. by eauto.
    - by rewrite lookup_insert_ne. }
  exists σ1. split; [exact V1|]. split_and!.
  - unfold dirSize. destruct (V5 y) as (_ & -> & _). simpl.
    by rewrite lookup_insert_eq.
  - unfold dirDigest. destruct (V5 y) as (_ & _ & Hh' & _). simpl in Hh'.
    rewrite lookup_insert_eq in Hh'. simpl in Hh'.
    destruct (dirs σ1 !! y) as [dy|]; [|done]. simpl in *.
    injection Hh' as ->. rewrite Hh. simpl. rewrite V2. simpl.
    by rewrite lookup_insert_eq.
  - apply Forall_lookup_2. intros i c Hi.
    destruct (Forall2_lookup_r _ _ _ _ _ Hall Hi) as ([n' h'] & Hi' & Hl & _).
    simpl in Hl. apply (V6 n' h' c).
    + by eapply list_elem_of_lookup_2.
    + by apply lookupDir_Ok.
  - by rewrite V3.
Qed.

(** The walk from a directory in which that happens. *)
Lemma Up_first_failure fuel f σ y diry my hp hq (a b : digest)
    pre n h post cs e :
  dirs σ !! y = Some diry → is_Some (parent diry) →
  children diry = Some my →
  rangeMap my = pre ++ (n, h) :: post →
  hash diry = Some hp →
  hashes σ !! hp = Some a → hashes σ !! hq = Some b →
  length a = length b →
  Forall2 (λ x c, lookupDir index (<[hp := xorBytes a b]> (hashes σ)) x.2 = Ok c ∧
                  is_Some (dirs σ !! c)) pre cs →
  lookupDir index (<[hp := xorBytes a b]> (hashes σ)) h = Err e →
  ∃ σ', Up index (S fuel) y (sizeVisit index rangeMap f (Some hq)) σ
          = (σ', Err e) ∧
        afterVisit σ σ' y (f (size diry)) (xorBytes a b) hp cs.
Proof.
  intros Hd [p Hp] Hc Hr Hh Ha Hb Hlen Hpre He.
  destruct (sizeVisit_first_failure f (logged σ [NDir y]) y diry my hp hq a b
              pre n h post cs e Hd Hc Hr Hh Ha Hb Hlen Hpre He) as [Hres Hpar].
  pose proof (sizeVisit_size index rangeMap f (Some hq) (logged σ [NDir y]) y
                diry Hd) as Hs.
  pose proof (sizeVisit_bytes index rangeMap f (logged σ [NDir y]) y diry hp hq
                a b Hd Hh Ha Hb) as Hbs.
  pose proof (sizeVisit_quiet index rangeMap f (Some hq) (logged σ [NDir y]) y)
    as [F V].
  rewrite decide_True in Hbs by done.
  simpl. unfold bind at 1. unfold getDir. rewrite Hd, Hp.
  unfold bind at 1. simpl. fold (logged σ [NDir y]). unfold bind at 1.
  destruct (sizeVisit index rangeMap f (Some hq) y (logged σ [NDir y]))
    as [σ' r]. simpl in *. subst r.
  exists σ'. split; [done|]. repeat split; try done.
  unfold dirDigest.
  destruct (frame_dir _ _ _ _ _ _ F Hd) as (dir' & Hd' & Hh' & _).
  rewrite Hd'. simpl. rewrite Hh', Hh. simpl. done.
Qed.

Lemma RemoveChild_start fuel σ d dir m nd nm sz h :
  dirs σ !! d = Some dir → children dir = Some m → is_Some (m !! nm) →
  nodeInfo σ nd = Some (nm, sz, h) → nd ≠ NDir d →
  RemoveChild index rangeMap fuel d nd σ
  = Up index fuel d (removeVisit index rangeMap sz h)
       (removeStart d dir m nm nd σ).
Proof.
  intros Hd Hc [x Hx] Hi Hne.
  destruct (nodeInfo_reads _ _ _ _ _ Hi) as (Hn & _ & _).
  destruct (SetParent_nil _ _ _ _ _ _ _ Hd Hi Hne)
    as (σb & Hsp & Hdb & Hhb & Hvb & Hdhb & Hsb & Hib).
  unfold removeStart. rewrite Hsp. simpl.
  unfold RemoveChild. unfold bind at 1. rewrite Hn.
  unfold bind at 1. unfold getDir. rewrite Hd, Hc. simpl. rewrite Hx.
  unfold bind at 1. rewrite Hsp. unfold bind at 1. rewrite Hdb, Hc. simpl.
  unfold bind at 1. rewrite (setChildren_eq _ _ _ _ Hdb).
  assert (Hi' : nodeInfo (putDir d (withChildren dir (delete nm m)) σb).1 nd
                = Some (nm, sz, h)).
  { by rewrite (nodeInfo_putDir _ _ dir). }
  destruct (nodeInfo_reads _ _ _ _ _ Hi') as (_ & Hs' & Hh').
  simpl in *. unfold bind at 1. rewrite Hs'. unfold bind at 1.
  by rewrite Hh'.
Qed.

(** C10, amended. During [Add] and [RemoveChild], at every directory [y] of
    the upward path (the walk stands at [y] in the heap [σy]) whose digest
    and the digest of the node have the same length: the visit updates the
    size of [y], then its digest, then resolves its children with
    [DirectoryByHash] one after the other in the order of the enumeration,
    and gives every child resolved the hash object of [y] as its parent.
    When every child resolves to a directory, the visit returns nil with
    all of them rewritten.  Otherwise the first child whose lookup fails
    ends the mutation with the error of that lookup, which is the
    type-mismatch error when that child resolves to a file; by then the
    size and the digest of [y] are the new ones, the children enumerated
    before have their parent rewritten, and no directory above [y] has
    been visited. *)
Theorem mutation_visits_children (fuel fuel' : nat)
    (σ σy : Heap) (d y : daddr) (dir diry : Directory)
    (m my : gmap string hashptr) (nd : Node) (nm : string) (sz : Z)
    (hq hp : haddr) (a b : digest) :
  dirs σ !! d = Some dir → children dir = Some m →
  nodeInfo σ nd = Some (nm, sz, Some hq) →
  dirs σy !! y = Some diry → is_Some (parent diry) →
  children diry = Some my → hash diry = Some hp →
  hashes σy !! hp = Some a → hashes σy !! hq = Some b →
  length a = length b →
  let resolved := Forall2 (λ x c,
        lookupDir index (<[hp := xorBytes a b]> (hashes σy)) x.2 = Ok c ∧
        is_Some (dirs σy !! c)) in
  (∀ cs, resolved (rangeMap my) cs →
     (∃ σ1, addVisit index rangeMap sz (Some hq) y (logVisit (NDir y) σy).1
              = (σ1, Ok tt) ∧
            afterVisit σy σ1 y (wrap64 (size diry + sz)) (xorBytes a b) hp cs) ∧
     (∃ σ1, removeVisit index rangeMap sz (Some hq) y (logVisit (NDir y) σy).1
              = (σ1, Ok tt) ∧
            afterVisit σy σ1 y (wrap64 (size diry - sz)) (xorBytes a b) hp cs)) ∧
  (∀ pre n h post cs e,
     rangeMap my = pre ++ (n, h) :: post → resolved pre cs →
     lookupDir index (<[hp := xorBytes a b]> (hashes σy)) h = Err e →
     (reaches index (addVisit index rangeMap sz (Some hq))
              (fuel, d, addStart d dir m nm (Some hq) σ) (S fuel', y, σy) →
      ∃ σ', Add index rangeMap fuel d nd σ = (σ', Err e) ∧
            afterVisit σy σ' y (wrap64 (size diry + sz)) (xorBytes a b) hp cs) ∧
     (is_Some (m !! nm) → nd ≠ NDir d →
      reaches index (removeVisit index rangeMap sz (Some hq))
              (fuel, d, removeStart d dir m nm nd σ) (S fuel', y, σy) →
      ∃ σ', RemoveChild index rangeMap fuel d nd σ = (σ', Err e) ∧
            afterVisit σy σ' y (wrap64 (size diry - sz)) (xorBytes a b) hp cs) ∧
     (∀ fl, resolve index (<[hp := xorBytes a b]> (hashes σy)) h
            = Ok (NFile fl) → e = ErrTypeMismatch)).
Proof.
  intros Hd Hc Hi Hdy Hpy Hcy Hh Ha Hb Hlen resolved. split.
  - intros cs Hall. split.
    + destruct (sizeVisit_all_resolve (λ s, wrap64 (s + sz))
                  (logVisit (NDir y) σy).1 y diry my hp hq a b cs)
        as (σ1 & H1 & H2 & H3 & H4 & H5); try done.
      exists σ1. split; [exact H1|]. by split_and!.
    + destruct (sizeVisit_all_resolve (λ s, wrap64 (s - sz))
                  (logVisit (NDir y) σy).1 y diry my hp hq a b cs)
        as (σ1 & H1 & H2 & H3 & H4 & H5); try done.
      exists σ1. split; [exact H1|]. by split_and!.
  - intros pre n h post cs e Hr Hpre He. split; [|split].
    + intros Hreach. rewrite (Add_unfold _ _ _ _ _ _ _ _ _ _ _ Hd Hc Hi).
      pose proof (Up_reaches _ _ _ Hreach) as E. simpl in E.
      unfold addStart in E. rewrite E, addVisit_sizeVisit.
      by apply (Up_first_failure fuel' (λ s, wrap64 (s + sz)) σy y diry my hp
                  hq a b pre n h post cs e).
    + intros Hx Hne Hreach.
      rewrite (RemoveChild_start _ _ _ _ _ _ _ _ _ Hd Hc Hx Hi Hne).
      pose proof (Up_reaches _ _ _ Hreach) as E. simpl in E.
      rewrite E, removeVisit_sizeVisit.
      by apply (Up_first_failure fuel' (λ s, wrap64 (s - sz)) σy y diry my hp
                  hq a b pre n h post cs e).
    + intros fl Hfl. unfold lookupDir in He. rewrite Hfl in He. congruence.
Qed.

End FirstFailure.

(** In the path G, P, d: [Add] of "new" to d updates d and then P.  The
    child "f" of P resolves to a file, and still the error that comes back
    depends on the enumeration: with d enumerated first, whose new digest
    the store does not know, it is the not-found error of that lookup; with
    "f" enumerated first it is the type-mismatch error. *)
Lemma file_child_other_error :
  let r := Add (pathIndex false) rangeBack 3 2%nat (NDir 3%nat) pathHeap in
  let r' := Add (pathIndex false) map_to_list 3 2%nat (NDir 3%nat) pathHeap in
  newVisits pathHeap r.1 = [NDir 2%nat; NDir 1%nat] ∧
  dirChildren r.1 1%nat = Some {[ "d" := Some 3%nat; "f" := Some 4%nat ]} ∧
  resolve (pathIndex false) (hashes r.1) (Some 4%nat) = Ok (NFile 0%nat) ∧
  r.2 = Err ErrNotFound ∧
  newVisits pathHeap r'.1 = [NDir 2%nat; NDir 1%nat] ∧
  r'.2 = Err ErrTypeMismatch ∧
  r.2 ≠ Err ErrTypeMismatch.
Proof. cbv zeta. repeat split; vm_compute; congruence. Qed.

Lemma mutation_visits_children_witness :
  ∃ σ', Add (pathIndex true) rangeBack 3 2%nat (NDir 3%nat) pathHeap
          = (σ', Err ErrTypeMismatch) ∧
        dparent pathHeap 2%nat = Some 6%nat ∧
        afterVisit (addVisit (pathIndex true) rangeBack 7 (Some 5%nat) 2%nat
                      (logVisit (NDir 2%nat)
                         (addStart 2%nat
                            (mkDirectory "d" 0 0 (Some 6%nat) (Some 3%nat)
                               (Some ∅) 3)
                            ∅ "new" (Some 5%nat) pathHeap)).1).1
                   σ' 1%nat 7 [2%N; 8%N] 2%nat [2%nat].
Proof.
  set (dird := mkDirectory "d" 0 0 (Some 6%nat) (Some 3%nat) (Some ∅) 3).
  set (σ0 := addStart 2%nat dird ∅ "new" (Some 5%nat) pathHeap).
  set (σy := (addVisit (pathIndex true) rangeBack 7 (Some 5%nat) 2%nat
                (logVisit (NDir 2%nat) σ0).1).1).
  destruct (mutation_visits_children (pathIndex true) rangeBack
              3 1 pathHeap σy 2%nat 1%nat dird
              (mkDirectory "P" 0 0 (Some 1%nat) (Some 2%nat)
                 (Some {[ "d" := Some 3%nat; "f" := Some 4%nat ]}) 2)
              ∅ {[ "d" := Some 3%nat; "f" := Some 4%nat ]}
              (NDir 3%nat) "new" 7 5%nat 2%nat [2%N; 0%N] [0%N; 8%N])
    as (_ & HF).
  - vm_compute; reflexivity.
  - reflexivity.
  - vm_compute; reflexivity.
  - vm_compute; reflexivity.
  - by eexists.
  - reflexivity.
  - reflexivity.
  - vm_compute; reflexivity.
  - vm_compute; reflexivity.
  - reflexivity.
  - destruct (HF [("d", Some 3%nat)] "f" (Some 4%nat) [] [2%nat]
                ErrTypeMismatch) as (HA & _ & _).
    + vm_compute; reflexivity.
    + constructor; [|constructor]. split; [vm_compute; reflexivity|].
      vm_compute. by eexists.
    + vm_compute; reflexivity.
    + destruct HA as (σ' & H1 & H2).
      * eapply (reaches_up _ _ 2 2%nat σ0
                  (withChildren dird {[ "new" := Some 5%nat ]}) σy
                  (mkDirectory "d" 7 0 (Some 6%nat) (Some 3%nat)
                     (Some {[ "new" := Some 5%nat ]}) 3) 1%nat).
        -- vm_compute; reflexivity.
        -- by eexists.
        -- vm_compute; reflexivity.
        -- vm_compute; reflexivity.
        -- vm_compute; reflexivity.
        -- apply reaches_here.
      * exists σ'. split; [exact H1|]. split; [vm_compute; reflexivity|].
        exact H2.
Defined.

(** ** Sequences of mutations *)

Lemma wrap64_add_l (x y : Z) : wrap64 (wrap64 x + y) = wrap64 (x + y).
Proof. unfold wrap64. by rewrite Zplus_mod_idemp_l. Qed.

Lemma wrap64_sub_l (x y : Z) : wrap64 (wrap64 x - y) = wrap64 (x - y).
Proof. unfold wrap64. by rewrite Zminus_mod_idemp_l. Qed.

Lemma xorBytes_swap (a b c : digest) :
  xorBytes (xorBytes a b) c = xorBytes (xorBytes a c) b.
Proof.
  unfold xorBytes. revert b c.
  induction a as [|x a IH]; intros [|y b] [|z c]; simpl; try done.
  f_equal; [|apply IH].
  by rewrite !N.lxor_assoc, (N.lxor_comm y z).
Qed.

Lemma xorIf_length (a b : digest) : length (xorIf a b) = length a.
Proof. unfold xorIf. case_decide; [by apply xorBytes_length|done]. Qed.

Lemma xorIf_involutive (a b : digest) : xorIf (xorIf a b) b = a.
Proof.
  unfold xorIf. destruct (decide (length a = length b)) as [H|H].
  - rewrite decide_True by (by rewrite xorBytes_length).
    by apply xorBytes_involutive.
  - by rewrite decide_False.
Qed.

Lemma xorIf_eq (a b : digest) :
  length a = length b → xorIf a b = xorBytes a b.
Proof. intros H. unfold xorIf. by rewrite decide_True. Qed.

Lemma xorIf_ne (a b : digest) : length a ≠ length b → xorIf a b = a.
Proof. intros H. unfold xorIf. by rewrite decide_False. Qed.

Lemma xorIf_swap (a b c : digest) : xorIf (xorIf a b) c = xorIf (xorIf a c) b.
Proof.
  destruct (decide (length a = length b)) as [Hb|Hb],
           (decide (length a = length c)) as [Hc|Hc].
  - rewrite (xorIf_eq a b Hb), (xorIf_eq a c Hc).
    rewrite !xorIf_eq by (by rewrite xorBytes_length).
    apply xorBytes_swap.
  - rewrite (xorIf_eq a b Hb), (xorIf_ne a c Hc).
    rewrite (xorIf_eq a b Hb).
    by rewrite xorIf_ne by (by rewrite xorBytes_length).
  - rewrite (xorIf_ne a b Hb), (xorIf_eq a c Hc).
    by rewrite xorIf_ne by (by rewrite xorBytes_length).
  - by rewrite (xorIf_ne a b Hb), (xorIf_ne a c Hc), (xorIf_ne a b Hb).
Qed.

(** [SetParent] changes what no node answers for its name, size and hash. *)
Lemma SetParent_nodeInfo nd par σ x :
  nodeInfo (SetParent nd par σ).1 x = nodeInfo σ x.
Proof.
  destruct x as [e|fl]; simpl.
  - destruct (SetParent_fields nd par σ) as (_ & _ & H).
    destruct (H e) as (_ & Hs & Hh & Hn).
    destruct (dirs (SetParent nd par σ).1 !! e), (dirs σ !! e);
      simplify_eq/=; congruence.
  - unfold SetParent.
    match goal with |- context [bind ?m ?k] => set (K := k) end.
    assert (H : ∀ p, (λ f, (fname f, fsize f, fhash f)) <$> files (K p σ).1 !! fl
                     = (λ f, (fname f, fsize f, fhash f)) <$> files σ !! fl).
    { intros p. unfold K. destruct nd as [d|f]; simpl.
      - unfold setParentField, bind, getDir. by destruct (dirs σ !! d).
      - unfold bind, getFile. destruct (files σ !! f) as [fr|] eqn:Hf; [|done].
        simpl. destruct (decide (fl = f)) as [->|].
        + by rewrite lookup_insert_eq, Hf.
        + by rewrite lookup_insert_ne. }
    clearbody K. unfold bind. destruct par as [n|].
    + pose proof (nodeHash_state n σ) as Hs.
      destruct (nodeHash n σ) as [σ1 [p| | |]]; simpl in Hs; subst σ1;
        [apply H|done..].
    + apply H.
Qed.

Section Sequences.

Variable index : digest → outcome Node.
Variable rangeMap : gmap string hashptr → list (string * hashptr).

(** The walk of a mutation from the heap [σs], in which the children map
    of [d] is already the new one. *)
Lemma walk_step fuel (f : Z → Z) σ σs d diri mi hp hq (ai b : digest)
    (all : list Op) (σ0 : Heap) :
  dirs σs !! d = Some (withChildren diri mi) → is_Some (parent diri) →
  hash diri = Some hp → hashes σs !! hp = Some ai → hashes σs !! hq = Some b →
  visited σs = visited σ → (∀ y, dhash σs y = dhash σ y) →
  let σ' := (Up index (S fuel) d (sizeVisit index rangeMap f (Some hq)) σs).1 in
  untouched σ (tail (newVisits σ σ')) (NDir d) hp →
  Forall (λ x, (opNode x ∉ newVisits σ σ') ∧
               ∀ hq, nodePtr σ0 (opNode x) = Some hq →
                     hq ∉ ownHashes σ (newVisits σ σ')) all →
  (∃ dir', dirs σ' !! d = Some dir' ∧ hash dir' = Some hp ∧
           is_Some (parent dir') ∧ children dir' = Some mi ∧
           size dir' = f (size diri)) ∧
  hashes σ' !! hp = Some (xorIf ai b) ∧
  Forall (λ o, nodeInfo σ' (opNode o) = nodeInfo σs (opNode o) ∧
               ∀ hq, nodePtr σ0 (opNode o) = Some hq →
                     hashes σ' !! hq = hashes σs !! hq) all.
Proof.
  intros Hd Hp Hh Ha Hb Hv Hdh σ'.
  destruct (Up_sizeVisit_effect index rangeMap fuel f hq σs d _ hp ai b Hd)
    as (l & [V F] & S1 & B1); [done..|].
  fold σ' in V, F, S1, B1.
  rewrite (newVisits_app σ σ' (NDir d :: l)) by (by rewrite <- Hv).
  change (tail (NDir d :: l)) with l.
  intros [Hnd Hnh] Hall.
  rewrite <- (ownHashes_ext σ σs) in Hnh by exact Hdh.
  specialize (S1 Hnd). specialize (B1 Hnh).
  destruct (frame_dir _ _ _ _ _ _ F Hd) as (dir1 & Hd1 & Hh1 & Hc1 & _ & Hp1).
  simpl in Hh1, Hc1, Hp1. split; [|split].
  - exists dir1. repeat split; try done.
    + congruence.
    + by apply Hp1.
    + unfold dirSize in S1. rewrite Hd1 in S1. simpl in S1. congruence.
  - done.
  - eapply Forall_impl; [exact Hall|]. intros o [Hn Ho]. split.
    + apply (nodeInfo_frame _ _ _ _ _ F). intros e He Hin.
      apply Hn. by rewrite He.
    + intros hq' Hq. specialize (Ho hq' Hq).
      rewrite <- (ownHashes_ext σ σs) in Ho by exact Hdh.
      by rewrite (frame_bytes _ _ _ _ F hq' Ho).
Qed.

Lemma putDir_dhash σ d diri mi y :
  dirs σ !! d = Some diri →
  dhash (putDir d (withChildren diri mi) σ).1 y = dhash σ y.
Proof.
  intros Hd. unfold dhash. simpl. destruct (decide (y = d)) as [->|].
  - by rewrite lookup_insert_eq, Hd.
  - by rewrite lookup_insert_ne.
Qed.

(** One [Add] of an accepted sequence. *)
Lemma seq_step_add fuel σ0 d dir m0 hp (a : digest) all pend σ nd nm sz hq
    (b : digest) :
  seqInv σ0 d dir m0 hp a all pend σ →
  OpAdd nd ∈ all →
  nodeInfo σ0 nd = Some (nm, sz, Some hq) → hashes σ0 !! hq = Some b →
  m0 !! nm = None → pend !! nm = None →
  let σ' := (Add index rangeMap (S fuel) d nd σ).1 in
  untouched σ (tail (newVisits σ σ')) (NDir d) hp →
  Forall (λ x, (opNode x ∉ newVisits σ σ') ∧
               ∀ hq, nodePtr σ0 (opNode x) = Some hq →
                     hq ∉ ownHashes σ (newVisits σ σ')) all →
  seqInv σ0 d dir m0 hp a all (<[nm := nd]> pend) σ'.
Proof.
  intros ((diri & Hd & Hh & Hp & Hc & Hs) & Hbh & Hall & Hpend) Hin Hi0 Hb0
         Hm0 Hpn.
  assert (Hptr : nodePtr σ0 nd = Some hq) by (unfold nodePtr; by rewrite Hi0).
  assert (Hsz : nodeSz σ0 nd = sz) by (unfold nodeSz; by rewrite Hi0).
  assert (Hdg : nodeDigest σ0 nd = b).
  { unfold nodeDigest. rewrite Hptr.
    exact (f_equal (default []) Hb0). }
  pose proof (proj1 (Forall_forall _ _) Hall _ Hin) as [Hi Hbq]. simpl in Hi, Hbq.
  rewrite Hi0 in Hi. specialize (Hbq hq Hptr).
  assert (Hbq' : hashes σ !! hq = Some b)
    by (etransitivity; [exact Hbq|exact Hb0]).
  clear Hbq. rename Hbq' into Hbq.
  set (mi := (nodePtr σ0 <$> pend) ∪ m0) in *.
  set (ai := map_fold (λ _ n acc, xorIf acc (nodeDigest σ0 n)) a pend) in *.
  rewrite (Add_unfold _ _ _ _ _ _ _ _ _ _ _ Hd Hc Hi), addVisit_sizeVisit.
  set (σs := (putDir d (withChildren diri (<[nm := Some hq]> mi)) σ).1).
  intros σ' Hcl1 Hcl2.
  destruct (walk_step fuel (λ s, wrap64 (s + sz)) σ σs d diri
              (<[nm := Some hq]> mi) hp hq ai b all σ0)
    as ((dir' & Hd' & Hh' & Hp' & Hc' & Hs') & Hbh' & Hall');
    [simpl; apply lookup_insert_eq|done|done|exact Hbh|exact Hbq|done
    |intros y; by apply putDir_dhash|exact Hcl1|exact Hcl2|].
  fold σ' in Hd', Hbh', Hall'.
  split; [|split; [|split]].
  - exists dir'. repeat split; try done.
    + rewrite Hc'. f_equal. unfold mi.
      by rewrite fmap_insert, Hptr, insert_union_l.
    + rewrite Hs', Hs, wrap64_add_l.
      rewrite map_fold_insert_L; [|intros; lia|done].
      rewrite Hsz. f_equal. lia.
  - etransitivity; [exact Hbh'|]. f_equal. unfold ai.
    rewrite map_fold_insert_L; [by rewrite Hdg|intros; apply xorIf_swap|done].
  - apply Forall_forall. intros o Ho.
    pose proof (proj1 (Forall_forall _ _) Hall' _ Ho) as [H1 H2].
    pose proof (proj1 (Forall_forall _ _) Hall _ Ho) as [H3 H4].
    cbv beta in *. split.
    + etransitivity; [exact H1|]. unfold σs.
      by rewrite (nodeInfo_putDir _ _ diri).
    + intros hq' Hq'. etransitivity; [exact (H2 hq' Hq')|]. by apply H4.
  - intros nm' n' Hl. apply lookup_insert_Some in Hl as [[<- <-]|[_ Hl]].
    + split; [done|]. by eauto.
    + by apply Hpend.
Qed.

(** One [RemoveChild] of an accepted sequence. *)
Lemma seq_step_remove fuel σ0 d dir m0 hp (a : digest) all pend σ nd nm sz hq
    (b : digest) :
  seqInv σ0 d dir m0 hp a all pend σ →
  OpRemove nd ∈ all → nd ≠ NDir d →
  nodeInfo σ0 nd = Some (nm, sz, Some hq) → hashes σ0 !! hq = Some b →
  pend !! nm = Some nd →
  let σ' := (RemoveChild index rangeMap (S fuel) d nd σ).1 in
  untouched σ (tail (newVisits σ σ')) (NDir d) hp →
  Forall (λ x, (opNode x ∉ newVisits σ σ') ∧
               ∀ hq, nodePtr σ0 (opNode x) = Some hq →
                     hq ∉ ownHashes σ (newVisits σ σ')) all →
  seqInv σ0 d dir m0 hp a all (delete nm pend) σ'.
Proof.
  intros ((diri & Hd & Hh & Hp & Hc & Hs) & Hbh & Hall & Hpend) Hin Hne Hi0 Hb0
         Hpn.
  assert (Hptr : nodePtr σ0 nd = Some hq) by (unfold nodePtr; by rewrite Hi0).
  assert (Hsz : nodeSz σ0 nd = sz) by (unfold nodeSz; by rewrite Hi0).
  assert (Hdg : nodeDigest σ0 nd = b).
  { unfold nodeDigest. rewrite Hptr. exact (f_equal (default []) Hb0). }
  pose proof (proj1 (Forall_forall _ _) Hall _ Hin) as [Hi Hbq]. simpl in Hi, Hbq.
  rewrite Hi0 in Hi. specialize (Hbq hq Hptr).
  assert (Hbq' : hashes σ !! hq = Some b)
    by (etransitivity; [exact Hbq|exact Hb0]).
  clear Hbq. rename Hbq' into Hbq.
  destruct (Hpend nm nd Hpn) as [Hm0 _].
  set (mi := (nodePtr σ0 <$> pend) ∪ m0) in *.
  set (ai := map_fold (λ _ n acc, xorIf acc (nodeDigest σ0 n)) a pend) in *.
  assert (Hx : is_Some (mi !! nm)).
  { exists (Some hq). unfold mi. apply lookup_union_Some_l.
    by rewrite lookup_fmap, Hpn, <- Hptr. }
  destruct (SetParent_nil _ _ _ _ _ _ _ Hd Hi Hne)
    as (σb & Hsp & Hdb & Hhb & Hvb & Hdhb & _ & _).
  assert (Eb : (SetParent nd None σ).1 = σb) by (by rewrite Hsp).
  set (σs := (putDir d (withChildren diri (delete nm mi)) σb).1).
  assert (E : RemoveChild index rangeMap (S fuel) d nd σ
              = Up index (S fuel) d
                  (sizeVisit index rangeMap (λ s, wrap64 (s - sz)) (Some hq))
                  σs).
  { rewrite (RemoveChild_start index rangeMap _ _ _ _ _ _ _ _ _
               Hd Hc Hx Hi Hne), removeVisit_sizeVisit.
    unfold removeStart. by rewrite Eb. }
  rewrite E.
  intros σ' Hcl1 Hcl2.
  destruct (walk_step fuel (λ s, wrap64 (s - sz)) σ σs d diri
              (delete nm mi) hp hq ai b all σ0)
    as ((dir' & Hd' & Hh' & Hp' & Hc' & Hs') & Hbh' & Hall');
    [simpl; apply lookup_insert_eq|done|done
    |simpl; by rewrite Hhb|simpl; by rewrite Hhb|simpl; done
    |intros y; etransitivity; [exact (putDir_dhash σb d diri _ y Hdb)|apply Hdhb]
    |exact Hcl1|exact Hcl2|].
  fold σ' in Hd', Hbh', Hall'.
  split; [|split; [|split]].
  - exists dir'. repeat split; try done.
    + rewrite Hc'. f_equal. unfold mi.
      by rewrite fmap_delete, delete_union, (delete_id m0).
    + rewrite Hs', Hs.
      rewrite (map_fold_delete_L _ _ nm nd pend); [|intros; lia|done].
      rewrite Hsz, wrap64_sub_l. f_equal. lia.
  - etransitivity; [exact Hbh'|]. f_equal. unfold ai.
    rewrite (map_fold_delete_L _ _ nm nd pend);
      [|intros; apply xorIf_swap|done].
    rewrite Hdg. apply xorIf_involutive.
  - apply Forall_forall. intros o Ho.
    pose proof (proj1 (Forall_forall _ _) Hall' _ Ho) as [H1 H2].
    pose proof (proj1 (Forall_forall _ _) Hall _ Ho) as [H3 H4].
    cbv beta in *. split.
    + etransitivity; [exact H1|]. unfold σs.
      rewrite (nodeInfo_putDir _ _ diri) by done.
      rewrite <- Eb, SetParent_nodeInfo. exact H3.
    + intros hq' Hq'. etransitivity; [exact (H2 hq' Hq')|].
      unfold σs. simpl. rewrite Hhb. by apply H4.
  - intros nm' n' Hl. apply lookup_delete_Some in Hl as [_ Hl].
    by apply Hpend.
Qed.

(** An accepted sequence, run from a heap of the invariant. *)
Lemma seq_run fuel σ0 d dir m0 hp (a : digest) all :
  Forall (λ o, opNode o ≠ NDir d ∧
               ∃ nm sz hq b, nodeInfo σ0 (opNode o) = Some (nm, sz, Some hq) ∧
                             hashes σ0 !! hq = Some b) all →
  ∀ ops pend σ pendF,
    seqInv σ0 d dir m0 hp a all pend σ →
    ops ⊆ all →
    netOps σ0 m0 pend ops = Some pendF →
    cleanRun index rangeMap (S fuel) d hp σ0 all ops σ →
    seqInv σ0 d dir m0 hp a all pendF
           (runOps index rangeMap (S fuel) d ops σ).
Proof.
  intros Hfacts. induction ops as [|o ops IH]; intros pend σ pendF Hinv Hsub Hnet Hcl.
  - simpl in *. by injection Hnet as <-.
  - assert (Hin : o ∈ all) by (apply Hsub; by left).
    assert (Hsub' : ops ⊆ all) by (intros x Hx; apply Hsub; by right).
    destruct (proj1 (Forall_forall _ _) Hfacts _ Hin)
      as (Hne & nm & sz & hq & b & Hi0 & Hb0).
    destruct Hcl as (Hcl1 & Hcl2 & Hcl3).
    simpl in Hnet. rewrite Hi0 in Hnet.
    destruct o as [nd|nd]; simpl in *.
    + destruct (decide (m0 !! nm = None ∧ pend !! nm = None)) as [[H1 H2]|];
        [|done].
      apply (IH (<[nm := nd]> pend)); try done.
      by apply (seq_step_add fuel σ0 d dir m0 hp a all pend σ nd nm sz hq b).
    + destruct (decide (pend !! nm = Some nd)) as [H1|]; [|done].
      apply (IH (delete nm pend)); try done.
      by apply (seq_step_remove fuel σ0 d dir m0 hp a all pend σ nd nm sz hq b).
Qed.

(** Under a root no mutation changes the size or the digest. *)
Lemma root_run fuel d (ops : list Op) :
  ∀ σ σ0 dir,
    dirs σ !! d = Some dir → parent dir = None → is_Some (children dir) →
    (∀ x, nodeInfo σ x = nodeInfo σ0 x) →
    Forall (λ o, opNode o ≠ NDir d ∧ is_Some (nodeInfo σ0 (opNode o))) ops →
    ∃ dir', dirs (runOps index rangeMap (S fuel) d ops σ) !! d = Some dir' ∧
            size dir' = size dir ∧ hash dir' = hash dir ∧
            hashes (runOps index rangeMap (S fuel) d ops σ) = hashes σ.
Proof.
  induction ops as [|o ops IH]; intros σ σ0 dir Hd Hp [m Hc] Hinfo Hops.
  - simpl. by exists dir.
  - apply Forall_cons in Hops as [[Hne [[[nm sz] h] Hi0]] Hops].
    assert (Hi : nodeInfo σ (opNode o) = Some (nm, sz, h))
      by (by rewrite Hinfo).
    assert (Hstep : ∃ dir1,
              dirs (runOp index rangeMap (S fuel) d o σ).1 !! d = Some dir1 ∧
              parent dir1 = None ∧ is_Some (children dir1) ∧
              size dir1 = size dir ∧ hash dir1 = hash dir ∧
              hashes (runOp index rangeMap (S fuel) d o σ).1 = hashes σ ∧
              ∀ x, nodeInfo (runOp index rangeMap (S fuel) d o σ).1 x
                   = nodeInfo σ x).
    { destruct o as [nd|nd]; simpl in *.
      - rewrite (Add_unfold _ _ _ _ _ _ _ _ _ _ _ Hd Hc Hi).
        rewrite (Up_root index fuel _ _ d (withChildren dir (<[nm := h]> m)));
          [|simpl; apply lookup_insert_eq|done].
        exists (withChildren dir (<[nm := h]> m)).
        split_and!; try done; try (by eexists).
        * simpl. apply lookup_insert_eq.
        * intros x. by apply (nodeInfo_putDir _ _ dir).
      - destruct (m !! nm) as [x|] eqn:Hx.
        + destruct (SetParent_nil _ _ _ _ _ _ _ Hd Hi Hne)
            as (σb & Hsp & Hdb & Hhb & _).
          assert (Eb : (SetParent nd None σ).1 = σb) by (by rewrite Hsp).
          rewrite (RemoveChild_start index rangeMap _ _ _ _ _ _ _ _ _
                     Hd Hc (mk_is_Some _ _ Hx) Hi Hne).
          unfold removeStart. rewrite Eb.
          rewrite (Up_root index fuel _ _ d (withChildren dir (delete nm m)));
            [|simpl; apply lookup_insert_eq|done].
          exists (withChildren dir (delete nm m)).
          split_and!; try done; try (by eexists).
          * simpl. apply lookup_insert_eq.
          * intros y.
            etransitivity;
              [exact (nodeInfo_putDir σb d dir (withChildren dir (delete nm m))
                        y Hdb eq_refl eq_refl eq_refl)|].
            by rewrite <- Eb, SetParent_nodeInfo.
        + destruct (nodeInfo_reads _ _ _ _ _ Hi) as (Hn & _).
          assert (E : RemoveChild index rangeMap (S fuel) d nd σ
                      = (σ, Err (NoSuchFile nm))).
          { unfold RemoveChild. unfold bind at 1. rewrite Hn.
            unfold bind at 1. unfold getDir. rewrite Hd, Hc. simpl.
            by rewrite Hx. }
          rewrite E. exists dir. split_and!; try done; try (by eexists). }
    destruct Hstep as (dir1 & Hd1 & Hp1 & Hc1 & Hs1 & Hh1 & Hhs1 & Hi1).
    destruct (IH _ σ0 dir1 Hd1 Hp1 Hc1) as (dir' & Hd' & Hs' & Hh' & Hhs').
    { intros x. by rewrite Hi1. }
    { done. }
    exists dir'. simpl. repeat split; try done; congruence.
Qed.

(** C8, amended.  For a directory [d] with a size below 2^64, in a tree
    without a reference cycle (the walks above [d] do not come back to [d]
    or to its hash object, and touch neither the nodes concerned nor their
    hash objects).  First, [RemoveChild] right after [Add] of the same node
    leaves the size and the digest of [d] as they were before the [Add].
    Second, so does every sequence of [Add] and [RemoveChild] on [d] in
    which each [Add] brings a name that is not in the children map at that
    moment, each [RemoveChild] is given a node that was added before and is
    still there, and at the end every node added is removed again. *)
Theorem mutation_sequence_restores (fuel : nat) (σ : Heap) (d : daddr)
    (dir : Directory) (m0 : gmap string hashptr) (hp : haddr) (a : digest) :
  dirs σ !! d = Some dir → children dir = Some m0 → hash dir = Some hp →
  hashes σ !! hp = Some a → 0 ≤ size dir < 2 ^ 64 →
  (∀ fuel' nd nm sz hq b,
     nodeInfo σ nd = Some (nm, sz, Some hq) → hashes σ !! hq = Some b →
     nd ≠ NDir d →
     let σ1 := (Add index rangeMap (S fuel) d nd σ).1 in
     let σ2 := (RemoveChild index rangeMap (S fuel') d nd σ1).1 in
     untouched σ (tail (newVisits σ σ1)) (NDir d) hp →
     untouched σ (newVisits σ σ1) nd hq →
     untouched σ (tail (newVisits σ1 σ2)) (NDir d) hp →
     dirSize σ2 d = dirSize σ d ∧ dirDigest σ2 d = dirDigest σ d) ∧
  (∀ ops,
     Forall (λ o, opNode o ≠ NDir d ∧
                  ∃ nm sz hq b, nodeInfo σ (opNode o) = Some (nm, sz, Some hq) ∧
                                hashes σ !! hq = Some b) ops →
     netOps σ m0 ∅ ops = Some ∅ →
     cleanRun index rangeMap (S fuel) d hp σ ops ops σ →
     dirSize (runOps index rangeMap (S fuel) d ops σ) d = dirSize σ d ∧
     dirDigest (runOps index rangeMap (S fuel) d ops σ) d = dirDigest σ d).
Proof.
  intros Hd Hc Hh Ha Hrange. split.
  - intros fuel' nd nm sz hq b Hi Hb Hne.
    by apply (Add_RemoveChild_roundtrip index rangeMap fuel fuel' σ d dir m0
                nd nm sz hq hp a b).
  - intros ops Hfacts Hnet Hcl.
    assert (Hsz0 : dirSize σ d = Some (size dir))
      by (unfold dirSize; by rewrite Hd).
    assert (Hdg0 : dirDigest σ d = Some a).
    { unfold dirDigest. rewrite Hd. simpl. rewrite Hh. simpl. done. }
    rewrite Hsz0, Hdg0.
    destruct (parent dir) as [pp|] eqn:Hp.
    + assert (Hinv : seqInv σ d dir m0 hp a ops ∅ σ).
      { split; [|split; [|split]].
        - exists dir. rewrite Hp. split_and!; try done; try (by eexists).
          + by rewrite fmap_empty, (left_id_L ∅ (∪)).
          + rewrite map_fold_empty, Z.add_0_r. unfold wrap64.
            by rewrite Z.mod_small.
        - by rewrite map_fold_empty.
        - apply Forall_forall. by intros o _.
        - intros nm n Hl. by rewrite lookup_empty in Hl. }
      destruct (seq_run fuel σ d dir m0 hp a ops Hfacts ops ∅ σ ∅ Hinv)
        as ((dir' & Hd' & Hh' & _ & _ & Hs') & Hb' & _); [done..|].
      rewrite map_fold_empty, Z.add_0_r in Hs'. rewrite map_fold_empty in Hb'.
      split.
      * unfold dirSize. rewrite Hd'. simpl. rewrite Hs'. unfold wrap64.
        by rewrite Z.mod_small.
      * unfold dirDigest. rewrite Hd'. simpl. rewrite Hh'. simpl. exact Hb'.
    + destruct (root_run fuel d ops σ σ dir Hd Hp)
        as (dir' & Hd' & Hs' & Hh' & Hhs'); [by eexists|done| |].
      { eapply Forall_impl; [exact Hfacts|].
        intros o (Hne & nm & sz & hq & b & Hi & _). split; [done|].
        rewrite Hi. by eexists. }
      split.
      * unfold dirSize. rewrite Hd'. simpl. by rewrite Hs'.
      * unfold dirDigest. rewrite Hd'. simpl. rewrite Hh', Hh. simpl.
        by rewrite Hhs'.
Qed.

End Sequences.

(** [RemoveChild] looks a child up by name only: given another node of the
    same name than the one that was added, it deletes the entry, and the
    children map is empty again while the size and the digest are not what
    they were. *)
Lemma remove_other_node_breaks_digest :
  let r1 := Add treeIndex map_to_list 3 1%nat (NDir 2%nat) treeHeap in
  let r2 := RemoveChild treeIndex map_to_list 3 1%nat (NDir 3%nat) r1.1 in
  r1.2 = Ok tt ∧ r2.2 = Ok tt ∧
  dirChildren treeHeap 1%nat = Some ∅ ∧ dirChildren r2.1 1%nat = Some ∅ ∧
  dirDigest treeHeap 1%nat = Some [2%N; 0%N] ∧
  dirDigest r2.1 1%nat = Some [2%N; 24%N].
Proof. cbv zeta. repeat split; vm_compute; reflexivity. Qed.

Lemma mutation_sequence_restores_witness :
  let ops := [OpAdd (NDir 2%nat); OpAdd (NFile 0%nat);
              OpRemove (NDir 2%nat); OpRemove (NFile 0%nat)] in
  netOps treeHeap ∅ ∅ ops = Some ∅ ∧
  dirSize (runOps treeIndex map_to_list 3 1%nat (take 2 ops) treeHeap) 1%nat
    = Some 12 ∧
  dirSize (runOps treeIndex map_to_list 3 1%nat ops treeHeap) 1%nat = Some 0 ∧
  dirDigest (runOps treeIndex map_to_list 3 1%nat ops treeHeap) 1%nat
    = Some [2%N; 0%N].
Proof.
  intros ops.
  destruct (mutation_sequence_restores treeIndex map_to_list 2 treeHeap 1%nat
              (mkDirectory "dirA" 0 0 (Some 1%nat) (Some 2%nat) (Some ∅) 2)
              ∅ 2%nat [2%N; 0%N]) as [_ H];
    [vm_compute; reflexivity|reflexivity|reflexivity|vm_compute; reflexivity
    |simpl; lia|].
  destruct (H ops) as [H1 H2].
  - repeat constructor; try discriminate;
      eexists _, _, _, _; split; vm_compute; reflexivity.
  - vm_compute. reflexivity.
  - unfold ops.
    repeat (cbn [cleanRun]; cbv zeta; split;
            [split; apply (bool_decide_unpack _); vm_compute; exact I
            |split;
             [repeat constructor;
              first [apply (bool_decide_unpack _); vm_compute; exact I
                    |intros hq Hq; vm_compute in Hq; injection Hq as <-;
                     apply (bool_decide_unpack _); vm_compute; exact I]|]]).
    exact I.
  - split; [vm_compute; reflexivity|]. split; [vm_compute; reflexivity|].
    split.
    + etransitivity; [exact H1|]. vm_compute. reflexivity.
    + etransitivity; [exact H2|]. vm_compute. reflexivity.
Defined.
